(** * Shader-object specialization and pipeline caching of slang-rhi

    A shallow embedding of the shader-object core found in
    [src/src/wgpu/wgpu-device.cpp]: component and pipeline keys, the shader
    cache, container resolution of reflection type layouts, and the mutable
    shader object ([ShaderObjectBaseImpl]) with its state machine, its
    sub-object binding and its specialization-argument collection; and of
    the buffer functions of the WebGPU device in the same file and in
    [src/src/wgpu/wgpu-device.h]: [readBuffer], [createBuffer], and [map]
    and [unmap] of a buffer.

    Conventions.
    - [Index], [GfxIndex], [GfxCount] and [size_t] values are integers of [Z];
      their declarations are not part of the sources, and every quantity of
      these types used below is a position in, or the length of, a vector.
    - A nullable pointer ([T*], [RefPtr<T>]) is an [option]; [None] is
      [nullptr].
    - [SLANG_RHI_ASSERT] is a debug-only check: it compiles to nothing in a
      release build, which is the build modelled here.  Where an assertion
      guards an access, the access itself is modelled (see [Undefined]).
    - Shader objects live on a heap and refer to each other by address; a
      member function is a function from the world before the call to its
      result and the world after it (see [M]).  The two member functions
      that recurse into sub-objects, and the loop of
      [_unwrapParameterGroups], take a budget [fuel] of calls or iterations.
    - The WebGPU API is outside the sources.  A function of the device is
      a function from the API, which answers each call as it will, and
      the calls made so far to its result and the calls made (see [IO]);
      its wait loops take a budget [fuel] of iterations.

    The file has four parts: the embedding of the sources, the vocabulary
    of the statements, example layouts and worlds, and the properties. *)

From Stdlib Require Import ZArith Lia.
From stdpp Require Import base option list gmap strings.

(** ** Result codes *)

(** The [Result] values that occur in the sources. *)
Inductive Result : Type :=
  | SLANG_OK
  | SLANG_FAIL
  | SLANG_E_INVALID_ARG
  | SLANG_E_NOT_IMPLEMENTED
  | SLANG_E_NOT_AVAILABLE.

#[global] Instance Result_eq_dec : EqDecision Result.
Proof. solve_decision. Defined.

Definition SLANG_FAILED (r : Result) : bool :=
  match r with SLANG_OK => false | _ => true end.

Definition SLANG_SUCCEEDED (r : Result) : bool := negb (SLANG_FAILED r).

(** ** BreakableReference *)

(** [BreakableReference<T>]: a [RefPtr<T>] that owns the target while the
    reference is strong, and a plain pointer through which every access
    goes. *)
Module BreakableReference.
Record t : Type := mk {
  m_strongPtr : option nat;
  m_weakPtr : option nat
}.

(** [BreakableReference() = default] *)
Definition default : t := {| m_strongPtr := None; m_weakPtr := None |}.

Definition setWeakReference (r : t) (p : option nat) : t :=
  {| m_strongPtr := None; m_weakPtr := p |}.

(** [get()], and with it [operator*], [operator->] and [operator T*]. *)
Definition get (r : t) : option nat := m_weakPtr r.

(** [operator=] *)
Definition assign (r : t) (p : option nat) : t :=
  {| m_strongPtr := p; m_weakPtr := p |}.

Definition breakStrongReference (r : t) : t :=
  {| m_strongPtr := None; m_weakPtr := m_weakPtr r |}.

Definition establishStrongReference (r : t) : t :=
  {| m_strongPtr := m_weakPtr r; m_weakPtr := m_weakPtr r |}.
End BreakableReference.

(** ** Component identities *)

(** [typedef uint32_t ShaderComponentID]. *)
Abbreviation ShaderComponentID := Z (only parsing).

Definition kInvalidComponentID : Z := 0xFFFFFFFF%Z.

(** A [slang::TypeReflection] is known to this code only through its
    identity; it is represented by the type's full name. *)
Abbreviation TypeReflection := string (only parsing).

(** The hash functions the keys use ([std::hash] and [hash_combine]); they
    are library code and stay abstract. *)
Class StdHash : Type := {
  std_hash_string : string → Z;
  std_hash_pointer : nat → Z;
  hash_combine : Z → ShaderComponentID → Z
}.

(** The body shared by [ComponentKey::operator==] and
    [PipelineKey::operator==] once the sizes are known to agree:
    [for (Index i = 0; i < other.specializationArgs.size(); i++)]. *)
Fixpoint specializationArgs_equal_from
    (n : nat) (i : nat) (mine other : list ShaderComponentID) : bool :=
  match n with
  | O => true
  | S n' =>
      match mine !! i, other !! i with
      | Some a, Some b =>
          if negb (a =? b)%Z then false
          else specializationArgs_equal_from n' (S i) mine other
      | _, _ => false
      end
  end.

Module ComponentKey.

Record t : Type := mk {
  typeName : string;
  specializationArgs : list ShaderComponentID;
  hash : Z
}.

Definition updateHash `{StdHash} (k : t) : t :=
  {| typeName := typeName k;
     specializationArgs := specializationArgs k;
     hash := foldl hash_combine (std_hash_string (typeName k))
               (specializationArgs k) |}.

(** [operator==]: the cached [hash] takes no part in the comparison. *)
Definition eqb (k other : t) : bool :=
  if negb (String.eqb (typeName k) (typeName other)) then false
  else if negb (length (specializationArgs k)
                =? length (specializationArgs other))%nat then false
  else specializationArgs_equal_from
         (length (specializationArgs other)) 0
         (specializationArgs k) (specializationArgs other).

End ComponentKey.

(** A [Pipeline*] is an address. *)
Abbreviation PipelinePtr := nat (only parsing).

Module PipelineKey.

Record t : Type := mk {
  pipeline : PipelinePtr;
  specializationArgs : list ShaderComponentID;
  hash : Z
}.

Definition updateHash `{StdHash} (k : t) : t :=
  {| pipeline := pipeline k;
     specializationArgs := specializationArgs k;
     hash := foldl hash_combine (std_hash_pointer (pipeline k))
               (specializationArgs k) |}.

Definition eqb (k other : t) : bool :=
  if negb (pipeline k =? pipeline other)%nat then false
  else if negb (length (specializationArgs k)
                =? length (specializationArgs other))%nat then false
  else specializationArgs_equal_from
         (length (specializationArgs other)) 0
         (specializationArgs k) (specializationArgs other).

End PipelineKey.

(** ** The shader cache *)

(** A [std::unordered_map] with a user hasher and [operator==] as key
    equality, as a list of entries.  [find] meets an entry when the two
    hash codes agree and the keys compare equal. *)
Section unordered_map.
Context {K V : Type} (hasher : K → Z) (key_eq : K → K → bool).

Fixpoint umap_find (k : K) (m : list (K * V)) : option V :=
  match m with
  | [] => None
  | (k', v) :: rest =>
      if (hasher k' =? hasher k)%Z && key_eq k' k then Some v
      else umap_find k rest
  end.

(** [emplace]: no effect when an equal key is present. *)
Definition umap_emplace (k : K) (v : V) (m : list (K * V)) : list (K * V) :=
  match umap_find k m with
  | Some _ => m
  | None => m ++ [(k, v)]
  end.

(** [m[k] = v]. *)
Fixpoint umap_assign (k : K) (v : V) (m : list (K * V)) : list (K * V) :=
  match m with
  | [] => [(k, v)]
  | (k', v') :: rest =>
      if (hasher k' =? hasher k)%Z && key_eq k' k then (k', v) :: rest
      else (k', v') :: umap_assign k v rest
  end.
End unordered_map.

Module ShaderCache.

Record t : Type := mk {
  componentIds : list (ComponentKey.t * ShaderComponentID);
  (** the mapped value is a [RefPtr<Pipeline>] *)
  specializedPipelines : list (PipelineKey.t * option PipelinePtr);
  (** Modelled from the spec: the number of component ids given out so
      far.  Spec 4.3 has the ids allocated in sequence and never reused
      across [free()]; the sources only declare [getComponentId], and the
      two maps, once they are reset, do not tell which ids were given. *)
  issuedComponentIds : nat
}.

Definition ComponentKeyHasher (k : ComponentKey.t) : Z := ComponentKey.hash k.
Definition PipelineKeyHasher (k : PipelineKey.t) : Z := PipelineKey.hash k.

Definition getSpecializedPipeline (c : t) (programKey : PipelineKey.t)
    : option PipelinePtr :=
  match umap_find PipelineKeyHasher PipelineKey.eqb programKey
          (specializedPipelines c) with
  | Some second => second
  | None => None
  end.

Definition free (c : t) : t :=
  {| componentIds := []; specializedPipelines := [];
     issuedComponentIds := issuedComponentIds c |}.

(** Modelled from the spec: [ShaderCache::addSpecializedPipeline] is only
    declared in the sources.  The spec's pipeline table maps a Pipeline Key
    to the pipeline the cache owns; adding stores the pipeline under the
    key. *)
Definition addSpecializedPipeline (c : t) (key : PipelineKey.t)
    (specializedPipeline : option PipelinePtr) : t :=
  {| componentIds := componentIds c;
     specializedPipelines :=
       umap_assign PipelineKeyHasher PipelineKey.eqb key specializedPipeline
         (specializedPipelines c);
     issuedComponentIds := issuedComponentIds c |}.

(** Modelled from the spec: [ShaderCache::getComponentId] is only declared
    in the sources.  Spec 4.3: look the key up; on a miss insert it with a
    freshly allocated sequential id, one that no key has been given before,
    also not before a [free()]. *)
Definition getComponentId_key (c : t) (key : ComponentKey.t)
    : ShaderComponentID * t :=
  match umap_find ComponentKeyHasher ComponentKey.eqb key (componentIds c) with
  | Some id => (id, c)
  | None =>
      let resultId := Z.of_nat (issuedComponentIds c) in
      (resultId,
       {| componentIds :=
            umap_emplace ComponentKeyHasher ComponentKey.eqb key resultId
              (componentIds c);
          specializedPipelines := specializedPipelines c;
          issuedComponentIds := S (issuedComponentIds c) |})
  end.

(** Modelled from the spec: for a reflection type, "build a Component Key
    with an empty ... argument list, hash it, and look it up". *)
Definition getComponentId `{StdHash} (c : t) (type : TypeReflection)
    : ShaderComponentID * t :=
  getComponentId_key c
    (ComponentKey.updateHash
       {| ComponentKey.typeName := type;
          ComponentKey.specializationArgs := [];
          ComponentKey.hash := 0 |}).

End ShaderCache.

(** ** Reflection type layouts *)

Module Kind.
(** [slang::TypeReflection::Kind]. *)
Inductive t : Type :=
  | None | Struct | Array | Matrix | Vector | Scalar | ConstantBuffer
  | Resource | SamplerState | TextureBuffer | ShaderStorageBuffer
  | ParameterBlock | GenericTypeParameter | Interface | OutputStream
  | Specialized | Feedback | Pointer.
End Kind.

(** [SlangResourceShape] values. *)
Abbreviation SlangResourceShape := Z (only parsing).
Definition SLANG_RESOURCE_NONE : SlangResourceShape := 0x00%Z.
Definition SLANG_TEXTURE_2D : SlangResourceShape := 0x02%Z.
Definition SLANG_STRUCTURED_BUFFER : SlangResourceShape := 0x06%Z.
Definition SLANG_BYTE_ADDRESS_BUFFER : SlangResourceShape := 0x07%Z.

Module ShaderObjectContainerType.
Inductive t : Type := None | Array | StructuredBuffer.

#[global] Instance eq_dec : EqDecision t.
Proof. solve_decision. Defined.
End ShaderObjectContainerType.

(** Modelled from the spec: [slang::TypeLayoutReflection] belongs to the
    reflection collaborator, which "supplies type-layout trees (binding
    ranges, sub-object ranges, container/resource shape classification,
    element strides)".  A node carries what the code below asks of it. *)
#[local] Unset Elimination Schemes.
Inductive TypeLayoutReflection : Type :=
  mkTypeLayout {
    tl_type : option TypeReflection;
    tl_kind : Kind.t;
    tl_resourceShape : SlangResourceShape;
    tl_stride : Z;
    tl_elementTypeLayout : option TypeLayoutReflection;
    tl_bindingRangeLeafTypeLayouts : list TypeLayoutReflection
  }.
#[local] Set Elimination Schemes.

(** A [slang::TypeLayoutReflection*].  The reflection interface answers a
    null receiver with null, and with [Kind::None] for the kind. *)
Abbreviation TypeLayoutPtr := (option TypeLayoutReflection) (only parsing).

Definition getType (p : TypeLayoutPtr) : option TypeReflection :=
  p ≫= tl_type.
Definition getKind (p : TypeLayoutPtr) : Kind.t :=
  from_option tl_kind Kind.None p.
Definition getResourceShape (p : TypeLayoutPtr) : SlangResourceShape :=
  from_option tl_resourceShape SLANG_RESOURCE_NONE p.
Definition getStride (p : TypeLayoutPtr) : Z :=
  from_option tl_stride 0%Z p.
Definition getElementTypeLayout (p : TypeLayoutPtr) : TypeLayoutPtr :=
  p ≫= tl_elementTypeLayout.
Definition getBindingRangeLeafTypeLayout (p : TypeLayoutPtr) (index : Z)
    : TypeLayoutPtr :=
  if (index <? 0)%Z then None
  else p ≫= λ tl, tl_bindingRangeLeafTypeLayouts tl !! Z.to_nat index.

(** The number of element links below a layout. *)
Fixpoint tl_depth (tl : TypeLayoutReflection) : nat :=
  match tl_elementTypeLayout tl with
  | Some e => S (tl_depth e)
  | None => O
  end.

(** ** ShaderObjectLayout::_unwrapParameterGroups *)

(** What one pass through the body of [for (;;)] does. *)
Inductive LoopStep (A S : Type) : Type :=
  | Return (a : A)
  | Again (s : S).
Arguments Return {A S} a.
Arguments Again {A S} s.

(** The [if (!typeLayout->getType())] at the head of the loop body. *)
Definition skipUntypedLayout (typeLayout : TypeLayoutPtr) : TypeLayoutPtr :=
  match getType typeLayout with
  | Some _ => typeLayout
  | None =>
      match getElementTypeLayout typeLayout with
      | Some elementTypeLayout => Some elementTypeLayout
      | None => typeLayout
      end
  end.

(** One iteration.  The state is [(typeLayout, outContainerType)].  A
    [break] inside the [switch] leaves the [switch]; the end of the loop
    body follows and the loop goes round again with the state as it is. *)
Definition _unwrapParameterGroups_body
    (st : TypeLayoutPtr * ShaderObjectContainerType.t)
    : LoopStep (TypeLayoutPtr * ShaderObjectContainerType.t)
               (TypeLayoutPtr * ShaderObjectContainerType.t) :=
  let '(typeLayout, outContainerType) := st in
  let typeLayout := skipUntypedLayout typeLayout in
  match getKind typeLayout with
  | Kind.Array =>
      Return (getElementTypeLayout typeLayout, ShaderObjectContainerType.Array)
  | Kind.Resource =>
      if negb (getResourceShape typeLayout =? SLANG_STRUCTURED_BUFFER)%Z
      then Again (typeLayout, outContainerType)
      else Return (getElementTypeLayout typeLayout,
                   ShaderObjectContainerType.StructuredBuffer)
  | Kind.ConstantBuffer | Kind.ParameterBlock =>
      Again (getElementTypeLayout typeLayout, outContainerType)
  | _ => Return (typeLayout, outContainerType)
  end.

(** [for (;;)], run for at most [fuel] iterations; [None] when the loop has
    not returned by then. *)
Fixpoint _unwrapParameterGroups_loop (fuel : nat)
    (st : TypeLayoutPtr * ShaderObjectContainerType.t)
    : option (TypeLayoutPtr * ShaderObjectContainerType.t) :=
  match fuel with
  | O => None
  | S fuel' =>
      match _unwrapParameterGroups_body st with
      | Return r => Some r
      | Again st' => _unwrapParameterGroups_loop fuel' st'
      end
  end.

Definition _unwrapParameterGroups (fuel : nat) (typeLayout : TypeLayoutPtr)
    : option (TypeLayoutPtr * ShaderObjectContainerType.t) :=
  _unwrapParameterGroups_loop fuel (typeLayout, ShaderObjectContainerType.None).

(** ** Extended shader-object types *)

Record ExtendedShaderObjectType : Type := mkExtendedType {
  slangType : option TypeReflection;
  componentID : ShaderComponentID
}.

(** [ExtendedShaderObjectTypeList] keeps two vectors, [componentIDs] and
    [components], that every member function extends and overwrites
    together; entry [i] of the list below is the pair
    [(components[i].type, componentIDs[i])]. *)
Module ExtendedShaderObjectTypeList.

Abbreviation t := (list ExtendedShaderObjectType) (only parsing).

Definition componentIDs (l : t) : list ShaderComponentID := componentID <$> l.

Definition add (l : t) (component : ExtendedShaderObjectType) : t :=
  l ++ [component].

Definition getCount (l : t) : Z := Z.of_nat (length l).

(** [operator[]] *)
Definition at_ (l : t) (index : Z) : option ExtendedShaderObjectType :=
  if (index <? 0)%Z then None else l !! Z.to_nat index.

(** [for (Index i = 0; i < list.getCount(); i++) add(list[i]);] *)
Fixpoint addRange_from (n i : nat) (l list_ : t) : t :=
  match n with
  | O => l
  | S n' =>
      match list_ !! i with
      | Some c => addRange_from n' (S i) (add l c) list_
      | None => l
      end
  end.

Definition addRange (l list_ : t) : t :=
  addRange_from (length list_) 0 l list_.

Definition clear (l : t) : t := [].

End ExtendedShaderObjectTypeList.

(** ** Shader-object layouts *)

Module BindingType.
(** [slang::BindingType]. *)
Inductive t : Type :=
  | Unknown | Sampler | Texture | ConstantBuffer | ParameterBlock
  | TypedBuffer | RawBuffer | CombinedTextureSampler | InputRenderTarget
  | InlineUniformData | RayTracingAccelerationStructure | VaryingInput
  | VaryingOutput | ExistentialValue | PushConstant | MutableTexture
  | MutableTypedBuffer | MutableRawBuffer.
End BindingType.

Module BindingRangeInfo.
Record t : Type := mk {
  bindingType : BindingType.t;
  count : Z;
  subObjectIndex : Z;
  isSpecializable : bool
}.
End BindingRangeInfo.

Module SubObjectRangeInfo.
Record t : Type := mk { bindingRangeIndex : Z }.
End SubObjectRangeInfo.

Module ShaderOffset.
Record t : Type := mk {
  uniformOffset : Z;
  bindingRangeIndex : Z;
  bindingArrayIndex : Z
}.
End ShaderOffset.

(** Modelled from the spec: the layout class is the template parameter
    [TShaderObjectLayoutImpl]; the sources show [ShaderObjectLayout] and the
    members the shader object calls.  Spec 2: a layout "describes binding
    ranges, sub-object ranges, and container classification ... for one
    shader parameter type". *)
Module ShaderObjectLayout.
Record t : Type := mk {
  m_elementTypeLayout : TypeLayoutPtr;
  m_componentID : ShaderComponentID;
  m_containerType : ShaderObjectContainerType.t;
  m_bindingRanges : list BindingRangeInfo.t;
  m_subObjectRanges : list SubObjectRangeInfo.t
}.

Definition getContainerType (l : t) := m_containerType l.
Definition getElementTypeLayout (l : t) := m_elementTypeLayout l.
Definition getComponentID (l : t) := m_componentID l.
Definition getBindingRangeCount (l : t) : Z :=
  Z.of_nat (length (m_bindingRanges l)).
Definition getSubObjectRanges (l : t) := m_subObjectRanges l.
End ShaderObjectLayout.

(** ** Shader objects *)

Module State.
Inductive t : Type := Initial | Initialized | Finalized.

#[global] Instance eq_dec : EqDecision t.
Proof. solve_decision. Defined.
End State.

(** A [uint8_t]. *)
Abbreviation uint8_t := Byte.byte (only parsing).

Abbreviation BufferPtr := nat (only parsing).

Module SimpleShaderObjectData.
Record t : Type := mk {
  m_ordinaryData : list uint8_t;
  m_structuredBuffer : option BufferPtr
}.

Definition getCount (d : t) : Z := Z.of_nat (length (m_ordinaryData d)).

(** [m_ordinaryData.resize(count)]: a longer vector is filled with
    value-initialised, that is zero, bytes. *)
Definition setCount (d : t) (count : Z) : t :=
  {| m_ordinaryData := resize (Z.to_nat count) Byte.x00 (m_ordinaryData d);
     m_structuredBuffer := m_structuredBuffer d |}.

Definition getBuffer (d : t) : list uint8_t := m_ordinaryData d.
End SimpleShaderObjectData.

(** A [TShaderObjectImpl*]: the address of a shader object. *)
Abbreviation ObjPtr := nat (only parsing).

(** The members of [ShaderObjectBase] and [ShaderObjectBaseImpl]. *)
Module ShaderObject.
Record t : Type := mk {
  m_layout : ShaderObjectLayout.t;
  shaderObjectType : ExtendedShaderObjectType;
  m_state : State.t;
  m_data : SimpleShaderObjectData.t;
  m_objects : list (option ObjPtr);
  m_userProvidedSpecializationArgs :
    list (option ExtendedShaderObjectTypeList.t);
  m_structuredBufferSpecializationArgs : ExtendedShaderObjectTypeList.t
}.

Definition isFinalized (o : t) : bool :=
  bool_decide (m_state o = State.Finalized).

Definition requireNotFinalized (o : t) : Result :=
  if bool_decide (m_state o = State.Finalized) then SLANG_FAIL else SLANG_OK.

Definition set_state (s : State.t) (o : t) : t :=
  mk (m_layout o) (shaderObjectType o) s (m_data o) (m_objects o)
     (m_userProvidedSpecializationArgs o)
     (m_structuredBufferSpecializationArgs o).
Definition set_data (d : SimpleShaderObjectData.t) (o : t) : t :=
  mk (m_layout o) (shaderObjectType o) (m_state o) d (m_objects o)
     (m_userProvidedSpecializationArgs o)
     (m_structuredBufferSpecializationArgs o).
Definition set_objects (l : list (option ObjPtr)) (o : t) : t :=
  mk (m_layout o) (shaderObjectType o) (m_state o) (m_data o) l
     (m_userProvidedSpecializationArgs o)
     (m_structuredBufferSpecializationArgs o).
Definition set_userProvidedSpecializationArgs
    (l : list (option ExtendedShaderObjectTypeList.t)) (o : t) : t :=
  mk (m_layout o) (shaderObjectType o) (m_state o) (m_data o) (m_objects o)
     l (m_structuredBufferSpecializationArgs o).
Definition set_structuredBufferSpecializationArgs
    (l : ExtendedShaderObjectTypeList.t) (o : t) : t :=
  mk (m_layout o) (shaderObjectType o) (m_state o) (m_data o) (m_objects o)
     (m_userProvidedSpecializationArgs o) l.
End ShaderObject.

(** ** The world: the objects on the heap, and the device *)

Record Device : Type := mkDevice {
  shaderCache : ShaderCache.t;
  (** [slangContext.session->getDynamicType()] *)
  dynamicType : TypeReflection
}.

Record World : Type := mkWorld {
  objects : gmap ObjPtr ShaderObject.t;
  device : Device
}.

(** The result of running a member function: it returns a value and leaves
    a world; or it reads or writes a vector outside its bounds, or follows
    a pointer to no object ([Undefined]); or the recursion budget of the
    model is spent ([OutOfFuel]). *)
Inductive outcome (A : Type) : Type :=
  | Done (a : A) (w : World)
  | Undefined
  | OutOfFuel.
Arguments Done {A} a w.
Arguments Undefined {A}.
Arguments OutOfFuel {A}.

Definition M (A : Type) : Type := World → outcome A.

Definition ret {A} (a : A) : M A := λ w, Done a w.

Definition bind {A B} (m : M A) (k : A → M B) : M B :=
  λ w, match m w with
       | Done a w' => k a w'
       | Undefined => Undefined
       | OutOfFuel => OutOfFuel
       end.

Notation "'let*' x ':=' c1 'in' c2" := (bind c1 (λ x, c2))
  (at level 10, x pattern, c1 at level 100, c2 at level 200, only parsing).

Definition undefined {A} : M A := λ _, Undefined.
Definition out_of_fuel {A} : M A := λ _, OutOfFuel.

(** [SLANG_RETURN_ON_FAIL(x)] followed by [k]. *)
Definition SLANG_RETURN_ON_FAIL (r : Result) (k : M Result) : M Result :=
  if SLANG_FAILED r then ret r else k.

Definition get_object (p : ObjPtr) : M ShaderObject.t :=
  λ w, match objects w !! p with
       | Some o => Done o w
       | None => Undefined
       end.

Definition put_object (p : ObjPtr) (o : ShaderObject.t) : M () :=
  λ w, Done () {| objects := <[p := o]> (objects w); device := device w |}.

Definition modify_object (p : ObjPtr) (f : ShaderObject.t → ShaderObject.t)
    : M () :=
  let* o := get_object p in put_object p (f o).

Definition get_device : M Device := λ w, Done (device w) w.

(** [v[index]], read. *)
Definition vec_get {A} (v : list A) (index : Z) : M A :=
  if (index <? 0)%Z then undefined
  else match v !! Z.to_nat index with
       | Some x => ret x
       | None => undefined
       end.

(** [v[index] = x]. *)
Definition vec_set {A} (v : list A) (index : Z) (x : A) : M (list A) :=
  if (index <? 0)%Z then undefined
  else if (index <? Z.of_nat (length v))%Z
       then ret (<[Z.to_nat index := x]> v)
       else undefined.

(** [device->shaderCache.getComponentId(type)]. *)
Definition device_getComponentId `{StdHash} (type : TypeReflection)
    : M ShaderComponentID :=
  λ w,
    let '(id, cache) := ShaderCache.getComponentId (shaderCache (device w)) type in
    Done id {| objects := objects w;
               device := {| shaderCache := cache;
                            dynamicType := dynamicType (device w) |} |}.

(** The member functions whose bodies are outside the sources: the ones the
    derived shader object supplies ([setData], [setBinding]), and
    [setExistentialHeader], [getSpecializedShaderObjectType],
    [getBufferResource] and [_doesValueFitInExistentialPayload], which are
    declared only.  The first argument is the receiver. *)
Class Collaborators : Type := {
  setData : ObjPtr → ShaderOffset.t → list uint8_t → M Result;
  setBinding : ObjPtr → ShaderOffset.t → BufferPtr → M Result;
  setExistentialHeader :
    ObjPtr → option TypeReflection → option TypeReflection →
    ShaderOffset.t → M Result;
  getSpecializedShaderObjectType : ObjPtr → M (Result * ExtendedShaderObjectType);
  getBufferResource :
    ObjPtr → TypeLayoutPtr → BindingType.t → M (option BufferPtr);
  _doesValueFitInExistentialPayload : TypeLayoutPtr → TypeLayoutPtr → bool
}.

(** ** ShaderObjectBaseImpl: specialization arguments *)

Module SpecializationArg.
(** [slang::SpecializationArg]. *)
Inductive Kind : Type := Unknown | Type_.
Record t : Type := mk { kind : Kind; type : TypeReflection }.
End SpecializationArg.

Section ShaderObjectBaseImpl.
Context `{StdHash} `{Collaborators}.

(** The entry written over a differing position: [components[i]] becomes
    [SpecializationArg::fromType(dynamicType)] and [componentIDs[i]] the
    component id of [dynamicType]. *)
Definition dynamicEntry (dynamicType : TypeReflection)
    (id : ShaderComponentID) : ExtendedShaderObjectType :=
  {| slangType := Some dynamicType; componentID := id |}.

(** The [for] loop of [setSpecializationArgsForContainerElement], from
    index [i], over [m_structuredBufferSpecializationArgs] ([stored]).
    [specializationArgs[i]] is read whatever its length. *)
Fixpoint setSpecializationArgsForContainerElement_loop (n i : nat)
    (stored specializationArgs : ExtendedShaderObjectTypeList.t)
    : M ExtendedShaderObjectTypeList.t :=
  match n with
  | O => ret stored
  | S n' =>
      match stored !! i with
      | None => ret stored
      | Some mine =>
          match specializationArgs !! i with
          | None => undefined
          | Some theirs =>
              if negb (componentID mine =? componentID theirs)%Z then
                let* dev := get_device in
                let* id := device_getComponentId (dynamicType dev) in
                setSpecializationArgsForContainerElement_loop n' (S i)
                  (<[i := dynamicEntry (dynamicType dev) id]> stored)
                  specializationArgs
              else
                setSpecializationArgsForContainerElement_loop n' (S i)
                  stored specializationArgs
          end
      end
  end.

Definition setSpecializationArgsForContainerElement (this : ObjPtr)
    (specializationArgs : ExtendedShaderObjectTypeList.t) : M () :=
  let* obj := get_object this in
  let stored := ShaderObject.m_structuredBufferSpecializationArgs obj in
  if (ExtendedShaderObjectTypeList.getCount stored =? 0)%Z then
    put_object this
      (ShaderObject.set_structuredBufferSpecializationArgs
         specializationArgs obj)
  else
    (* SLANG_RHI_ASSERT(stored.getCount() == specializationArgs.getCount()) *)
    let* stored' :=
      setSpecializationArgsForContainerElement_loop (length stored) 0
        stored specializationArgs in
    modify_object this
      (ShaderObject.set_structuredBufferSpecializationArgs stored').

(** [getExtendedShaderTypeListFromSpecializationArgs]; [args] with its
    [count] is a list.  The list is an out-parameter: it is returned
    next to the result. *)
Fixpoint getExtendedShaderTypeListFromSpecializationArgs
    (list_ : ExtendedShaderObjectTypeList.t) (args : list SpecializationArg.t)
    : M (Result * ExtendedShaderObjectTypeList.t) :=
  match args with
  | [] => ret (SLANG_OK, list_)
  | arg :: args' =>
      match SpecializationArg.kind arg with
      | SpecializationArg.Type_ =>
          let* id := device_getComponentId (SpecializationArg.type arg) in
          getExtendedShaderTypeListFromSpecializationArgs
            (ExtendedShaderObjectTypeList.add list_
               {| slangType := Some (SpecializationArg.type arg);
                  componentID := id |})
            args'
      | _ => ret (SLANG_FAIL, list_)
      end
  end.

(** *** collectSpecializationArgs *)

(** The second [for] loop over [addedTypeArgCountForCurrentRange]: entry
    [i + oldArgsCount] of [args] against entry [i] of [typeArgs]. *)
Fixpoint collectSpecializationArgs_merge (n i : nat) (oldArgsCount : nat)
    (args typeArgs : ExtendedShaderObjectTypeList.t)
    : M ExtendedShaderObjectTypeList.t :=
  match n with
  | O => ret args
  | S n' =>
      match args !! (i + oldArgsCount)%nat with
      | None => undefined
      | Some mine =>
          match typeArgs !! i with
          | None => undefined
          | Some theirs =>
              if negb (componentID mine =? componentID theirs)%Z then
                let* dev := get_device in
                let* id := device_getComponentId (dynamicType dev) in
                collectSpecializationArgs_merge n' (S i) oldArgsCount
                  (<[(i + oldArgsCount)%nat
                     := dynamicEntry (dynamicType dev) id]> args)
                  typeArgs
              else
                collectSpecializationArgs_merge n' (S i) oldArgsCount
                  args typeArgs
          end
      end
  end.

(** [layout->getBindingRange(index)]. *)
Definition getBindingRange (layout : ShaderObjectLayout.t) (index : Z)
    : M BindingRangeInfo.t :=
  vec_get (ShaderObjectLayout.m_bindingRanges layout) index.

(** [objectIndex < m_userProvidedSpecializationArgs.size() &&
    m_userProvidedSpecializationArgs[objectIndex]]: the user's list for
    the index, when there is one. *)
Definition userProvidedSpecializationArgs (obj : ShaderObject.t)
    (objectIndex : Z) : option ExtendedShaderObjectTypeList.t :=
  if (objectIndex <? 0)%Z then None
  else
    match ShaderObject.m_userProvidedSpecializationArgs obj
            !! Z.to_nat objectIndex with
    | Some (Some list_) => Some list_
    | _ => None
    end.

(** The [switch (bindingRange.bindingType)] that derives [typeArgs] from
    the bound sub-object.  [collect] is the recursive call. *)
Definition collectSpecializationArgs_derive
    (collect : ObjPtr → ExtendedShaderObjectTypeList.t →
               M (Result * ExtendedShaderObjectTypeList.t))
    (bindingRange : BindingRangeInfo.t) (subObject : ObjPtr)
    : M (Result * ExtendedShaderObjectTypeList.t) :=
  let typeArgs : ExtendedShaderObjectTypeList.t := [] in
  match BindingRangeInfo.bindingType bindingRange with
  | BindingType.ExistentialValue =>
      let* (r, specializedSubObjType) :=
        getSpecializedShaderObjectType subObject in
      if SLANG_FAILED r then ret (r, typeArgs)
      else ret (SLANG_OK,
                ExtendedShaderObjectTypeList.add typeArgs specializedSubObjType)
  | BindingType.ParameterBlock
  | BindingType.ConstantBuffer
  | BindingType.RawBuffer
  | BindingType.MutableRawBuffer =>
      if BindingRangeInfo.isSpecializable bindingRange then
        let* (r, specializedSubObjType) :=
          getSpecializedShaderObjectType subObject in
        if SLANG_FAILED r then ret (r, typeArgs)
        else collect subObject
               (ExtendedShaderObjectTypeList.add typeArgs
                  specializedSubObjType)
      else collect subObject typeArgs
  | _ => ret (SLANG_OK, typeArgs)
  end.

(** The body of the loop over [subObjectIndexInRange].  [Again args] is
    the end of the body (or a [continue]); [Return] leaves the function. *)
Definition collectSpecializationArgs_subObject
    (collect : ObjPtr → ExtendedShaderObjectTypeList.t →
               M (Result * ExtendedShaderObjectTypeList.t))
    (this : ObjPtr) (bindingRange : BindingRangeInfo.t)
    (oldArgsCount : Z) (subObjectIndexInRange : Z)
    (args : ExtendedShaderObjectTypeList.t)
    : M (LoopStep (Result * ExtendedShaderObjectTypeList.t)
                  ExtendedShaderObjectTypeList.t) :=
  let objectIndex :=
    (BindingRangeInfo.subObjectIndex bindingRange + subObjectIndexInRange)%Z in
  let* obj := get_object this in
  let* subObject := vec_get (ShaderObject.m_objects obj) objectIndex in
  match subObject with
  | None => ret (Again args)
  | Some subObject =>
      match userProvidedSpecializationArgs obj objectIndex with
      | Some list_ =>
          ret (Again (ExtendedShaderObjectTypeList.addRange args list_))
      | None =>
          let* (r, typeArgs) :=
            collectSpecializationArgs_derive collect bindingRange subObject in
          if SLANG_FAILED r then ret (Return (r, args))
          else
            let addedTypeArgCountForCurrentRange :=
              (ExtendedShaderObjectTypeList.getCount args - oldArgsCount)%Z in
            if (addedTypeArgCountForCurrentRange =? 0)%Z then
              ret (Again (ExtendedShaderObjectTypeList.addRange args typeArgs))
            else
              (* SLANG_RHI_ASSERT(addedTypeArgCountForCurrentRange
                                  == typeArgs.getCount()) *)
              let* args' :=
                collectSpecializationArgs_merge
                  (Z.to_nat addedTypeArgCountForCurrentRange) 0
                  (Z.to_nat oldArgsCount) args typeArgs in
              ret (Again args')
      end
  end.

(** [for (subObjectIndexInRange = 0; subObjectIndexInRange < count; ...)],
    with [n] iterations left. *)
Fixpoint collectSpecializationArgs_range
    (collect : ObjPtr → ExtendedShaderObjectTypeList.t →
               M (Result * ExtendedShaderObjectTypeList.t))
    (this : ObjPtr) (bindingRange : BindingRangeInfo.t) (oldArgsCount : Z)
    (n : nat) (subObjectIndexInRange : Z)
    (args : ExtendedShaderObjectTypeList.t)
    : M (LoopStep (Result * ExtendedShaderObjectTypeList.t)
                  ExtendedShaderObjectTypeList.t) :=
  match n with
  | O => ret (Again args)
  | S n' =>
      let* step :=
        collectSpecializationArgs_subObject collect this bindingRange
          oldArgsCount subObjectIndexInRange args in
      match step with
      | Return r => ret (Return r)
      | Again args' =>
          collectSpecializationArgs_range collect this bindingRange
            oldArgsCount n' (subObjectIndexInRange + 1)%Z args'
      end
  end.

(** The loop over the layout's sub-object ranges. *)
Fixpoint collectSpecializationArgs_ranges
    (collect : ObjPtr → ExtendedShaderObjectTypeList.t →
               M (Result * ExtendedShaderObjectTypeList.t))
    (this : ObjPtr) (layout : ShaderObjectLayout.t)
    (subObjectRanges : list SubObjectRangeInfo.t)
    (args : ExtendedShaderObjectTypeList.t)
    : M (Result * ExtendedShaderObjectTypeList.t) :=
  match subObjectRanges with
  | [] => ret (SLANG_OK, args)
  | subObjectRange :: rest =>
      let* bindingRange :=
        getBindingRange layout
          (SubObjectRangeInfo.bindingRangeIndex subObjectRange) in
      let oldArgsCount := ExtendedShaderObjectTypeList.getCount args in
      let count := BindingRangeInfo.count bindingRange in
      let* step :=
        collectSpecializationArgs_range collect this bindingRange
          oldArgsCount (Z.to_nat count) 0%Z args in
      match step with
      | Return r => ret r
      | Again args' =>
          collectSpecializationArgs_ranges collect this layout rest args'
      end
  end.

(** [collectSpecializationArgs(args)]; [fuel] bounds the depth of the
    recursion into sub-objects. *)
Fixpoint collectSpecializationArgs (fuel : nat) (this : ObjPtr)
    (args : ExtendedShaderObjectTypeList.t)
    : M (Result * ExtendedShaderObjectTypeList.t) :=
  match fuel with
  | O => out_of_fuel
  | S fuel' =>
      let* obj := get_object this in
      let layout := ShaderObject.m_layout obj in
      if negb (bool_decide (ShaderObjectLayout.getContainerType layout
                            = ShaderObjectContainerType.None)) then
        ret (SLANG_OK,
             ExtendedShaderObjectTypeList.addRange args
               (ShaderObject.m_structuredBufferSpecializationArgs obj))
      else
        collectSpecializationArgs_ranges (collectSpecializationArgs fuel')
          this layout (ShaderObjectLayout.getSubObjectRanges layout) args
  end.

(** *** getObject *)

(** [returnComPtr(outObject, refPtr)] calls [refPtr->addRef()], so a null
    [refPtr] is followed.  The second component is [*outObject]. *)
Definition getObject (this : ObjPtr) (offset : ShaderOffset.t)
    : M (Result * option ObjPtr) :=
  if (ShaderOffset.bindingRangeIndex offset <? 0)%Z
  then ret (SLANG_E_INVALID_ARG, None)
  else
    let* obj := get_object this in
    let layout := ShaderObject.m_layout obj in
    if (ShaderObjectLayout.getBindingRangeCount layout
        <=? ShaderOffset.bindingRangeIndex offset)%Z
    then ret (SLANG_E_INVALID_ARG, None)
    else
      let* bindingRange :=
        getBindingRange layout (ShaderOffset.bindingRangeIndex offset) in
      let* object :=
        vec_get (ShaderObject.m_objects obj)
          (BindingRangeInfo.subObjectIndex bindingRange
           + ShaderOffset.bindingArrayIndex offset)%Z in
      match object with
      | Some p => ret (SLANG_OK, Some p)
      | None => undefined
      end.

(** *** setObject *)

(** The [switch (m_state)] at the head of [setObject]: [SLANG_OK] when
    control goes on to the body. *)
Definition setObject_gate (this object : ObjPtr) : M Result :=
  let* obj := get_object this in
  match ShaderObject.m_state obj with
  | State.Initial => ret SLANG_OK
  | State.Initialized =>
      let* subObject := get_object object in
      if negb (ShaderObject.isFinalized subObject) then ret SLANG_FAIL
      else ret SLANG_OK
  | State.Finalized => ret SLANG_FAIL
  end.

Definition payloadOffsetOf (offset : ShaderOffset.t) : ShaderOffset.t :=
  {| ShaderOffset.uniformOffset := (ShaderOffset.uniformOffset offset + 16)%Z;
     ShaderOffset.bindingRangeIndex := ShaderOffset.bindingRangeIndex offset;
     ShaderOffset.bindingArrayIndex := ShaderOffset.bindingArrayIndex offset |}.

(** Case 1, the body of
    [if (offset.bindingArrayIndex >= m_objects.size())]. *)
Definition setObject_grow (obj : ShaderObject.t) (bindingArrayIndex : Z)
    : ShaderObject.t :=
  let m_objects' :=
    resize (Z.to_nat (bindingArrayIndex + 1)) None (ShaderObject.m_objects obj) in
  let stride :=
    getStride (ShaderObjectLayout.getElementTypeLayout
                 (ShaderObject.m_layout obj)) in
  ShaderObject.set_data
    (SimpleShaderObjectData.setCount (ShaderObject.m_data obj)
       (Z.of_nat (length m_objects') * stride)%Z)
    (ShaderObject.set_objects m_objects' obj).

(** Case 1: [this] is a container and [object] becomes its element.  A
    negative [bindingArrayIndex] compares as a large unsigned number with
    [m_objects.size()], the vector is resized to [bindingArrayIndex + 1]
    taken as a size, and the element store that follows is outside the
    vector: it is [Undefined]. *)
Definition setObject_container (fuel : nat) (this : ObjPtr)
    (offset : ShaderOffset.t) (object : ObjPtr) : M Result :=
  let* obj := get_object this in
  let layout := ShaderObject.m_layout obj in
  let index := ShaderOffset.bindingArrayIndex offset in
  if (index <? 0)%Z then undefined
  else
    let obj :=
      if (Z.of_nat (length (ShaderObject.m_objects obj)) <=? index)%Z
      then setObject_grow obj index else obj in
    let* m_objects' := vec_set (ShaderObject.m_objects obj) index (Some object) in
    let* _ := put_object this (ShaderObject.set_objects m_objects' obj) in
    let elementTypeLayout := ShaderObjectLayout.getElementTypeLayout layout in
    let* (r, payloadOffset, specializationArgs) :=
      match getKind elementTypeLayout with
      | Kind.Interface =>
          let existentialType := getType elementTypeLayout in
          let* (r, concreteType) := getSpecializedShaderObjectType object in
          if SLANG_FAILED r then ret (r, offset, [])
          else
            let* r :=
              setExistentialHeader this existentialType
                (slangType concreteType) offset in
            if SLANG_FAILED r then ret (r, offset, [])
            else ret (SLANG_OK, payloadOffsetOf offset,
                      ExtendedShaderObjectTypeList.add [] concreteType)
      | _ =>
          (* the result of the call is dropped *)
          let* (_, specializationArgs) :=
            collectSpecializationArgs fuel object [] in
          ret (SLANG_OK, offset, specializationArgs)
      end in
    SLANG_RETURN_ON_FAIL r (
      let* subObject := get_object object in
      let* r :=
        setData this payloadOffset
          (SimpleShaderObjectData.getBuffer (ShaderObject.m_data subObject)) in
      SLANG_RETURN_ON_FAIL r (
        let* _ := setSpecializationArgsForContainerElement this specializationArgs in
        ret SLANG_OK)).

(** Cases 2 and 3: [object] goes into a field of [this]. *)
Definition setObject_field (this : ObjPtr) (offset : ShaderOffset.t)
    (object : ObjPtr) : M Result :=
  let* obj := get_object this in
  let layout := ShaderObject.m_layout obj in
  if (ShaderOffset.bindingRangeIndex offset <? 0)%Z
  then ret SLANG_E_INVALID_ARG
  else if (ShaderObjectLayout.getBindingRangeCount layout
           <=? ShaderOffset.bindingRangeIndex offset)%Z
  then ret SLANG_E_INVALID_ARG
  else
    let bindingRangeIndex := ShaderOffset.bindingRangeIndex offset in
    let* bindingRange := getBindingRange layout bindingRangeIndex in
    let* m_objects' :=
      vec_set (ShaderObject.m_objects obj)
        (BindingRangeInfo.subObjectIndex bindingRange
         + ShaderOffset.bindingArrayIndex offset)%Z
        (Some object) in
    let* _ := put_object this (ShaderObject.set_objects m_objects' obj) in
    match BindingRangeInfo.bindingType bindingRange with
    | BindingType.ExistentialValue =>
        let* subObject := get_object object in
        let concreteTypeLayout :=
          ShaderObjectLayout.getElementTypeLayout
            (ShaderObject.m_layout subObject) in
        let concreteType := getType concreteTypeLayout in
        let existentialTypeLayout :=
          getBindingRangeLeafTypeLayout
            (ShaderObjectLayout.getElementTypeLayout layout)
            bindingRangeIndex in
        let existentialType := getType existentialTypeLayout in
        let* r := setExistentialHeader this existentialType concreteType offset in
        SLANG_RETURN_ON_FAIL r (
          let payloadOffset := payloadOffsetOf offset in
          if _doesValueFitInExistentialPayload concreteTypeLayout
               existentialTypeLayout
          then
            let* subObject := get_object object in
            (* the result of setData is dropped *)
            let* _ :=
              setData this payloadOffset
                (SimpleShaderObjectData.getBuffer
                   (ShaderObject.m_data subObject)) in
            ret SLANG_OK
          else ret SLANG_E_NOT_IMPLEMENTED)
    | BindingType.MutableRawBuffer
    | BindingType.RawBuffer =>
        let* subObject := get_object object in
        let* buffer :=
          getBufferResource object
            (ShaderObjectLayout.getElementTypeLayout
               (ShaderObject.m_layout subObject))
            (BindingRangeInfo.bindingType bindingRange) in
        match buffer with
        | Some buffer =>
            let* _ := setBinding this offset buffer in ret SLANG_OK
        | None => ret SLANG_OK
        end
    | _ => ret SLANG_OK
    end.

(** [setObject(offset, object)], [object] not null. *)
Definition setObject (fuel : nat) (this : ObjPtr) (offset : ShaderOffset.t)
    (object : ObjPtr) : M Result :=
  let* gate := setObject_gate this object in
  if SLANG_FAILED gate then ret gate
  else
    let* obj := get_object this in
    if negb (bool_decide
               (ShaderObjectLayout.getContainerType (ShaderObject.m_layout obj)
                = ShaderObjectContainerType.None))
    then setObject_container fuel this offset object
    else setObject_field this offset object.

(** *** setSpecializationArgs *)

(** A negative [objectIndex] compares as a large unsigned number with the
    size of the vector; the resize and the element access that follow are
    [Undefined]. *)
Definition setSpecializationArgs (this : ObjPtr) (offset : ShaderOffset.t)
    (args : list SpecializationArg.t) : M Result :=
  let* obj := get_object this in
  if ShaderObject.isFinalized obj then ret SLANG_FAIL
  else
    let layout := ShaderObject.m_layout obj in
    if negb (bool_decide (ShaderObjectLayout.getContainerType layout
                          = ShaderObjectContainerType.None))
    then
      let* (r, argList) :=
        getExtendedShaderTypeListFromSpecializationArgs [] args in
      SLANG_RETURN_ON_FAIL r (
        let* _ := setSpecializationArgsForContainerElement this argList in
        ret SLANG_OK)
    else if (ShaderOffset.bindingRangeIndex offset <? 0)%Z
    then ret SLANG_E_INVALID_ARG
    else if (ShaderObjectLayout.getBindingRangeCount layout
             <=? ShaderOffset.bindingRangeIndex offset)%Z
    then ret SLANG_E_INVALID_ARG
    else
      let* bindingRange :=
        getBindingRange layout (ShaderOffset.bindingRangeIndex offset) in
      let objectIndex :=
        (BindingRangeInfo.subObjectIndex bindingRange
         + ShaderOffset.bindingArrayIndex offset)%Z in
      if (objectIndex <? 0)%Z then undefined
      else
        let userArgs := ShaderObject.m_userProvidedSpecializationArgs obj in
        let userArgs :=
          if (Z.of_nat (length userArgs) <=? objectIndex)%Z
          then resize (Z.to_nat (objectIndex + 1)) None userArgs
          else userArgs in
        (* the entry is a fresh list or a cleared one: empty either way *)
        let* (r, list_) :=
          getExtendedShaderTypeListFromSpecializationArgs
            (ExtendedShaderObjectTypeList.clear []) args in
        let* _ :=
          modify_object this
            (ShaderObject.set_userProvidedSpecializationArgs
               (<[Z.to_nat objectIndex := Some list_]> userArgs)) in
        SLANG_RETURN_ON_FAIL r (ret SLANG_OK).

(** *** finalize *)

(** [for (const auto& object : m_objects)] of [finalize]; [finalize_] is
    the recursive call. *)
Fixpoint finalize_objects (finalize_ : ObjPtr → M Result)
    (m_objects : list (option ObjPtr)) : M Result :=
  match m_objects with
  | [] => ret SLANG_OK
  | None :: rest => finalize_objects finalize_ rest
  | Some object :: rest =>
      let* o := get_object object in
      if negb (ShaderObject.isFinalized o) then
        let* r := finalize_ object in
        SLANG_RETURN_ON_FAIL r (finalize_objects finalize_ rest)
      else finalize_objects finalize_ rest
  end.

(** [finalize()]; [fuel] bounds the depth of the recursion into
    sub-objects. *)
Fixpoint finalize (fuel : nat) (this : ObjPtr) : M Result :=
  match fuel with
  | O => out_of_fuel
  | S fuel' =>
      let* obj := get_object this in
      (* SLANG_RHI_ASSERT(m_state == State::Initialized) *)
      if bool_decide (ShaderObject.m_state obj = State.Finalized)
      then ret SLANG_FAIL
      else
        let* r := finalize_objects (finalize fuel') (ShaderObject.m_objects obj) in
        SLANG_RETURN_ON_FAIL r (
          let* _ := modify_object this (ShaderObject.set_state State.Finalized) in
          ret SLANG_OK)
  end.

End ShaderObjectBaseImpl.

(** ** A reference instance of the collaborators

    The examples below run the member functions on concrete worlds.  They
    take the collaborators from here: ordinary data is written by copying
    into the byte buffer, as the derived shader objects do. *)
Module Reference.

Definition stdHash : StdHash :=
  {| std_hash_string := λ s, Z.of_nat (String.length s);
     std_hash_pointer := λ p, Z.of_nat p;
     hash_combine := λ seed v, ((seed * 31 + v) mod 2 ^ 64)%Z |}.

(** [memcpy(dest + offset, data, size)] with [size] cut at the end of
    [dest]. *)
Definition write_bytes (offset : nat) (data dest : list uint8_t)
    : list uint8_t :=
  take offset dest ++ take (length dest - offset) data
    ++ drop (offset + length data) dest.

Definition setData (this : ObjPtr) (offset : ShaderOffset.t)
    (data : list uint8_t) : M Result :=
  let* obj := get_object this in
  if ShaderObject.isFinalized obj then ret SLANG_FAIL
  else if (ShaderOffset.uniformOffset offset <? 0)%Z
  then ret SLANG_E_INVALID_ARG
  else
    let d := ShaderObject.m_data obj in
    let* _ :=
      put_object this
        (ShaderObject.set_data
           {| SimpleShaderObjectData.m_ordinaryData :=
                write_bytes (Z.to_nat (ShaderOffset.uniformOffset offset))
                  data (SimpleShaderObjectData.m_ordinaryData d);
              SimpleShaderObjectData.m_structuredBuffer :=
                SimpleShaderObjectData.m_structuredBuffer d |}
           obj) in
    ret SLANG_OK.

(** Sixteen bytes: the RTTI id and the witness-table id. *)
Definition existentialHeader : list uint8_t :=
  repeat Byte.x00 8 ++ [Byte.x01] ++ repeat Byte.x00 7.

Definition setExistentialHeader (this : ObjPtr)
    (existentialType concreteType : option TypeReflection)
    (offset : ShaderOffset.t) : M Result :=
  match concreteType with
  | Some _ => setData this offset existentialHeader
  | None => ret SLANG_FAIL
  end.

Definition getSpecializedShaderObjectType (this : ObjPtr)
    : M (Result * ExtendedShaderObjectType) :=
  let* obj := get_object this in
  let layout := ShaderObject.m_layout obj in
  ret (SLANG_OK,
       {| slangType := getType (ShaderObjectLayout.getElementTypeLayout layout);
          componentID := ShaderObjectLayout.getComponentID layout |}).

Definition getBufferResource (this : ObjPtr) (elementLayout : TypeLayoutPtr)
    (bindingType : BindingType.t) : M (option BufferPtr) :=
  let* obj := get_object this in
  ret (SimpleShaderObjectData.m_structuredBuffer (ShaderObject.m_data obj)).

Definition setBinding (this : ObjPtr) (offset : ShaderOffset.t)
    (buffer : BufferPtr) : M Result := ret SLANG_OK.

Definition doesValueFit (concreteTypeLayout existentialFieldLayout : TypeLayoutPtr)
    : bool :=
  (getStride concreteTypeLayout + 16 <=? getStride existentialFieldLayout)%Z.

Definition collaborators : Collaborators :=
  Build_Collaborators setData setBinding setExistentialHeader
    getSpecializedShaderObjectType getBufferResource doesValueFit.

End Reference.

(** ** The shader table *)

(** [ShaderTable]: [m_deviceBuffers] is a [std::map] from
    [RayTracingPipeline*] to [RefPtr<Buffer>].  The shader-group names and
    the four counts are set by [init], which is declared only, and take no
    part in [getOrCreateBuffer]. *)
Module ShaderTable.
Record t : Type := mk {
  m_shaderGroupNames : list string;
  m_rayGenShaderCount : Z;
  m_missShaderCount : Z;
  m_hitGroupCount : Z;
  m_callableShaderCount : Z;
  m_deviceBuffers : gmap PipelinePtr (option BufferPtr)
}.

Definition set_deviceBuffers (m : gmap PipelinePtr (option BufferPtr))
    (table : t) : t :=
  mk (m_shaderGroupNames table) (m_rayGenShaderCount table)
     (m_missShaderCount table) (m_hitGroupCount table)
     (m_callableShaderCount table) m.
End ShaderTable.

(** [createDeviceBuffer] is pure virtual: the backend's shader table
    supplies it.  It is a member function, so it is given the table and
    may change it. *)
Class ShaderTableImpl : Type := {
  createDeviceBuffer :
    PipelinePtr → ShaderTable.t → option BufferPtr * ShaderTable.t
}.

(** [getOrCreateBuffer]; [emplace] does nothing when the key is there. *)
Definition getOrCreateBuffer `{ShaderTableImpl} (pipeline : PipelinePtr)
    (table : ShaderTable.t) : option BufferPtr * ShaderTable.t :=
  match ShaderTable.m_deviceBuffers table !! pipeline with
  | Some second => (second, table)
  | None =>
      let '(result, table) := createDeviceBuffer pipeline table in
      let m_deviceBuffers := ShaderTable.m_deviceBuffers table in
      (result,
       match m_deviceBuffers !! pipeline with
       | Some _ => table
       | None =>
           ShaderTable.set_deviceBuffers
             (<[pipeline := result]> m_deviceBuffers) table
       end)
  end.

(** ** The WebGPU API, as the device calls it *)

(** A [WGPUDevice], [WGPUBuffer], [WGPUCommandEncoder],
    [WGPUCommandBuffer] or [WGPUQueue], and the address of a mapped range:
    an opaque pointer, [None] for [nullptr]. *)
Abbreviation WGPUHandle := (option nat) (only parsing).

(** [!p] *)
Definition isNull (p : WGPUHandle) : bool :=
  match p with
  | Some _ => false
  | None => true
  end.

(** The flags of [WGPUBufferUsage] and [WGPUMapMode] that the sources
    name, with their values in [webgpu.h]. *)
Definition WGPUBufferUsage_MapRead : Z := 0x1.
Definition WGPUBufferUsage_MapWrite : Z := 0x2.
Definition WGPUBufferUsage_CopySrc : Z := 0x4.
Definition WGPUBufferUsage_CopyDst : Z := 0x8.
Definition WGPUMapMode_Read : Z := 0x1.
Definition WGPUMapMode_Write : Z := 0x2.

(** The status a callback is given.  The sources tell [Success] and
    [Unknown] from the other enumerators, which are one case here. *)
Inductive WGPUQueueWorkDoneStatus : Type :=
  | WGPUQueueWorkDoneStatus_Success
  | WGPUQueueWorkDoneStatus_Unknown
  | WGPUQueueWorkDoneStatus_other.

Inductive WGPUBufferMapAsyncStatus : Type :=
  | WGPUBufferMapAsyncStatus_Success
  | WGPUBufferMapAsyncStatus_Unknown
  | WGPUBufferMapAsyncStatus_other.

(** A [WGPUBufferDescriptor] that was zero-initialised and then given the
    members below. *)
Module WGPUBufferDescriptor.
Record t : Type := mk {
  label : option string;
  usage : Z;
  size : Z
}.
End WGPUBufferDescriptor.

(** The calls the sources make through [m_ctx.api], with their arguments;
    a descriptor argument that is [nullptr] and a callback are left out.
    The two uses of [::memcpy] on a mapped range stand with them. *)
Inductive Call : Type :=
  | wgpuDeviceCreateBuffer (device : WGPUHandle)
      (descriptor : WGPUBufferDescriptor.t)
  | wgpuBufferRelease (buffer : WGPUHandle)
  | wgpuDeviceCreateCommandEncoder (device : WGPUHandle)
  | wgpuCommandEncoderRelease (commandEncoder : WGPUHandle)
  | wgpuCommandEncoderCopyBufferToBuffer (commandEncoder : WGPUHandle)
      (source : WGPUHandle) (sourceOffset : Z)
      (destination : WGPUHandle) (destinationOffset : Z) (size : Z)
  | wgpuCommandEncoderFinish (commandEncoder : WGPUHandle)
  | wgpuCommandBufferRelease (commandBuffer : WGPUHandle)
  | wgpuDeviceGetQueue (device : WGPUHandle)
  | wgpuQueueSubmit (queue : WGPUHandle) (commands : list WGPUHandle)
  | wgpuQueueOnSubmittedWorkDone (queue : WGPUHandle)
  | wgpuDeviceTick (device : WGPUHandle)
  | wgpuBufferMapAsync (buffer : WGPUHandle) (mode : Z) (offset size : Z)
  | wgpuBufferGetMappedRange (buffer : WGPUHandle) (offset size : Z)
  | wgpuBufferGetConstMappedRange (buffer : WGPUHandle) (offset size : Z)
  | wgpuBufferUnmap (buffer : WGPUHandle)
  | memcpy_to_mapped (destination : WGPUHandle) (source : list uint8_t)
      (count : Z)
  | memcpy_from_mapped (source : WGPUHandle) (count : Z).

(** What a call gives back: the pointer it returns; the bytes read, for a
    read of mapped memory; and, when a callback registered by the caller
    ran before the call returned, the status it was given.  A call reads
    the members that concern it. *)
Record Reply : Type := mkReply {
  pointer : WGPUHandle;
  bytes : list uint8_t;
  workDoneStatus : option WGPUQueueWorkDoneStatus;
  mapAsyncStatus : option WGPUBufferMapAsyncStatus
}.

Definition Event : Type := Call * Reply.

(** The API is outside the sources: it answers a call as it will, given
    the calls made so far. *)
Definition API : Type := list Event → Call → Reply.

(** A function of the device either returns, having made its calls, or is
    still in one of its wait loops when the budget of iterations is
    spent. *)
Inductive run (A : Type) : Type :=
  | Returned (a : A) (history : list Event)
  | Waiting.
Arguments Returned {A} a history.
Arguments Waiting {A}.

Definition IO (A : Type) : Type := API → list Event → run A.

#[global] Instance IO_ret : MRet IO := λ A a _ history, Returned a history.

#[global] Instance IO_bind : MBind IO := λ A B k m api history,
  match m api history with
  | Returned a history' => k a api history'
  | Waiting => Waiting
  end.

Definition call (c : Call) : IO Reply := λ api history,
  let reply := api history c in Returned reply (history ++ [(c, reply)]).

Definition waiting {A} : IO A := λ _ _, Waiting.

(** [SLANG_RHI_DEFERRED({ c; })] with the rest [k] of its block: [c] is
    called when the block is left, on every path, after the value
    returned has been computed. *)
Definition SLANG_RHI_DEFERRED {A} (c : Call) (k : IO A) : IO A :=
  a ← k; _ ← call c; mret a.

(** [while (status == ..._Unknown) wgpuDeviceTick(device);] where the
    callback stores in [status] the status it is given. *)
Fixpoint tickWhileUnknown {S : Type} (isUnknown : S → bool)
    (delivered : Reply → option S) (fuel : nat) (device : WGPUHandle)
    (status : S) : IO S :=
  if isUnknown status then
    match fuel with
    | O => waiting
    | S fuel' =>
        reply ← call (wgpuDeviceTick device);
        tickWhileUnknown isUnknown delivered fuel' device
          (default status (delivered reply))
    end
  else mret status.

Definition workDoneUnknown (status : WGPUQueueWorkDoneStatus) : bool :=
  match status with WGPUQueueWorkDoneStatus_Unknown => true | _ => false end.

Definition workDoneSuccess (status : WGPUQueueWorkDoneStatus) : bool :=
  match status with WGPUQueueWorkDoneStatus_Success => true | _ => false end.

Definition mapAsyncUnknown (status : WGPUBufferMapAsyncStatus) : bool :=
  match status with WGPUBufferMapAsyncStatus_Unknown => true | _ => false end.

Definition mapAsyncSuccess (status : WGPUBufferMapAsyncStatus) : bool :=
  match status with WGPUBufferMapAsyncStatus_Success => true | _ => false end.

(** The block
    [{ status = Unknown; wgpuQueueOnSubmittedWorkDone(queue, callback,
    &status); while (status == Unknown) wgpuDeviceTick(device); }]
    up to its [if]: the status the loop ends with. *)
Definition awaitSubmittedWorkDone (fuel : nat) (device queue : WGPUHandle)
    : IO WGPUQueueWorkDoneStatus :=
  reply ← call (wgpuQueueOnSubmittedWorkDone queue);
  tickWhileUnknown workDoneUnknown workDoneStatus fuel device
    (default WGPUQueueWorkDoneStatus_Unknown (workDoneStatus reply)).

(** The same for [wgpuBufferMapAsync]. *)
Definition awaitBufferMapAsync (fuel : nat) (device buffer : WGPUHandle)
    (mode : Z) (offset size : Z) : IO WGPUBufferMapAsyncStatus :=
  reply ← call (wgpuBufferMapAsync buffer mode offset size);
  tickWhileUnknown mapAsyncUnknown mapAsyncStatus fuel device
    (default WGPUBufferMapAsyncStatus_Unknown (mapAsyncStatus reply)).

(** ** Buffers of the WebGPU device *)

Inductive MemoryType : Type := DeviceLocal | Upload | ReadBack.

Module BufferDesc.
Record t : Type := mk {
  size : Z;
  usage : Z;
  memoryType : MemoryType;
  label : option string
}.
End BufferDesc.

Module MemoryRange.
Record t : Type := mk { offset : Z; size : Z }.
End MemoryRange.

Module BufferImpl.
Record t : Type := mk {
  m_desc : BufferDesc.t;
  m_buffer : WGPUHandle;
  m_isMapped : bool;
  m_mapMode : Z
}.

Definition set_buffer (b : WGPUHandle) (this : t) : t :=
  mk (m_desc this) b (m_isMapped this) (m_mapMode this).
Definition set_isMapped (b : bool) (this : t) : t :=
  mk (m_desc this) (m_buffer this) b (m_mapMode this).
Definition set_mapMode (mode : Z) (this : t) : t :=
  mk (m_desc this) (m_buffer this) (m_isMapped this) mode.

(** The callback of [map]. *)
Definition callback (status : WGPUBufferMapAsyncStatus) (buffer : t) : t :=
  if mapAsyncSuccess status then set_isMapped true buffer
  else set_isMapped false buffer.

(** [map(rangeToRead, outPointer)]: the result, what [*outPointer] was set
    to if it was set, and the buffer afterwards.  Nothing waits for the
    callback: it counts when it has run by the time [wgpuBufferMapAsync]
    returns, and the reply to that call is the one place where it is
    looked for.  A callback that the API runs at another time, for this
    request or for an earlier one that is still open, during
    [wgpuBufferGetMappedRange] or a call made elsewhere, writes
    [m_isMapped] as well: that is outside this definition, which is [map]
    on a buffer for which no such callback is due. *)
Definition map (this : t) (rangeToRead : option MemoryRange.t)
    : IO (Result * option WGPUHandle * t) :=
  if m_isMapped this then mret (SLANG_FAIL, None, this)
  else
    let offset :=
      match rangeToRead with
      | Some range => MemoryRange.offset range
      | None => 0%Z
      end in
    let size :=
      match rangeToRead with
      | Some range => MemoryRange.size range
      | None => BufferDesc.size (m_desc this)
      end in
    reply ← call (wgpuBufferMapAsync (m_buffer this) (m_mapMode this)
                    offset size);
    let this :=
      match mapAsyncStatus reply with
      | Some status => callback status this
      | None => this
      end in
    if negb (m_isMapped this) then mret (SLANG_FAIL, None, this)
    else
      reply ← call (wgpuBufferGetMappedRange (m_buffer this) offset size);
      mret (SLANG_OK, Some (pointer reply), this).

Definition unmap (this : t) (writtenRange : option MemoryRange.t)
    : IO (Result * t) :=
  if negb (m_isMapped this) then mret (SLANG_FAIL, this)
  else
    _ ← call (wgpuBufferUnmap (m_buffer this));
    mret (SLANG_OK, set_isMapped false this).

(** [~BufferImpl()] *)
Definition destroy (this : t) : IO () :=
  match m_buffer this with
  | Some _ => _ ← call (wgpuBufferRelease (m_buffer this)); mret ()
  | None => mret ()
  end.
End BufferImpl.

(** What the sources leave to [wgpu-buffer.h] and [wgpu-util.h], which are
    not among them: the values the members of a [BufferImpl] other than
    [m_desc] have when the constructor returns, and
    [translateBufferUsage]. *)
Class BufferHeaders : Type := {
  m_buffer_initially : WGPUHandle;
  m_isMapped_initially : bool;
  m_mapMode_initially : Z;
  translateBufferUsage : Z → Z
}.

(** [new BufferImpl(device, desc)] *)
Definition BufferImpl_new `{BufferHeaders} (desc : BufferDesc.t)
    : BufferImpl.t :=
  {| BufferImpl.m_desc := desc;
     BufferImpl.m_buffer := m_buffer_initially;
     BufferImpl.m_isMapped := m_isMapped_initially;
     BufferImpl.m_mapMode := m_mapMode_initially |}.

Module Context.
(** [struct Context] *)
Record t : Type := mk {
  instance : WGPUHandle;
  adapter : WGPUHandle;
  device : WGPUHandle
}.
End Context.

Module DeviceImpl.
Record t : Type := mk { m_ctx : Context.t }.

(** [readBuffer(buffer, offset, size, outBlob)]: the result and what
    [*outBlob] was set to, if it was set. *)
Definition readBuffer (fuel : nat) (this : t) (bufferImpl : BufferImpl.t)
    (offset size : Z) : IO (Result * option (list uint8_t)) :=
  let device := Context.device (m_ctx this) in
  let stagingBufferDesc :=
    {| WGPUBufferDescriptor.label := None;
       WGPUBufferDescriptor.usage :=
         Z.lor WGPUBufferUsage_CopyDst WGPUBufferUsage_MapRead;
       WGPUBufferDescriptor.size := size |} in
  reply ← call (wgpuDeviceCreateBuffer device stagingBufferDesc);
  let stagingBuffer := pointer reply in
  if isNull stagingBuffer then mret (SLANG_FAIL, None)
  else
  SLANG_RHI_DEFERRED (wgpuBufferRelease stagingBuffer) (
    reply ← call (wgpuDeviceCreateCommandEncoder device);
    let encoder := pointer reply in
    if isNull encoder then mret (SLANG_FAIL, None)
    else
    SLANG_RHI_DEFERRED (wgpuCommandEncoderRelease encoder) (
      _ ← call (wgpuCommandEncoderCopyBufferToBuffer encoder
                  (BufferImpl.m_buffer bufferImpl) offset stagingBuffer 0 size);
      reply ← call (wgpuCommandEncoderFinish encoder);
      let commandBuffer := pointer reply in
      if isNull commandBuffer
      then mret (SLANG_FAIL, None)
      else
      SLANG_RHI_DEFERRED (wgpuCommandBufferRelease commandBuffer) (
        reply ← call (wgpuDeviceGetQueue device);
        let queue := pointer reply in
        _ ← call (wgpuQueueSubmit queue [commandBuffer]);
        status ← awaitSubmittedWorkDone fuel device queue;
        if negb (workDoneSuccess status) then mret (SLANG_FAIL, None)
        else
          status ← awaitBufferMapAsync fuel device stagingBuffer
                     WGPUMapMode_Read 0 size;
          if negb (mapAsyncSuccess status) then mret (SLANG_FAIL, None)
          else
          SLANG_RHI_DEFERRED (wgpuBufferUnmap stagingBuffer) (
            reply ← call (wgpuBufferGetConstMappedRange stagingBuffer 0 size);
            let data := pointer reply in
            if isNull data then mret (SLANG_FAIL, None)
            else
              (* auto blob = OwnedBlob::create(size); ::memcpy(...) *)
              reply ← call (memcpy_from_mapped data size);
              let blob := bytes reply in
              mret (SLANG_OK, Some blob))))).

(** The usage [createBuffer] asks for. *)
Definition createBuffer_usage `{BufferHeaders} (desc : BufferDesc.t)
    (initData : option (list uint8_t)) : Z :=
  let usage := translateBufferUsage (BufferDesc.usage desc) in
  let usage :=
    match BufferDesc.memoryType desc with
    | Upload => Z.lor WGPUBufferUsage_MapWrite WGPUBufferUsage_CopySrc
    | ReadBack => Z.lor WGPUBufferUsage_MapRead WGPUBufferUsage_CopyDst
    | _ => usage
    end in
  match initData with
  | Some _ => Z.lor usage WGPUBufferUsage_CopyDst
  | None => usage
  end.

(** The block of [createBuffer] under [if (initData)]: [Some r] when it
    ends in [return r], [None] when control leaves it at its end. *)
Definition createBuffer_upload (fuel : nat) (device : WGPUHandle)
    (desc : BufferDesc.t) (initData : list uint8_t) (buffer : BufferImpl.t)
    : IO (option Result) :=
  let stagingBufferDesc :=
    {| WGPUBufferDescriptor.label := None;
       WGPUBufferDescriptor.usage :=
         Z.lor WGPUBufferUsage_CopySrc WGPUBufferUsage_MapWrite;
       WGPUBufferDescriptor.size := BufferDesc.size desc |} in
  reply ← call (wgpuDeviceCreateBuffer device stagingBufferDesc);
  let stagingBuffer := pointer reply in
  if isNull stagingBuffer then mret (Some SLANG_FAIL)
  else
  SLANG_RHI_DEFERRED (wgpuBufferRelease stagingBuffer) (
    status ← awaitBufferMapAsync fuel device stagingBuffer WGPUMapMode_Write
               0 (BufferDesc.size desc);
    if negb (mapAsyncSuccess status) then mret (Some SLANG_FAIL)
    else
      reply ← call (wgpuBufferGetMappedRange stagingBuffer 0
                      (BufferDesc.size desc));
      let data := pointer reply in
      if isNull data then
        _ ← call (wgpuBufferUnmap stagingBuffer);
        mret (Some SLANG_FAIL)
      else
        _ ← call (memcpy_to_mapped data initData (BufferDesc.size desc));
        _ ← call (wgpuBufferUnmap stagingBuffer);
        reply ← call (wgpuDeviceCreateCommandEncoder device);
        let encoder := pointer reply in
        if isNull encoder then mret (Some SLANG_FAIL)
        else
        SLANG_RHI_DEFERRED (wgpuCommandEncoderRelease encoder) (
          _ ← call (wgpuCommandEncoderCopyBufferToBuffer encoder
                      stagingBuffer 0 (BufferImpl.m_buffer buffer) 0
                      (BufferDesc.size desc));
          reply ← call (wgpuCommandEncoderFinish encoder);
          let commandBuffer := pointer reply in
          if isNull commandBuffer
          then mret (Some SLANG_FAIL)
          else
          SLANG_RHI_DEFERRED (wgpuCommandBufferRelease commandBuffer) (
            reply ← call (wgpuDeviceGetQueue device);
            let queue := pointer reply in
            _ ← call (wgpuQueueSubmit queue [commandBuffer]);
            status ← awaitSubmittedWorkDone fuel device queue;
            if negb (workDoneSuccess status) then mret (Some SLANG_FAIL)
            else mret None))).

(** [createBuffer(desc, initData, outBuffer)]: the result and the buffer
    [*outBuffer] was set to, if it was set.  [buffer] is a [RefPtr] local
    to the function: on a path that has not handed the object out through
    [returnComPtr], leaving the function destroys it. *)
Definition createBuffer `{BufferHeaders} (fuel : nat) (this : t)
    (desc : BufferDesc.t) (initData : option (list uint8_t))
    : IO (Result * option BufferImpl.t) :=
  let device := Context.device (m_ctx this) in
  let buffer := BufferImpl_new desc in
  let buffer :=
    match BufferDesc.memoryType desc with
    | Upload => BufferImpl.set_mapMode WGPUMapMode_Write buffer
    | ReadBack => BufferImpl.set_mapMode WGPUMapMode_Read buffer
    | _ => buffer
    end in
  let bufferDesc :=
    {| WGPUBufferDescriptor.label := BufferDesc.label desc;
       WGPUBufferDescriptor.usage := createBuffer_usage desc initData;
       WGPUBufferDescriptor.size := BufferDesc.size desc |} in
  reply ← call (wgpuDeviceCreateBuffer device bufferDesc);
  let buffer := BufferImpl.set_buffer (pointer reply) buffer in
  if isNull (BufferImpl.m_buffer buffer) then
    _ ← BufferImpl.destroy buffer; mret (SLANG_FAIL, None)
  else
    returned ←
      match initData with
      | Some initData => createBuffer_upload fuel device desc initData buffer
      | None => mret None
      end;
    match returned with
    | Some r => _ ← BufferImpl.destroy buffer; mret (r, None)
    | None => mret (SLANG_OK, Some buffer)
    end.

End DeviceImpl.

(** * The vocabulary of the statements *)

(** ** Worlds *)

(** The world in which the object at [p] has become [o]. *)
Definition withObject (p : nat) (o : ShaderObject.t) (w : World) : World :=
  {| objects := <[p := o]> (objects w); device := device w |}.

Definition stateOf (w : World) (p : nat) : option State.t :=
  ShaderObject.m_state <$> objects w !! p.

Definition isFinalizedIn (w : World) (p : nat) : Prop :=
  stateOf w p = Some State.Finalized.

(** [q] is a sub-object bound in [o]. *)
Definition boundIn (o : ShaderObject.t) (q : nat) : Prop :=
  Some q ∈ ShaderObject.m_objects o.

(** [r] is [p], or a sub-object bound in [p], or in one of those, and so on. *)
Inductive reachable (w : World) : nat → nat → Prop :=
  | reachable_refl p : reachable w p p
  | reachable_step p o q r :
      objects w !! p = Some o → boundIn o q → reachable w q r →
      reachable w p r.

(** ** Offsets and binding ranges *)

(** [this] is not a container. *)
Definition notContainer (obj : ShaderObject.t) : Prop :=
  ShaderObjectLayout.getContainerType (ShaderObject.m_layout obj)
  = ShaderObjectContainerType.None.

(** The binding range an offset names, when its [bindingRangeIndex] passes
    the two range checks. *)
Definition bindingRangeAt (obj : ShaderObject.t) (offset : ShaderOffset.t)
    : option BindingRangeInfo.t :=
  if (ShaderOffset.bindingRangeIndex offset <? 0)%Z then None
  else ShaderObjectLayout.m_bindingRanges (ShaderObject.m_layout obj)
         !! Z.to_nat (ShaderOffset.bindingRangeIndex offset).

(** The position in [m_objects] that [getObject] and [setObject] use. *)
Definition subObjectIndexOf (bindingRange : BindingRangeInfo.t)
    (offset : ShaderOffset.t) : Z :=
  (BindingRangeInfo.subObjectIndex bindingRange
   + ShaderOffset.bindingArrayIndex offset)%Z.

(** The binding types [setObject] does nothing more for than record the
    sub-object. *)
Definition recordsOnly (bindingType : BindingType.t) : bool :=
  match bindingType with
  | BindingType.ExistentialValue
  | BindingType.MutableRawBuffer
  | BindingType.RawBuffer => false
  | _ => true
  end.

(** ** Reflection layouts *)

(** The number of layouts on the element chain of a pointer. *)
Definition ptr_depth (p : option TypeLayoutReflection) : nat :=
  match p with
  | None => 0
  | Some tl => S (tl_depth tl)
  end.

(** ** Finalization *)

(** The invariant of the data model: the sub-objects bound in a finalized
    object are finalized. *)
Definition finalizedClosed (w : World) : Prop :=
  ∀ p o, objects w !! p = Some o →
         ShaderObject.m_state o = State.Finalized →
         ∀ q, boundIn o q → isFinalizedIn w q.

(** What [finalize] may do to one object: nothing, or set its state. *)
Definition finalizeStep (o o' : ShaderObject.t) : Prop :=
  o' = o ∨ o' = ShaderObject.set_state State.Finalized o.

Definition finalizeFrame (w w' : World) : Prop :=
  device w' = device w
  ∧ ∀ p, option_Forall2 finalizeStep (objects w !! p) (objects w' !! p).

(** Every object that is finalized afterwards was so before, or has all its
    sub-objects finalized. *)
Definition finalizePost (w w' : World) : Prop :=
  finalizeFrame w w'
  ∧ ∀ p o', objects w' !! p = Some o' →
            ShaderObject.m_state o' = State.Finalized →
            isFinalizedIn w p ∨ ∀ q, boundIn o' q → isFinalizedIn w' q.

(** The specification a recursive call has to meet. *)
Definition finalizeSpec (finalize_ : nat → M Result) : Prop :=
  ∀ p w r w',
    finalize_ p w = Done r w' →
    finalizePost w w'
    ∧ (r = SLANG_OK → isFinalizedIn w' p ∧ ¬ isFinalizedIn w p).

(** The sub-objects bound in the objects of [w] exist, and binding goes
    down along [rank]: no object is bound, through any number of bindings,
    in itself. *)
Definition rankedWorld (rank : nat → nat) (w : World) : Prop :=
  ∀ p o q, objects w !! p = Some o → boundIn o q →
           is_Some (objects w !! q) ∧ (rank q < rank p)%nat.

(** ** The dynamic sentinel and the merge of element signatures *)

(** One position of the merge: the stored entry stays when the incoming id
    is the same, and gives way to the dynamic entry when it differs. *)
Definition mergedEntry (dyn mine theirs : ExtendedShaderObjectType)
    : ExtendedShaderObjectType :=
  if (componentID mine =? componentID theirs)%Z then mine else dyn.

(** Every element of [rest] has, at position [i], the component id [id]. *)
Definition allAgreeAt (i : nat) (id : Z)
    (rest : list (list ExtendedShaderObjectType)) : bool :=
  forallb (λ e, match e !! i with
                | Some y => (componentID y =? id)%Z
                | None => false
                end) rest.

Section vocabulary.
Context `{StdHash}.

(** The component id of the sentinel dynamic type, as the device gives it
    in world [w]. *)
Definition dynamicComponentId (w : World) : Z :=
  (ShaderCache.getComponentId (shaderCache (device w))
     (dynamicType (device w))).1.

(** The world once the dynamic type has been asked for. *)
Definition internDynamic (w : World) : World :=
  {| objects := objects w;
     device :=
       {| shaderCache :=
            (ShaderCache.getComponentId (shaderCache (device w))
               (dynamicType (device w))).2;
          dynamicType := dynamicType (device w) |} |}.

(** What the merge writes over a differing position in world [w]. *)
Definition dynamicEntryOf (w : World) : ExtendedShaderObjectType :=
  dynamicEntry (dynamicType (device w)) (dynamicComponentId w).

(** The worlds the merge can leave: the objects are as before and the
    device has at most interned the dynamic type. *)
Definition sameUpToDynamic (w w' : World) : Prop :=
  w' = w ∨ w' = internDynamic w.

(** The calls that a sequence of elements makes, one after the other. *)
Fixpoint setSpecializationArgsForContainerElements (this : nat)
    (elements : list (list ExtendedShaderObjectType)) : M () :=
  match elements with
  | [] => ret ()
  | specializationArgs :: rest =>
      let* _ := setSpecializationArgsForContainerElement this specializationArgs in
      setSpecializationArgsForContainerElements this rest
  end.

End vocabulary.

(** ** Specialization arguments *)

(** The argument is a type, the one kind
    [getExtendedShaderTypeListFromSpecializationArgs] accepts. *)
Definition isTypeArg (arg : SpecializationArg.t) : bool :=
  match SpecializationArg.kind arg with
  | SpecializationArg.Type_ => true
  | _ => false
  end.

(** The types of the arguments up to the first one that is not a type. *)
Fixpoint leadingTypes (args : list SpecializationArg.t) : list string :=
  match args with
  | [] => []
  | arg :: args' =>
      if isTypeArg arg then SpecializationArg.type arg :: leadingTypes args'
      else []
  end.

(** The binding range of a sub-object range, when its index is inside
    [m_bindingRanges]. *)
Definition bindingRangeOf (obj : ShaderObject.t)
    (subObjectRange : SubObjectRangeInfo.t) : option BindingRangeInfo.t :=
  let index := SubObjectRangeInfo.bindingRangeIndex subObjectRange in
  if (index <? 0)%Z then None
  else ShaderObjectLayout.m_bindingRanges (ShaderObject.m_layout obj)
         !! Z.to_nat index.

(** [m_objects[bindingRange.subObjectIndex + subObjectIndexInRange]], when
    the index is inside [m_objects]: a sub-object, or null. *)
Definition subObjectAt (obj : ShaderObject.t)
    (bindingRange : BindingRangeInfo.t) (subObjectIndexInRange : nat)
    : option (option nat) :=
  let objectIndex :=
    (BindingRangeInfo.subObjectIndex bindingRange
     + Z.of_nat subObjectIndexInRange)%Z in
  if (objectIndex <? 0)%Z then None
  else ShaderObject.m_objects obj !! Z.to_nat objectIndex.

(** The list the user has supplied for that index, when there is one. *)
Definition userArgsAt (obj : ShaderObject.t)
    (bindingRange : BindingRangeInfo.t) (subObjectIndexInRange : nat)
    : option (list ExtendedShaderObjectType) :=
  userProvidedSpecializationArgs obj
    (BindingRangeInfo.subObjectIndex bindingRange
     + Z.of_nat subObjectIndexInRange)%Z.

(** The index is inside [m_objects] and holds null, or a sub-object for
    which there is a user's list. *)
Definition userArgsOrNothingAt (obj : ShaderObject.t)
    (bindingRange : BindingRangeInfo.t) (subObjectIndexInRange : nat) : bool :=
  match subObjectAt obj bindingRange subObjectIndexInRange with
  | Some (Some _) =>
      match userArgsAt obj bindingRange subObjectIndexInRange with
      | Some _ => true
      | None => false
      end
  | Some None => true
  | None => false
  end.

(** Every sub-object bound in a sub-object range of [obj] has a list
    supplied by the user: each sub-object range has its binding range, and
    each index of that range is as above. *)
Definition everyBoundSubObjectHasUserArgs (obj : ShaderObject.t) : bool :=
  forallb
    (λ subObjectRange,
       match bindingRangeOf obj subObjectRange with
       | Some bindingRange =>
           forallb (userArgsOrNothingAt obj bindingRange)
             (seq 0 (Z.to_nat (BindingRangeInfo.count bindingRange)))
       | None => false
       end)
    (ShaderObjectLayout.getSubObjectRanges (ShaderObject.m_layout obj)).

(** The user's lists of the bound sub-objects of [obj], one after the
    other, in the order of the sub-object ranges and, in a range, of the
    indices.  An index that holds null gives nothing, with or without a
    user's list. *)
Definition userArgsOfSubObject (obj : ShaderObject.t)
    (bindingRange : BindingRangeInfo.t) (subObjectIndexInRange : nat)
    : list ExtendedShaderObjectType :=
  match subObjectAt obj bindingRange subObjectIndexInRange with
  | Some (Some _) =>
      default [] (userArgsAt obj bindingRange subObjectIndexInRange)
  | _ => []
  end.

Definition userArgsOfRange (obj : ShaderObject.t)
    (subObjectRange : SubObjectRangeInfo.t)
    : list ExtendedShaderObjectType :=
  match bindingRangeOf obj subObjectRange with
  | Some bindingRange =>
      seq 0 (Z.to_nat (BindingRangeInfo.count bindingRange))
        ≫= userArgsOfSubObject obj bindingRange
  | None => []
  end.

Definition userArgsOfBoundSubObjects (obj : ShaderObject.t)
    : list ExtendedShaderObjectType :=
  ShaderObjectLayout.getSubObjectRanges (ShaderObject.m_layout obj)
    ≫= userArgsOfRange obj.

(** Two objects with the same layout, sub-objects and user's lists: what
    [collectSpecializationArgs] reads of its receiver.  Their other
    members may differ. *)
Definition sameBindings (obj obj' : ShaderObject.t) : Prop :=
  ShaderObject.m_layout obj' = ShaderObject.m_layout obj
  ∧ ShaderObject.m_objects obj' = ShaderObject.m_objects obj
  ∧ ShaderObject.m_userProvidedSpecializationArgs obj'
    = ShaderObject.m_userProvidedSpecializationArgs obj.

(** The object at [this] in [w] has the layout, the sub-objects and the
    user's lists of [obj]. *)
Definition hasBindingsOf (w : World) (this : nat) (obj : ShaderObject.t)
    : Prop :=
  ∃ obj', objects w !! this = Some obj' ∧ sameBindings obj obj'.

(** ** The resources of the WebGPU API *)

(** What a caller of the API holds and has to give back: a buffer, a
    command encoder or a command buffer it was handed, until it releases
    it; a reference to the queue, which [wgpuDeviceGetQueue] hands out
    and [wgpuQueueRelease] takes back, a call that the sources never
    make; and the mapping of a buffer, from the callback that reports the
    success of [wgpuBufferMapAsync] until [wgpuBufferUnmap]. *)
Inductive Resource : Type :=
  | Buffer (handle : nat)
  | CommandEncoder (handle : nat)
  | CommandBuffer (handle : nat)
  | Queue (handle : nat)
  | Mapping (buffer : nat).

#[global] Instance Resource_eq_dec : EqDecision Resource.
Proof. solve_decision. Defined.

Definition resource (kind : nat → Resource) (handle : option nat)
    : list Resource :=
  match handle with
  | Some p => [kind p]
  | None => []
  end.

(** The resources a call hands to the caller, takes back, and needs. *)
Definition acquires (e : Event) : list Resource :=
  match e.1 with
  | wgpuDeviceCreateBuffer _ _ => resource Buffer (pointer e.2)
  | wgpuDeviceCreateCommandEncoder _ => resource CommandEncoder (pointer e.2)
  | wgpuCommandEncoderFinish _ => resource CommandBuffer (pointer e.2)
  | wgpuDeviceGetQueue _ => resource Queue (pointer e.2)
  | _ => []
  end.

Definition releases (c : Call) : list Resource :=
  match c with
  | wgpuBufferRelease buffer => resource Buffer buffer
  | wgpuCommandEncoderRelease commandEncoder =>
      resource CommandEncoder commandEncoder
  | wgpuCommandBufferRelease commandBuffer =>
      resource CommandBuffer commandBuffer
  | wgpuBufferUnmap buffer => resource Mapping buffer
  | _ => []
  end.

Definition uses (c : Call) : list Resource :=
  match c with
  | wgpuCommandEncoderCopyBufferToBuffer commandEncoder source _
      destination _ _ =>
      resource CommandEncoder commandEncoder ++ resource Buffer source
        ++ resource Buffer destination
  | wgpuCommandEncoderFinish commandEncoder =>
      resource CommandEncoder commandEncoder
  | wgpuQueueSubmit queue commands =>
      resource Queue queue ++ (commands ≫= resource CommandBuffer)
  | wgpuQueueOnSubmittedWorkDone queue => resource Queue queue
  | wgpuBufferMapAsync buffer _ _ _ => resource Buffer buffer
  | wgpuBufferGetMappedRange buffer _ _
  | wgpuBufferGetConstMappedRange buffer _ _ =>
      resource Buffer buffer ++ resource Mapping buffer
  | wgpuBufferUnmap buffer => resource Buffer buffer
  | _ => []
  end.

(** The resources held, the latest first, and the buffer whose map
    request has not been answered yet. *)
Record Held : Type := mkHeld {
  alive : list Resource;
  pending : option nat
}.

(** One resource is given back: it must be held. *)
Fixpoint release (r : Resource) (held : list Resource)
    : option (list Resource) :=
  match held with
  | [] => None
  | x :: held' =>
      if decide (x = r) then Some held' else (x ::.) <$> release r held'
  end.

Fixpoint release_all (rs : list Resource) (held : list Resource)
    : option (list Resource) :=
  match rs with
  | [] => Some held
  | r :: rs' => held' ← release r held; release_all rs' held'
  end.

(** The answer to a map request: the callback reports success, failure,
    or [Unknown], after which the request is still open. *)
Definition answer (status : option WGPUBufferMapAsyncStatus) (held : Held)
    : Held :=
  match pending held, status with
  | Some buffer, Some WGPUBufferMapAsyncStatus_Success =>
      {| alive := Mapping buffer :: alive held; pending := None |}
  | Some buffer, Some WGPUBufferMapAsyncStatus_other =>
      {| alive := alive held; pending := None |}
  | _, _ => held
  end.

(** One call and its reply: [None] when the call needs or gives back a
    resource that is not held. *)
Definition step (held : Held) (e : Event) : option Held :=
  if forallb (λ r, bool_decide (r ∈ alive held)) (uses e.1) then
    alive' ← release_all (releases e.1) (alive held);
    let pending' :=
      match e.1 with
      | wgpuBufferMapAsync (Some buffer) _ _ _ => Some buffer
      | _ => pending held
      end in
    Some (answer (mapAsyncStatus e.2)
            {| alive := acquires e ++ alive'; pending := pending' |})
  else None.

Fixpoint protocol (trace : list Event) (held : Held) : option Held :=
  match trace with
  | [] => Some held
  | e :: trace' => held' ← step held e; protocol trace' held'
  end.

(** Every run of [m] that returns has made calls that keep to the
    protocol from [held] on, and ends in a state and with a value that
    satisfy [Q]. *)
Definition follows {A} (held : Held) (m : IO A) (Q : A → Held → Prop) : Prop :=
  ∀ api history a history',
    m api history = Returned a history' →
    ∃ trace held',
      history' = history ++ trace
      ∧ protocol trace held = Some held'
      ∧ Q a held'.

(** [held] is held and, besides, the reference to the queue, when one
    has been handed out; no map request is open. *)
Definition withQueue (queue : option nat) (held : list Resource) : Held :=
  {| alive := resource Queue queue ++ held; pending := None |}.

(** The queue references among the resources of a list, and the ones
    that the calls of a trace have handed out, the latest first. *)
Definition queuesOf (held : list Resource) : list Resource :=
  held ≫= λ r, match r with Queue _ => [r] | _ => [] end.

Definition queuesHandedOut (trace : list Event) : list Resource :=
  queuesOf (reverse trace ≫= acquires).

(** The state after the wait for a map request has ended with [status]. *)
Definition afterMapAsync (buffer : nat) (held : list Resource)
    (status : WGPUBufferMapAsyncStatus) : Held :=
  {| alive := if mapAsyncSuccess status then Mapping buffer :: held else held;
     pending := None |}.

(** * Example layouts, objects and worlds *)

(** The layout of a [Texture2D<float4>]: a resource that is not a
    structured buffer. *)
Definition texture2DTypeLayout : TypeLayoutReflection :=
  {| tl_type := Some "Texture2D<float4>";
     tl_kind := Kind.Resource;
     tl_resourceShape := SLANG_TEXTURE_2D;
     tl_stride := 0;
     tl_elementTypeLayout := None;
     tl_bindingRangeLeafTypeLayouts := [] |}.

(** A struct [T] of 16 bytes, the array [T[4]], and [ConstantBuffer<T[4]>]. *)
Definition structTypeLayout : TypeLayoutReflection :=
  {| tl_type := Some "T";
     tl_kind := Kind.Struct;
     tl_resourceShape := SLANG_RESOURCE_NONE;
     tl_stride := 16;
     tl_elementTypeLayout := None;
     tl_bindingRangeLeafTypeLayouts := [] |}.

Definition arrayTypeLayout : TypeLayoutReflection :=
  {| tl_type := Some "T[4]";
     tl_kind := Kind.Array;
     tl_resourceShape := SLANG_RESOURCE_NONE;
     tl_stride := 64;
     tl_elementTypeLayout := Some structTypeLayout;
     tl_bindingRangeLeafTypeLayouts := [] |}.

Definition constantBufferTypeLayout : TypeLayoutReflection :=
  {| tl_type := Some "ConstantBuffer<T[4]>";
     tl_kind := Kind.ConstantBuffer;
     tl_resourceShape := SLANG_RESOURCE_NONE;
     tl_stride := 0;
     tl_elementTypeLayout := Some arrayTypeLayout;
     tl_bindingRangeLeafTypeLayouts := [] |}.

(** An interface-typed field: 16 bytes of header and 16 bytes of payload. *)
Definition interfaceTypeLayout : TypeLayoutReflection :=
  {| tl_type := Some "IMaterial";
     tl_kind := Kind.Interface;
     tl_resourceShape := SLANG_RESOURCE_NONE;
     tl_stride := 32;
     tl_elementTypeLayout := None;
     tl_bindingRangeLeafTypeLayouts := [] |}.

(** The layout of a [StructuredBuffer<IMaterial>] shader object. *)
Definition structuredBufferLayout : ShaderObjectLayout.t :=
  {| ShaderObjectLayout.m_elementTypeLayout := Some interfaceTypeLayout;
     ShaderObjectLayout.m_componentID := 0;
     ShaderObjectLayout.m_containerType := ShaderObjectContainerType.StructuredBuffer;
     ShaderObjectLayout.m_bindingRanges := [];
     ShaderObjectLayout.m_subObjectRanges := [] |}.

(** A fresh object: state [Initial], zeroed data, nothing bound. *)
Definition newShaderObject (layout : ShaderObjectLayout.t)
    (subObjectCount : nat) (size : nat) : ShaderObject.t :=
  {| ShaderObject.m_layout := layout;
     ShaderObject.shaderObjectType :=
       {| slangType := None; componentID := kInvalidComponentID |};
     ShaderObject.m_state := State.Initial;
     ShaderObject.m_data :=
       {| SimpleShaderObjectData.m_ordinaryData := replicate size Byte.x00;
          SimpleShaderObjectData.m_structuredBuffer := None |};
     ShaderObject.m_objects := replicate subObjectCount None;
     ShaderObject.m_userProvidedSpecializationArgs := [];
     ShaderObject.m_structuredBufferSpecializationArgs := [] |}.

Definition emptyCache : ShaderCache.t :=
  {| ShaderCache.componentIds := []; ShaderCache.specializedPipelines := [];
     ShaderCache.issuedComponentIds := 0 |}.

Definition newDevice : Device :=
  {| shaderCache := emptyCache; dynamicType := "__Dynamic" |}.

(** A device and one empty structured-buffer object at address 0. *)
Definition containerWorld : World :=
  {| objects := {[ 0%nat := newShaderObject structuredBufferLayout 0 0 ]};
     device := newDevice |}.

(** Three concrete types with their component ids. *)
Definition typeA : ExtendedShaderObjectType :=
  {| slangType := Some "A"; componentID := 11 |}.
Definition typeB : ExtendedShaderObjectType :=
  {| slangType := Some "B"; componentID := 12 |}.
Definition typeC : ExtendedShaderObjectType :=
  {| slangType := Some "C"; componentID := 13 |}.

(** [struct Params { ConstantBuffer<T> cb; IMaterial material; }] *)
Definition paramsTypeLayout : TypeLayoutReflection :=
  {| tl_type := Some "Params";
     tl_kind := Kind.Struct;
     tl_resourceShape := SLANG_RESOURCE_NONE;
     tl_stride := 48;
     tl_elementTypeLayout := None;
     tl_bindingRangeLeafTypeLayouts :=
       [constantBufferTypeLayout; interfaceTypeLayout] |}.

(** Its two binding ranges, each with one sub-object. *)
Definition cbRange : BindingRangeInfo.t :=
  {| BindingRangeInfo.bindingType := BindingType.ConstantBuffer;
     BindingRangeInfo.count := 1;
     BindingRangeInfo.subObjectIndex := 0;
     BindingRangeInfo.isSpecializable := false |}.

Definition materialRange : BindingRangeInfo.t :=
  {| BindingRangeInfo.bindingType := BindingType.ExistentialValue;
     BindingRangeInfo.count := 1;
     BindingRangeInfo.subObjectIndex := 1;
     BindingRangeInfo.isSpecializable := true |}.

Definition paramsLayout : ShaderObjectLayout.t :=
  {| ShaderObjectLayout.m_elementTypeLayout := Some paramsTypeLayout;
     ShaderObjectLayout.m_componentID := 1;
     ShaderObjectLayout.m_containerType := ShaderObjectContainerType.None;
     ShaderObjectLayout.m_bindingRanges := [cbRange; materialRange];
     ShaderObjectLayout.m_subObjectRanges :=
       [SubObjectRangeInfo.mk 0; SubObjectRangeInfo.mk 1] |}.

(** A concrete material of 16 bytes, and one of 64 bytes. *)
Definition smallMaterialLayout : ShaderObjectLayout.t :=
  {| ShaderObjectLayout.m_elementTypeLayout := Some structTypeLayout;
     ShaderObjectLayout.m_componentID := 2;
     ShaderObjectLayout.m_containerType := ShaderObjectContainerType.None;
     ShaderObjectLayout.m_bindingRanges := [];
     ShaderObjectLayout.m_subObjectRanges := [] |}.

Definition largeMaterialLayout : ShaderObjectLayout.t :=
  {| ShaderObjectLayout.m_elementTypeLayout := Some arrayTypeLayout;
     ShaderObjectLayout.m_componentID := 3;
     ShaderObjectLayout.m_containerType := ShaderObjectContainerType.None;
     ShaderObjectLayout.m_bindingRanges := [];
     ShaderObjectLayout.m_subObjectRanges := [] |}.

(** [o] with its ordinary data set to [data]. *)
Definition withData (data : list Byte.byte) (o : ShaderObject.t) : ShaderObject.t :=
  ShaderObject.set_data
    {| SimpleShaderObjectData.m_ordinaryData := data;
       SimpleShaderObjectData.m_structuredBuffer := None |} o.

Definition paramsObject : ShaderObject.t := newShaderObject paramsLayout 2 48.
Definition smallMaterial : ShaderObject.t :=
  withData (replicate 16 Byte.x2a) (newShaderObject smallMaterialLayout 0 16).
Definition largeMaterial : ShaderObject.t :=
  newShaderObject largeMaterialLayout 0 64.

(** Address 0 holds the parent, 1 and 2 the two materials; nothing is bound
    yet and every object is in state [Initial]. *)
Definition paramsWorld : World :=
  {| objects := {[ 0%nat := paramsObject; 1%nat := smallMaterial;
                   2%nat := largeMaterial ]};
     device := newDevice |}.

(** The two fields of the parent; a binding range that does not exist; and
    an array index beyond the one element of the first field. *)
Definition cbOffset : ShaderOffset.t :=
  {| ShaderOffset.uniformOffset := 0;
     ShaderOffset.bindingRangeIndex := 0;
     ShaderOffset.bindingArrayIndex := 0 |}.

Definition materialOffset : ShaderOffset.t :=
  {| ShaderOffset.uniformOffset := 16;
     ShaderOffset.bindingRangeIndex := 1;
     ShaderOffset.bindingArrayIndex := 0 |}.

Definition outOfRangeOffset : ShaderOffset.t :=
  {| ShaderOffset.uniformOffset := 0;
     ShaderOffset.bindingRangeIndex := 2;
     ShaderOffset.bindingArrayIndex := 0 |}.

Definition farArrayIndexOffset : ShaderOffset.t :=
  {| ShaderOffset.uniformOffset := 0;
     ShaderOffset.bindingRangeIndex := 0;
     ShaderOffset.bindingArrayIndex := 5 |}.

(** The world after the header of the material field has been written. *)
Definition paramsWorld_with_header : World :=
  withObject 0
    (withData (replicate 16 Byte.x00 ++ Reference.existentialHeader
               ++ replicate 16 Byte.x00)
       (ShaderObject.set_objects [None; Some 1%nat] paramsObject))
    paramsWorld.

(** An empty [StructuredBuffer<IMaterial>] object at address 0 and the
    small material at address 1. *)
Definition containerWorld_with_material : World :=
  {| objects := {[ 0%nat := newShaderObject structuredBufferLayout 0 0;
                   1%nat := smallMaterial ]};
     device := newDevice |}.

(** Element 2 of the structured buffer, at two strides of 32 bytes. *)
Definition element2Offset : ShaderOffset.t :=
  {| ShaderOffset.uniformOffset := 64;
     ShaderOffset.bindingRangeIndex := 0;
     ShaderOffset.bindingArrayIndex := 2 |}.

(** The parent with the small material bound in its first field. *)
Definition boundWorld : World :=
  withObject 0 (ShaderObject.set_objects [Some 1%nat; None] paramsObject)
    paramsWorld.

(** The same, after the parent has been finalized. *)
Definition finalizedWorld : World :=
  withObject 0
    (ShaderObject.set_state State.Finalized
       (ShaderObject.set_objects [Some 1%nat; None] paramsObject))
    (withObject 1 (ShaderObject.set_state State.Finalized smallMaterial)
       paramsWorld).

(** The small material is bound in the material field, and the user has
    set the argument [B] for that field. *)
Definition userArgsWorld : World :=
  withObject 0
    (ShaderObject.set_userProvidedSpecializationArgs [None; Some [typeB]]
       (ShaderObject.set_objects [None; Some 1%nat] paramsObject))
    paramsWorld.

(** The small material is bound in the material field of the parent. *)
Definition materialBoundWorld : World :=
  withObject 0 (ShaderObject.set_objects [None; Some 1%nat] paramsObject)
    paramsWorld.

(** [struct Materials { IMaterial materials[2]; }]: one binding range of
    two interface-typed elements. *)
Definition materialsTypeLayout : TypeLayoutReflection :=
  {| tl_type := Some "Materials";
     tl_kind := Kind.Struct;
     tl_resourceShape := SLANG_RESOURCE_NONE;
     tl_stride := 64;
     tl_elementTypeLayout := None;
     tl_bindingRangeLeafTypeLayouts := [interfaceTypeLayout] |}.

Definition materialsRange : BindingRangeInfo.t :=
  {| BindingRangeInfo.bindingType := BindingType.ExistentialValue;
     BindingRangeInfo.count := 2;
     BindingRangeInfo.subObjectIndex := 0;
     BindingRangeInfo.isSpecializable := true |}.

Definition materialsLayout : ShaderObjectLayout.t :=
  {| ShaderObjectLayout.m_elementTypeLayout := Some materialsTypeLayout;
     ShaderObjectLayout.m_componentID := 4;
     ShaderObjectLayout.m_containerType := ShaderObjectContainerType.None;
     ShaderObjectLayout.m_bindingRanges := [materialsRange];
     ShaderObjectLayout.m_subObjectRanges := [SubObjectRangeInfo.mk 0] |}.

(** The small material is bound in element 0 and the large one in element
    1; the user has set the argument [B] for element 0 and nothing for
    element 1. *)
Definition materialsWorld : World :=
  withObject 0
    (ShaderObject.set_userProvidedSpecializationArgs [Some [typeB]; None]
       (ShaderObject.set_objects [Some 1%nat; Some 2%nat]
          (newShaderObject materialsLayout 2 64)))
    paramsWorld.

(** The same two materials, with the argument [B] set for element 1 and
    nothing for element 0. *)
Definition lastMaterialWorld : World :=
  withObject 0
    (ShaderObject.set_userProvidedSpecializationArgs [None; Some [typeB]]
       (ShaderObject.set_objects [Some 1%nat; Some 2%nat]
          (newShaderObject materialsLayout 2 64)))
    paramsWorld.

(** An API that hands out a new handle at every call and runs a callback
    in the first [wgpuDeviceTick] after the call that registers it; and
    one that runs the callback of a map request before
    [wgpuBufferMapAsync] returns. *)
Definition tickingAPI : API := λ history c,
  {| pointer := Some (length history);
     bytes :=
       match c with
       | memcpy_from_mapped _ count => replicate (Z.to_nat count) Byte.x2a
       | _ => []
       end;
     workDoneStatus :=
       match c with
       | wgpuDeviceTick _ => Some WGPUQueueWorkDoneStatus_Success
       | _ => None
       end;
     mapAsyncStatus :=
       match c with
       | wgpuDeviceTick _ => Some WGPUBufferMapAsyncStatus_Success
       | _ => None
       end |}.

Definition promptAPI : API := λ history c,
  {| pointer := Some (length history);
     bytes := [];
     workDoneStatus := None;
     mapAsyncStatus :=
       match c with
       | wgpuBufferMapAsync _ _ _ _ => Some WGPUBufferMapAsyncStatus_Success
       | _ => None
       end |}.

(** A buffer object starts with no buffer of the API, not mapped. *)
Definition bufferHeaders : BufferHeaders :=
  {| m_buffer_initially := None;
     m_isMapped_initially := false;
     m_mapMode_initially := 0;
     translateBufferUsage := λ usage, usage |}.

Definition wgpuDevice : DeviceImpl.t :=
  {| DeviceImpl.m_ctx :=
       {| Context.instance := Some 1%nat;
          Context.adapter := Some 2%nat;
          Context.device := Some 3%nat |} |}.

(** An upload buffer of four bytes, and the buffer object of a buffer
    [100] of the API. *)
Definition uploadDesc : BufferDesc.t :=
  {| BufferDesc.size := 4;
     BufferDesc.usage := 0;
     BufferDesc.memoryType := Upload;
     BufferDesc.label := Some "upload" |}.

Definition uploadBuffer : BufferImpl.t :=
  {| BufferImpl.m_desc := uploadDesc;
     BufferImpl.m_buffer := Some 100%nat;
     BufferImpl.m_isMapped := false;
     BufferImpl.m_mapMode := WGPUMapMode_Write |}.

(** * Properties *)

(** ** Component keys *)

Lemma specializationArgs_equal_from_spec n i (mine other : list ShaderComponentID) :
  length mine = length other →
  (i + n = length other)%nat →
  specializationArgs_equal_from n i mine other = true ↔ drop i mine = drop i other.
Proof.
  revert i. induction n as [|n IH]; intros i Hlen Hn;
    cbn [specializationArgs_equal_from].
  - rewrite !drop_ge by lia. done.
  - destruct (lookup_lt_is_Some_2 mine i) as [a Ha]; [lia|].
    destruct (lookup_lt_is_Some_2 other i) as [b Hb]; [lia|].
    rewrite Ha, Hb.
    rewrite (drop_S mine a i Ha), (drop_S other b i Hb).
    destruct (Z.eqb_spec a b) as [->|Hne]; simpl.
    + rewrite IH by lia. split; [congruence | by intros [=]].
    + split; [done | intros [=]; done].
Qed.

Lemma ComponentKey_eqb_true (k other : ComponentKey.t) :
  ComponentKey.eqb k other = true ↔
    ComponentKey.typeName k = ComponentKey.typeName other ∧
    ComponentKey.specializationArgs k = ComponentKey.specializationArgs other.
Proof.
  unfold ComponentKey.eqb.
  destruct (String.eqb_spec (ComponentKey.typeName k) (ComponentKey.typeName other))
    as [Hname|Hname]; simpl; [|split; [done | intros [? _]; done]].
  destruct (Nat.eqb_spec (length (ComponentKey.specializationArgs k))
              (length (ComponentKey.specializationArgs other))) as [Hlen|Hlen];
    simpl.
  - rewrite specializationArgs_equal_from_spec by (done || lia).
    rewrite !drop_0. split; [by intros -> | by intros [_ ->]].
  - split; [done | intros [_ Heq]; by rewrite Heq in Hlen].
Qed.

(** C6.  [ComponentKey::operator==] holds exactly when the two keys have the
    same type name and the same sequence of specialization-argument
    component ids, position by position, whatever their cached hashes; a
    key whose arguments are a rearrangement of the other's into a different
    sequence compares unequal. *)
Theorem ComponentKey_equal_iff_same_name_and_ordered_args (k other : ComponentKey.t) :
  (ComponentKey.eqb k other = true ↔
     ComponentKey.typeName k = ComponentKey.typeName other ∧
     ComponentKey.specializationArgs k = ComponentKey.specializationArgs other)
  ∧ (ComponentKey.specializationArgs k ≡ₚ ComponentKey.specializationArgs other →
     ComponentKey.specializationArgs k ≠ ComponentKey.specializationArgs other →
     ComponentKey.eqb k other = false).
Proof.
  split; [apply ComponentKey_eqb_true|].
  intros _ Hne. apply not_true_is_false. rewrite ComponentKey_eqb_true.
  by intros [_ ?].
Qed.

(** A swap of two different ids is seen by the comparison. *)
Example ComponentKey_swapped_args_differ :
  ComponentKey.eqb (ComponentKey.mk "IFoo" [1; 2; 1]%Z 0)
                   (ComponentKey.mk "IFoo" [2; 1; 1]%Z 0) = false
  ∧ ComponentKey.eqb (ComponentKey.mk "IFoo" [1; 2]%Z 7)
                     (ComponentKey.mk "IFoo" [1; 2]%Z 9) = true.
Proof. split; reflexivity. Qed.

(** ** The shader cache *)

Lemma umap_find_assign_same {K V} (hasher : K → Z) (key_eq : K → K → bool)
    (k : K) (v : V) (m : list (K * V)) :
  key_eq k k = true →
  umap_find hasher key_eq k (umap_assign hasher key_eq k v m) = Some v.
Proof.
  intros Hrefl. induction m as [|[k' v'] m IH]; simpl.
  - by rewrite Z.eqb_refl, Hrefl.
  - destruct ((hasher k' =? hasher k)%Z && key_eq k' k) eqn:E; simpl; by rewrite E.
Qed.

Lemma PipelineKey_eqb_refl (k : PipelineKey.t) : PipelineKey.eqb k k = true.
Proof.
  unfold PipelineKey.eqb. rewrite !Nat.eqb_refl. simpl.
  by apply specializationArgs_equal_from_spec.
Qed.

Lemma getSpecializedPipeline_added (c : ShaderCache.t) key p :
  ShaderCache.getSpecializedPipeline
    (ShaderCache.addSpecializedPipeline c key p) key = p.
Proof.
  unfold ShaderCache.getSpecializedPipeline, ShaderCache.addSpecializedPipeline.
  simpl. rewrite umap_find_assign_same by apply PipelineKey_eqb_refl.
  by destruct p.
Qed.

(** C9.  [ShaderCache::free] leaves both maps empty, and after it
    [getSpecializedPipeline] answers null for every pipeline key, whatever
    the cache held before; a pipeline that was in the cache under the key
    is no longer found. *)
Theorem ShaderCache_free_empties_both_maps (c : ShaderCache.t) (key : PipelineKey.t) :
  ShaderCache.componentIds (ShaderCache.free c) = []
  ∧ ShaderCache.specializedPipelines (ShaderCache.free c) = []
  ∧ ShaderCache.getSpecializedPipeline (ShaderCache.free c) key = None
  ∧ ∀ p, ShaderCache.getSpecializedPipeline
           (ShaderCache.addSpecializedPipeline c key (Some p)) key = Some p
         ∧ ShaderCache.getSpecializedPipeline
             (ShaderCache.free (ShaderCache.addSpecializedPipeline c key (Some p)))
             key = None.
Proof.
  repeat split. apply getSpecializedPipeline_added.
Qed.

(** ** Container resolution *)

Example _unwrapParameterGroups_constantBuffer_of_array :
  _unwrapParameterGroups 2 (Some constantBufferTypeLayout)
  = Some (Some structTypeLayout, ShaderObjectContainerType.Array).
Proof. reflexivity. Qed.

(** A layout the loop body hands back unchanged keeps the loop going for
    good. *)
Lemma _unwrapParameterGroups_loop_fixed st fuel :
  _unwrapParameterGroups_body st = Again st →
  _unwrapParameterGroups_loop fuel st = None.
Proof.
  intros Hbody. induction fuel as [|fuel IH]; simpl; [done|].
  by rewrite Hbody.
Qed.

(** A resource layout with a type that is not a structured buffer is such
    a layout: the [break] of [case Kind::Resource] ends the [switch], not
    the loop. *)
Lemma _unwrapParameterGroups_body_resource tl ty outContainerType :
  tl_type tl = Some ty →
  tl_kind tl = Kind.Resource →
  tl_resourceShape tl ≠ SLANG_STRUCTURED_BUFFER →
  _unwrapParameterGroups_body (Some tl, outContainerType)
  = Again (Some tl, outContainerType).
Proof.
  intros Hty Hkind Hshape. unfold _unwrapParameterGroups_body, skipUntypedLayout.
  simpl. rewrite Hty. simpl. rewrite Hkind.
  destruct (Z.eqb_spec (tl_resourceShape tl) SLANG_STRUCTURED_BUFFER); done.
Qed.

(** C2, at the input where the code leaves it.  On the layout of a texture,
    a resource that is not a structured buffer, [_unwrapParameterGroups]
    does not return, however many iterations it is given: the loop has no
    result with container type [None]. *)
Theorem _unwrapParameterGroups_texture_never_returns (fuel : nat) :
  _unwrapParameterGroups fuel (Some texture2DTypeLayout) = None.
Proof.
  apply _unwrapParameterGroups_loop_fixed.
  by apply _unwrapParameterGroups_body_resource with (ty := "Texture2D<float4>").
Qed.

(** ** Component ids in the cache *)

Lemma umap_find_app_None {K V} (hasher : K → Z) (key_eq : K → K → bool)
    (k : K) (m m' : list (K * V)) :
  umap_find hasher key_eq k m = None →
  umap_find hasher key_eq k (m ++ m') = umap_find hasher key_eq k m'.
Proof.
  induction m as [|[k' v'] m IH]; simpl; [done|].
  destruct ((hasher k' =? hasher k)%Z && key_eq k' k); [done | exact IH].
Qed.

Lemma ComponentKey_eqb_refl (k : ComponentKey.t) : ComponentKey.eqb k k = true.
Proof. by apply ComponentKey_eqb_true. Qed.

(** A second request for the same key finds the id the first one gave, and
    leaves the cache as it is. *)
Lemma getComponentId_key_again (c c' : ShaderCache.t) key id :
  ShaderCache.getComponentId_key c key = (id, c') →
  ShaderCache.getComponentId_key c' key = (id, c').
Proof.
  unfold ShaderCache.getComponentId_key.
  destruct (umap_find _ _ key (ShaderCache.componentIds c)) as [id0|] eqn:Hfind.
  - intros [= <- <-]. by rewrite Hfind.
  - intros [= <- <-]. simpl. unfold umap_emplace. rewrite Hfind.
    rewrite umap_find_app_None by done. simpl.
    unfold ShaderCache.ComponentKeyHasher at 1 2.
    by rewrite Z.eqb_refl, ComponentKey_eqb_refl.
Qed.

Section dynamic_sentinel.
Context `{StdHash}.

Lemma device_getComponentId_dynamic (w : World) :
  device_getComponentId (dynamicType (device w)) w
  = Done (dynamicComponentId w) (internDynamic w).
Proof.
  unfold device_getComponentId, dynamicComponentId, internDynamic.
  by destruct (ShaderCache.getComponentId _ _).
Qed.

Lemma getComponentId_again (c c' : ShaderCache.t) (type : string) id :
  ShaderCache.getComponentId c type = (id, c') →
  ShaderCache.getComponentId c' type = (id, c').
Proof. apply getComponentId_key_again. Qed.

Lemma dynamicComponentId_internDynamic (w : World) :
  dynamicComponentId (internDynamic w) = dynamicComponentId w.
Proof.
  unfold dynamicComponentId, internDynamic.
  destruct (ShaderCache.getComponentId (shaderCache (device w))
              (dynamicType (device w))) as [id c'] eqn:E.
  cbn [device shaderCache dynamicType fst snd].
  by rewrite (getComponentId_again _ _ _ _ E).
Qed.

Lemma internDynamic_idemp (w : World) :
  internDynamic (internDynamic w) = internDynamic w.
Proof.
  unfold internDynamic.
  destruct (ShaderCache.getComponentId (shaderCache (device w))
              (dynamicType (device w))) as [id c'] eqn:E.
  cbn [device shaderCache dynamicType objects fst snd].
  by rewrite (getComponentId_again _ _ _ _ E).
Qed.

Lemma dynamicEntryOf_internDynamic (w : World) :
  dynamicEntryOf (internDynamic w) = dynamicEntryOf w.
Proof.
  unfold dynamicEntryOf. by rewrite dynamicComponentId_internDynamic.
Qed.

(** ** The element specialization-signature merge *)

Lemma sameUpToDynamic_internDynamic w w' :
  sameUpToDynamic (internDynamic w) w' → sameUpToDynamic w w'.
Proof.
  intros [->| ->]; [by right|]. right. apply internDynamic_idemp.
Qed.

Lemma setSpecializationArgsForContainerElement_loop_spec n i stored args w :
  length stored = length args →
  (i + n = length stored)%nat →
  ∃ w',
    setSpecializationArgsForContainerElement_loop n i stored args w
    = Done (take i stored
            ++ zip_with (mergedEntry (dynamicEntryOf w))
                 (drop i stored) (drop i args)) w'
    ∧ sameUpToDynamic w w'.
Proof.
  revert i stored w. induction n as [|n IH]; intros i stored w Hlen Hn;
    cbn [setSpecializationArgsForContainerElement_loop].
  - exists w. split; [|by left]. unfold ret.
    rewrite (drop_ge stored), take_ge by lia. by rewrite app_nil_r.
  - destruct (lookup_lt_is_Some_2 stored i) as [mine Hmine]; [lia|].
    destruct (lookup_lt_is_Some_2 args i) as [theirs Htheirs]; [lia|].
    rewrite Hmine, Htheirs.
    rewrite (drop_S stored mine i Hmine), (drop_S args theirs i Htheirs).
    cbn [zip_with]. unfold mergedEntry at 1.
    destruct (Z.eqb_spec (componentID mine) (componentID theirs)) as [Heq|Hne];
      cbn [negb].
    + destruct (IH (S i) stored w) as (w' & Hrun & Hw'); [done|lia|].
      exists w'. split; [|done]. rewrite Hrun. f_equal.
      rewrite (take_S_r stored i mine Hmine), <- app_assoc. done.
    + unfold bind at 1, get_device. unfold bind at 1.
      rewrite device_getComponentId_dynamic.
      destruct (IH (S i) (<[i := dynamicEntryOf w]> stored) (internDynamic w))
        as (w' & Hrun & Hw'); [by rewrite length_insert | rewrite length_insert; lia|].
      exists w'. split; [|by apply sameUpToDynamic_internDynamic].
      unfold dynamicEntryOf at 1 in Hrun. rewrite Hrun. f_equal.
      rewrite dynamicEntryOf_internDynamic.
      rewrite drop_insert_lt by lia.
      rewrite take_insert_lt by lia.
      rewrite (take_S_r stored i mine Hmine).
      rewrite insert_app_r_alt by (rewrite length_take; lia).
      rewrite length_take, Nat.min_l by lia. rewrite Nat.sub_diag. simpl.
      by rewrite <- app_assoc.
Qed.
End dynamic_sentinel.

(** ** Running member functions *)

Lemma get_object_Some w p o :
  objects w !! p = Some o → get_object p w = Done o w.
Proof. unfold get_object. by intros ->. Qed.

Lemma put_object_eq w p o : put_object p o w = Done () (withObject p o w).
Proof. done. Qed.

Lemma modify_object_Some w p o f :
  objects w !! p = Some o →
  modify_object p f w = Done () (withObject p (f o) w).
Proof.
  intros Hp. unfold modify_object, bind. by rewrite (get_object_Some _ _ _ Hp).
Qed.

Lemma withObject_lookup w p o : objects (withObject p o w) !! p = Some o.
Proof. apply lookup_insert_eq. Qed.

Lemma withObject_lookup_ne w p q o :
  p ≠ q → objects (withObject p o w) !! q = objects w !! q.
Proof. intros. by apply lookup_insert_ne. Qed.

Section container_element_merge.
Context `{StdHash}.

Lemma sameUpToDynamic_objects w w' :
  sameUpToDynamic w w' → objects w' = objects w.
Proof. by intros [->| ->]. Qed.

Lemma setSpecializationArgsForContainerElement_first w this obj args :
  objects w !! this = Some obj →
  ShaderObject.m_structuredBufferSpecializationArgs obj = [] →
  setSpecializationArgsForContainerElement this args w
  = Done () (withObject this
               (ShaderObject.set_structuredBufferSpecializationArgs args obj) w).
Proof.
  intros Hthis Hempty. unfold setSpecializationArgsForContainerElement, bind.
  rewrite (get_object_Some _ _ _ Hthis), Hempty. done.
Qed.

Lemma setSpecializationArgsForContainerElement_merge w this obj args :
  objects w !! this = Some obj →
  ShaderObject.m_structuredBufferSpecializationArgs obj ≠ [] →
  length args = length (ShaderObject.m_structuredBufferSpecializationArgs obj) →
  ∃ w1,
    sameUpToDynamic w w1 ∧
    setSpecializationArgsForContainerElement this args w
    = Done () (withObject this
                 (ShaderObject.set_structuredBufferSpecializationArgs
                    (zip_with (mergedEntry (dynamicEntryOf w))
                       (ShaderObject.m_structuredBufferSpecializationArgs obj)
                       args)
                    obj) w1).
Proof.
  intros Hthis Hne Hlen.
  unfold setSpecializationArgsForContainerElement, bind at 1.
  rewrite (get_object_Some _ _ _ Hthis).
  set (stored := ShaderObject.m_structuredBufferSpecializationArgs obj) in *.
  unfold ExtendedShaderObjectTypeList.getCount.
  destruct (Z.eqb_spec (Z.of_nat (length stored)) 0) as [H0|_].
  { destruct stored; [done | simpl in H0; lia]. }
  destruct (setSpecializationArgsForContainerElement_loop_spec
              (length stored) 0 stored args w) as (w1 & Hrun & Hw1);
    [done | done |].
  exists w1. split; [done|]. unfold bind. rewrite Hrun.
  rewrite take_0, !drop_0. simpl.
  apply modify_object_Some. by rewrite (sameUpToDynamic_objects _ _ Hw1).
Qed.

Lemma mergedEntry_dyn dyn theirs : mergedEntry dyn dyn theirs = dyn.
Proof. unfold mergedEntry. by destruct (_ =? _)%Z. Qed.

Lemma foldl_merge_lookup dyn (rest : list (list ExtendedShaderObjectType)) :
  ∀ (stored : list ExtendedShaderObjectType) i x,
    Forall (λ e, length e = length stored) rest →
    stored !! i = Some x →
    foldl (zip_with (mergedEntry dyn)) stored rest !! i
    = Some (if allAgreeAt i (componentID x) rest then x else dyn).
Proof.
  induction rest as [|e rest IH]; intros stored i x Hlen Hx; [done|].
  apply Forall_cons in Hlen as [Hlen_e Hlen]. cbn [foldl allAgreeAt forallb].
  destruct (lookup_lt_is_Some_2 e i) as [y Hy].
  { rewrite Hlen_e. by eapply lookup_lt_Some. }
  rewrite Hy.
  assert (zip_with (mergedEntry dyn) stored e !! i = Some (mergedEntry dyn x y))
    as Hzip by (rewrite lookup_zip_with, Hx; simpl; by rewrite Hy).
  assert (Forall (λ e' : list ExtendedShaderObjectType,
                    length e' = length (zip_with (mergedEntry dyn) stored e)) rest)
    as Hlen'.
  { eapply Forall_impl; [exact Hlen|]. intros e' He'. simpl in He'.
    rewrite length_zip_with. lia. }
  rewrite (IH _ _ _ Hlen' Hzip).
  unfold mergedEntry. rewrite (Z.eqb_sym (componentID y)).
  destruct (componentID x =? componentID y)%Z eqn:E; simpl; [done|].
  fold (allAgreeAt i (componentID dyn) rest). by destruct (allAgreeAt _ _ _).
Qed.

Lemma setSpecializationArgsForContainerElements_merge
    (rest : list (list ExtendedShaderObjectType)) :
  ∀ w this obj,
    objects w !! this = Some obj →
    ShaderObject.m_structuredBufferSpecializationArgs obj ≠ [] →
    Forall (λ e, length e
                 = length (ShaderObject.m_structuredBufferSpecializationArgs obj))
      rest →
    ∃ w1,
      sameUpToDynamic w w1 ∧
      setSpecializationArgsForContainerElements this rest w
      = Done () (withObject this
                   (ShaderObject.set_structuredBufferSpecializationArgs
                      (foldl (zip_with (mergedEntry (dynamicEntryOf w)))
                         (ShaderObject.m_structuredBufferSpecializationArgs obj)
                         rest)
                      obj) w1).
Proof.
  induction rest as [|e rest IH]; intros w this obj Hthis Hne Hlen.
  - exists w. split; [by left|]. simpl. unfold ret, withObject. f_equal.
    destruct w as [objs dev]. simpl in *. f_equal.
    rewrite insert_id; [done|]. rewrite Hthis. by destruct obj.
  - apply Forall_cons in Hlen as [Hlen_e Hlen].
    destruct (setSpecializationArgsForContainerElement_merge w this obj e)
      as (w1 & Hw1 & Hrun); [done..|].
    cbn [setSpecializationArgsForContainerElements]. unfold bind. rewrite Hrun.
    set (obj1 := ShaderObject.set_structuredBufferSpecializationArgs _ obj).
    assert (length (ShaderObject.m_structuredBufferSpecializationArgs obj1)
            = length (ShaderObject.m_structuredBufferSpecializationArgs obj))
      as Hlen1 by (subst obj1; simpl; rewrite length_zip_with; lia).
    destruct (IH (withObject this obj1 w1) this obj1) as (w2 & Hw2 & Hrun2).
    { apply withObject_lookup. }
    { intros Hnil. rewrite Hnil in Hlen1. simpl in Hlen1.
      destruct (ShaderObject.m_structuredBufferSpecializationArgs obj); done. }
    { eapply Forall_impl; [exact Hlen|]. intros; simpl in *. lia. }
    assert (dynamicEntryOf (withObject this obj1 w1) = dynamicEntryOf w) as Hdyn.
    { destruct Hw1 as [->| ->]; [done|]. apply dynamicEntryOf_internDynamic. }
    rewrite Hdyn in Hrun2. rewrite Hrun2.
    assert (∃ w3, sameUpToDynamic w w3 ∧
                  ∀ o, withObject this o w2 = withObject this o w3)
      as (w3 & Hw3 & Heq).
    { destruct Hw2 as [->| ->].
      - exists w1. split; [done|]. intros o. unfold withObject. simpl.
        by rewrite insert_insert_eq.
      - exists (internDynamic w1). split.
        + destruct Hw1 as [->| ->]; [by right|]. right. apply internDynamic_idemp.
        + intros o. unfold withObject. simpl. by rewrite insert_insert_eq. }
    exists w3. split; [done|]. rewrite Heq. done.
Qed.
End container_element_merge.

(** C1.  On a container object whose element signature is still empty,
    [setSpecializationArgsForContainerElement] adopts the first element's
    argument list as it is.  A later list of the same length is merged
    position by position: where its component id differs from the stored
    one the stored entry becomes the entry of the sentinel dynamic type,
    with the component id the device gives that type, and where it is the
    same the stored entry stays.  After any number of elements a position
    on which all of them agree still holds the first element's entry, and a
    position on which some element disagreed holds the dynamic entry. *)
Theorem containerElement_signature_merge `{StdHash}
    (w : World) (this : nat) (obj : ShaderObject.t)
    (first : list ExtendedShaderObjectType)
    (rest : list (list ExtendedShaderObjectType)) :
  objects w !! this = Some obj →
  ShaderObject.m_structuredBufferSpecializationArgs obj = [] →
  first ≠ [] →
  Forall (λ e, length e = length first) rest →
  setSpecializationArgsForContainerElement this first w
  = Done () (withObject this
               (ShaderObject.set_structuredBufferSpecializationArgs first obj) w)
  ∧ (∀ w1 obj1 args,
       objects w1 !! this = Some obj1 →
       ShaderObject.m_structuredBufferSpecializationArgs obj1 ≠ [] →
       length args
       = length (ShaderObject.m_structuredBufferSpecializationArgs obj1) →
       ∃ w2 merged,
         setSpecializationArgsForContainerElement this args w1 = Done () w2
         ∧ objects w2 !! this
           = Some (ShaderObject.set_structuredBufferSpecializationArgs merged obj1)
         ∧ length merged
           = length (ShaderObject.m_structuredBufferSpecializationArgs obj1)
         ∧ ∀ i mine theirs,
             ShaderObject.m_structuredBufferSpecializationArgs obj1 !! i
             = Some mine →
             args !! i = Some theirs →
             merged !! i
             = Some (if decide (componentID mine = componentID theirs)
                     then mine
                     else dynamicEntry (dynamicType (device w1))
                            (dynamicComponentId w1)))
  ∧ ∃ w' final,
      setSpecializationArgsForContainerElements this (first :: rest) w
      = Done () w'
      ∧ objects w' !! this
        = Some (ShaderObject.set_structuredBufferSpecializationArgs final obj)
      ∧ ∀ i x,
          first !! i = Some x →
          final !! i
          = Some (if allAgreeAt i (componentID x) rest
                  then x
                  else dynamicEntry (dynamicType (device w))
                         (dynamicComponentId w)).
Proof.
  intros Hthis Hempty Hfirst Hlen.
  pose proof (setSpecializationArgsForContainerElement_first
                w this obj first Hthis Hempty) as Hrun1.
  split; [exact Hrun1|]. split.
  - clear. intros w1 obj1 args Hthis Hne Hlen.
    destruct (setSpecializationArgsForContainerElement_merge w1 this obj1 args)
      as (w2 & Hw2 & Hrun); [done..|].
    eexists _, _. split; [exact Hrun|]. split; [apply withObject_lookup|].
    split; [rewrite length_zip_with; lia|].
    intros i mine theirs Hmine Htheirs.
    rewrite lookup_zip_with, Hmine. simpl. rewrite Htheirs. simpl.
    unfold mergedEntry, dynamicEntryOf.
    destruct (Z.eqb_spec (componentID mine) (componentID theirs));
      by case_decide.
  - set (obj1 := ShaderObject.set_structuredBufferSpecializationArgs first obj).
    destruct (setSpecializationArgsForContainerElements_merge rest
                (withObject this obj1 w) this obj1) as (w1 & Hw1 & Hrun).
    { apply withObject_lookup. }
    { done. }
    { done. }
    cbn [setSpecializationArgsForContainerElements]. unfold bind.
    rewrite Hrun1. fold obj1. rewrite Hrun.
    eexists _, _. split; [done|]. split.
    { rewrite withObject_lookup. by destruct obj. }
    intros i x Hx. simpl.
    by rewrite (foldl_merge_lookup _ rest first i x Hlen Hx).
Qed.

(** Elements 0 and 1 are [(A, B)], element 2 is [(A, C)]: position 0 keeps
    [A] and position 1 becomes dynamic. *)
Lemma containerElement_signature_merge_witness :
  ∃ w' final,
    @setSpecializationArgsForContainerElements Reference.stdHash 0
      [[typeA; typeB]; [typeA; typeB]; [typeA; typeC]] containerWorld
    = Done () w'
    ∧ objects w' !! 0%nat
      = Some (ShaderObject.set_structuredBufferSpecializationArgs final
                (newShaderObject structuredBufferLayout 0 0))
    ∧ final !! 0%nat = Some typeA
    ∧ final !! 1%nat = Some (dynamicEntry "__Dynamic" 0).
Proof.
  destruct (@containerElement_signature_merge Reference.stdHash containerWorld 0
              (newShaderObject structuredBufferLayout 0 0) [typeA; typeB]
              [[typeA; typeB]; [typeA; typeC]])
    as (_ & _ & w' & final & Hrun & Hobj & Hfinal).
  - reflexivity.
  - reflexivity.
  - discriminate.
  - repeat constructor.
  - exists w', final. split; [exact Hrun|]. split; [exact Hobj|]. split.
    + exact (Hfinal 0%nat typeA eq_refl).
    + exact (Hfinal 1%nat typeB eq_refl).
Defined.

(** ** setObject and getObject *)

Lemma bind_Done {A B} (m : M A) (k : A → M B) w a w' :
  m w = Done a w' → bind m k w = k a w'.
Proof. unfold bind. by intros ->. Qed.

Lemma bind_Undefined {A B} (m : M A) (k : A → M B) w :
  m w = Undefined → bind m k w = Undefined.
Proof. unfold bind. by intros ->. Qed.

Lemma vec_get_Some {A} (v : list A) (index : Z) x w :
  (0 ≤ index)%Z → v !! Z.to_nat index = Some x → vec_get v index w = Done x w.
Proof.
  intros Hpos Hx. unfold vec_get.
  destruct (Z.ltb_spec index 0); [lia|]. by rewrite Hx.
Qed.

Lemma vec_get_out_of_range {A} (v : list A) (index : Z) w :
  (index < 0 ∨ Z.of_nat (length v) ≤ index)%Z → vec_get v index w = Undefined.
Proof.
  intros Hout. unfold vec_get.
  destruct (Z.ltb_spec index 0); [done|].
  rewrite lookup_ge_None_2; [done | lia].
Qed.

Lemma vec_set_in_range {A} (v : list A) (index : Z) x w :
  (0 ≤ index < Z.of_nat (length v))%Z →
  vec_set v index x w = Done (<[Z.to_nat index := x]> v) w.
Proof.
  intros Hin. unfold vec_set.
  destruct (Z.ltb_spec index 0); [lia|].
  destruct (Z.ltb_spec index (Z.of_nat (length v))); [done | lia].
Qed.

Lemma vec_set_out_of_range {A} (v : list A) (index : Z) x w :
  (index < 0 ∨ Z.of_nat (length v) ≤ index)%Z → vec_set v index x w = Undefined.
Proof.
  intros Hout. unfold vec_set.
  destruct (Z.ltb_spec index 0); [done|].
  destruct (Z.ltb_spec index (Z.of_nat (length v))); [lia | done].
Qed.

Lemma bindingRangeAt_Some obj offset bindingRange :
  bindingRangeAt obj offset = Some bindingRange →
  (0 ≤ ShaderOffset.bindingRangeIndex offset
   < ShaderObjectLayout.getBindingRangeCount (ShaderObject.m_layout obj))%Z
  ∧ ShaderObjectLayout.m_bindingRanges (ShaderObject.m_layout obj)
      !! Z.to_nat (ShaderOffset.bindingRangeIndex offset) = Some bindingRange.
Proof.
  unfold bindingRangeAt, ShaderObjectLayout.getBindingRangeCount.
  destruct (Z.ltb_spec (ShaderOffset.bindingRangeIndex offset) 0); [done|].
  intros Hr. split; [|done]. apply lookup_lt_Some in Hr. lia.
Qed.

Section setObject_properties.
Context `{StdHash} `{Collaborators}.

Lemma setObject_gate_Finalized w this object obj :
  objects w !! this = Some obj →
  ShaderObject.m_state obj = State.Finalized →
  setObject_gate this object w = Done SLANG_FAIL w.
Proof.
  intros Hthis Hst. unfold setObject_gate.
  rewrite (bind_Done _ _ _ _ _ (get_object_Some _ _ _ Hthis)). by rewrite Hst.
Qed.

Lemma setObject_gate_Initial w this object obj :
  objects w !! this = Some obj →
  ShaderObject.m_state obj = State.Initial →
  setObject_gate this object w = Done SLANG_OK w.
Proof.
  intros Hthis Hst. unfold setObject_gate.
  rewrite (bind_Done _ _ _ _ _ (get_object_Some _ _ _ Hthis)). by rewrite Hst.
Qed.

Lemma setObject_gate_Initialized w this object obj subObject :
  objects w !! this = Some obj →
  ShaderObject.m_state obj = State.Initialized →
  objects w !! object = Some subObject →
  setObject_gate this object w
  = Done (if ShaderObject.isFinalized subObject then SLANG_OK else SLANG_FAIL) w.
Proof.
  intros Hthis Hst Hsub. unfold setObject_gate.
  rewrite (bind_Done _ _ _ _ _ (get_object_Some _ _ _ Hthis)). rewrite Hst.
  rewrite (bind_Done _ _ _ _ _ (get_object_Some _ _ _ Hsub)).
  by destruct (ShaderObject.isFinalized subObject).
Qed.

Lemma setObject_rejected fuel w this offset object :
  setObject_gate this object w = Done SLANG_FAIL w →
  setObject fuel this offset object w = Done SLANG_FAIL w.
Proof. intros Hgate. unfold setObject. by rewrite (bind_Done _ _ _ _ _ Hgate). Qed.

Lemma setObject_admitted fuel w this offset object obj :
  setObject_gate this object w = Done SLANG_OK w →
  objects w !! this = Some obj →
  setObject fuel this offset object w
  = if negb (bool_decide (notContainer obj))
    then setObject_container fuel this offset object w
    else setObject_field this offset object w.
Proof.
  intros Hgate Hthis. unfold setObject.
  rewrite (bind_Done _ _ _ _ _ Hgate). cbn [SLANG_FAILED].
  rewrite (bind_Done _ _ _ _ _ (get_object_Some _ _ _ Hthis)).
  unfold notContainer. by destruct (bool_decide _).
Qed.

(** [setObject_field] up to the [switch] on the binding type. *)
Lemma setObject_field_stored w this offset object obj bindingRange :
  objects w !! this = Some obj →
  bindingRangeAt obj offset = Some bindingRange →
  (0 ≤ subObjectIndexOf bindingRange offset
   < Z.of_nat (length (ShaderObject.m_objects obj)))%Z →
  recordsOnly (BindingRangeInfo.bindingType bindingRange) = true →
  setObject_field this offset object w
  = Done SLANG_OK
      (withObject this
         (ShaderObject.set_objects
            (<[Z.to_nat (subObjectIndexOf bindingRange offset) := Some object]>
               (ShaderObject.m_objects obj)) obj) w).
Proof.
  intros Hthis Hrange Hindex Hplain.
  apply bindingRangeAt_Some in Hrange as [Hbri Hrange].
  unfold setObject_field.
  rewrite (bind_Done _ _ _ _ _ (get_object_Some _ _ _ Hthis)).
  destruct (Z.ltb_spec (ShaderOffset.bindingRangeIndex offset) 0); [lia|].
  destruct (Z.leb_spec
              (ShaderObjectLayout.getBindingRangeCount (ShaderObject.m_layout obj))
              (ShaderOffset.bindingRangeIndex offset)); [lia|].
  unfold getBindingRange.
  rewrite (bind_Done _ _ _ _ _ (vec_get_Some _ _ _ _ (proj1 Hbri) Hrange)).
  rewrite (bind_Done _ _ _ _ _ (vec_set_in_range _ _ _ _ Hindex)).
  rewrite (bind_Done _ _ _ _ _ (put_object_eq _ _ _)).
  by destruct (BindingRangeInfo.bindingType bindingRange).
Qed.

(** C3.  [setObject] on an object in state [Finalized] returns [SLANG_FAIL]
    and leaves the world as it was; so it does on an object in state
    [Initialized] when the sub-object is not finalized.  On an object in
    state [Initial] the state check lets every sub-object through, finalized
    or not: the call is the body of [setObject], and into a field that only
    records its sub-object it stores the sub-object and returns [SLANG_OK]. *)
Theorem setObject_state_gate (fuel : nat) (w : World) (this object : nat)
    (offset : ShaderOffset.t) (obj : ShaderObject.t) :
  objects w !! this = Some obj →
  (ShaderObject.m_state obj = State.Finalized →
   setObject fuel this offset object w = Done SLANG_FAIL w)
  ∧ (ShaderObject.m_state obj = State.Initialized →
     ∀ subObject,
       objects w !! object = Some subObject →
       ShaderObject.isFinalized subObject = false →
       setObject fuel this offset object w = Done SLANG_FAIL w)
  ∧ (ShaderObject.m_state obj = State.Initial →
     setObject fuel this offset object w
     = (if negb (bool_decide (notContainer obj))
        then setObject_container fuel this offset object w
        else setObject_field this offset object w)
     ∧ ∀ bindingRange,
         notContainer obj →
         bindingRangeAt obj offset = Some bindingRange →
         (0 ≤ subObjectIndexOf bindingRange offset
          < Z.of_nat (length (ShaderObject.m_objects obj)))%Z →
         recordsOnly (BindingRangeInfo.bindingType bindingRange) = true →
         setObject fuel this offset object w
         = Done SLANG_OK
             (withObject this
                (ShaderObject.set_objects
                   (<[Z.to_nat (subObjectIndexOf bindingRange offset)
                      := Some object]> (ShaderObject.m_objects obj)) obj) w)).
Proof.
  intros Hthis. split; [|split].
  - intros Hst. apply setObject_rejected. by eapply setObject_gate_Finalized.
  - intros Hst subObject Hsub Hnotfin. apply setObject_rejected.
    rewrite (setObject_gate_Initialized _ _ _ _ _ Hthis Hst Hsub).
    by rewrite Hnotfin.
  - intros Hst.
    assert (setObject_gate this object w = Done SLANG_OK w) as Hgate
      by (by eapply setObject_gate_Initial).
    split; [by apply setObject_admitted|].
    intros bindingRange Hnc Hrange Hindex Hplain.
    rewrite (setObject_admitted _ _ _ _ _ obj Hgate Hthis).
    rewrite bool_decide_eq_true_2 by done. cbn [negb].
    by apply setObject_field_stored.
Qed.
End setObject_properties.

(** The parent in state [Initial] takes a sub-object that is not finalized. *)
Lemma setObject_state_gate_witness :
  ShaderObject.isFinalized smallMaterial = false
  ∧ @setObject Reference.stdHash Reference.collaborators 0 0 cbOffset 1 paramsWorld
    = Done SLANG_OK
        (withObject 0
           (ShaderObject.set_objects [Some 1%nat; None] paramsObject)
           paramsWorld).
Proof.
  split; [reflexivity|].
  destruct (@setObject_state_gate Reference.stdHash Reference.collaborators
              0 paramsWorld 0 1 cbOffset paramsObject eq_refl)
    as (_ & _ & Hinitial).
  destruct (Hinitial eq_refl) as [_ Hstored].
  apply (Hstored cbRange); [reflexivity | reflexivity | | reflexivity].
  unfold subObjectIndexOf, paramsObject, newShaderObject. simpl. lia.
Defined.

Section setObject_cases.
Context `{StdHash} `{Collaborators}.

Lemma getObject_invalid_range w this offset obj :
  objects w !! this = Some obj →
  (ShaderOffset.bindingRangeIndex offset < 0
   ∨ ShaderObjectLayout.getBindingRangeCount (ShaderObject.m_layout obj)
     ≤ ShaderOffset.bindingRangeIndex offset)%Z →
  getObject this offset w = Done (SLANG_E_INVALID_ARG, None) w.
Proof.
  intros Hthis Hbad. unfold getObject.
  destruct (Z.ltb_spec (ShaderOffset.bindingRangeIndex offset) 0); [done|].
  rewrite (bind_Done _ _ _ _ _ (get_object_Some _ _ _ Hthis)).
  destruct (Z.leb_spec
              (ShaderObjectLayout.getBindingRangeCount (ShaderObject.m_layout obj))
              (ShaderOffset.bindingRangeIndex offset)); [done | lia].
Qed.

Lemma getObject_valid_range w this offset obj bindingRange :
  objects w !! this = Some obj →
  bindingRangeAt obj offset = Some bindingRange →
  getObject this offset w
  = (let* object :=
       vec_get (ShaderObject.m_objects obj) (subObjectIndexOf bindingRange offset) in
     match object with
     | Some p => ret (SLANG_OK, Some p)
     | None => undefined
     end) w.
Proof.
  intros Hthis Hrange. apply bindingRangeAt_Some in Hrange as [Hbri Hrange].
  unfold getObject.
  destruct (Z.ltb_spec (ShaderOffset.bindingRangeIndex offset) 0); [lia|].
  rewrite (bind_Done _ _ _ _ _ (get_object_Some _ _ _ Hthis)).
  destruct (Z.leb_spec
              (ShaderObjectLayout.getBindingRangeCount (ShaderObject.m_layout obj))
              (ShaderOffset.bindingRangeIndex offset)); [lia|].
  unfold getBindingRange.
  by rewrite (bind_Done _ _ _ _ _ (vec_get_Some _ _ _ _ (proj1 Hbri) Hrange)).
Qed.

Lemma setObject_field_invalid_range w this offset object obj :
  objects w !! this = Some obj →
  (ShaderOffset.bindingRangeIndex offset < 0
   ∨ ShaderObjectLayout.getBindingRangeCount (ShaderObject.m_layout obj)
     ≤ ShaderOffset.bindingRangeIndex offset)%Z →
  setObject_field this offset object w = Done SLANG_E_INVALID_ARG w.
Proof.
  intros Hthis Hbad. unfold setObject_field.
  rewrite (bind_Done _ _ _ _ _ (get_object_Some _ _ _ Hthis)).
  destruct (Z.ltb_spec (ShaderOffset.bindingRangeIndex offset) 0); [done|].
  destruct (Z.leb_spec
              (ShaderObjectLayout.getBindingRangeCount (ShaderObject.m_layout obj))
              (ShaderOffset.bindingRangeIndex offset)); [done | lia].
Qed.

(** [setObject_field] from the store into [m_objects] on. *)
Lemma setObject_field_valid_range w this offset object obj bindingRange :
  objects w !! this = Some obj →
  bindingRangeAt obj offset = Some bindingRange →
  setObject_field this offset object w
  = (let* m_objects' :=
       vec_set (ShaderObject.m_objects obj)
         (subObjectIndexOf bindingRange offset) (Some object) in
     let* _ := put_object this (ShaderObject.set_objects m_objects' obj) in
     match BindingRangeInfo.bindingType bindingRange with
     | BindingType.ExistentialValue =>
         let* subObject := get_object object in
         let concreteTypeLayout :=
           ShaderObjectLayout.getElementTypeLayout
             (ShaderObject.m_layout subObject) in
         let existentialTypeLayout :=
           getBindingRangeLeafTypeLayout
             (ShaderObjectLayout.getElementTypeLayout (ShaderObject.m_layout obj))
             (ShaderOffset.bindingRangeIndex offset) in
         let* r :=
           setExistentialHeader this (getType existentialTypeLayout)
             (getType concreteTypeLayout) offset in
         SLANG_RETURN_ON_FAIL r (
           if _doesValueFitInExistentialPayload concreteTypeLayout
                existentialTypeLayout
           then
             let* subObject := get_object object in
             let* _ :=
               setData this (payloadOffsetOf offset)
                 (SimpleShaderObjectData.getBuffer
                    (ShaderObject.m_data subObject)) in
             ret SLANG_OK
           else ret SLANG_E_NOT_IMPLEMENTED)
     | BindingType.MutableRawBuffer
     | BindingType.RawBuffer =>
         let* subObject := get_object object in
         let* buffer :=
           getBufferResource object
             (ShaderObjectLayout.getElementTypeLayout
                (ShaderObject.m_layout subObject))
             (BindingRangeInfo.bindingType bindingRange) in
         match buffer with
         | Some buffer =>
             let* _ := setBinding this offset buffer in ret SLANG_OK
         | None => ret SLANG_OK
         end
     | _ => ret SLANG_OK
     end) w.
Proof.
  intros Hthis Hrange. apply bindingRangeAt_Some in Hrange as [Hbri Hrange].
  unfold setObject_field.
  rewrite (bind_Done _ _ _ _ _ (get_object_Some _ _ _ Hthis)).
  destruct (Z.ltb_spec (ShaderOffset.bindingRangeIndex offset) 0); [lia|].
  destruct (Z.leb_spec
              (ShaderObjectLayout.getBindingRangeCount (ShaderObject.m_layout obj))
              (ShaderOffset.bindingRangeIndex offset)); [lia|].
  unfold getBindingRange.
  by rewrite (bind_Done _ _ _ _ _ (vec_get_Some _ _ _ _ (proj1 Hbri) Hrange)).
Qed.

(** C10.  [getObject], and [setObject] on an object that is not a container
    once its state check has let the call through, answer
    [SLANG_E_INVALID_ARG] to a [bindingRangeIndex] that is negative or not
    below the number of binding ranges, and leave the world as it was.  For
    a [bindingRangeIndex] in range nothing checks [bindingArrayIndex]: when
    [subObjectIndex + bindingArrayIndex] is outside [m_objects] neither
    function returns an error, the access is out of bounds.  The access is
    within bounds when the caller keeps [bindingArrayIndex] within the
    count of the binding range and [m_objects] holds the sub-objects of the
    range. *)
Theorem bindingArrayIndex_is_not_checked (fuel : nat) (w : World)
    (this object : nat) (offset : ShaderOffset.t) (obj : ShaderObject.t) :
  objects w !! this = Some obj →
  ((ShaderOffset.bindingRangeIndex offset < 0
    ∨ ShaderObjectLayout.getBindingRangeCount (ShaderObject.m_layout obj)
      ≤ ShaderOffset.bindingRangeIndex offset)%Z →
   getObject this offset w = Done (SLANG_E_INVALID_ARG, None) w
   ∧ (notContainer obj →
      setObject_gate this object w = Done SLANG_OK w →
      setObject fuel this offset object w = Done SLANG_E_INVALID_ARG w))
  ∧ (∀ bindingRange,
       bindingRangeAt obj offset = Some bindingRange →
       (subObjectIndexOf bindingRange offset < 0
        ∨ Z.of_nat (length (ShaderObject.m_objects obj))
          ≤ subObjectIndexOf bindingRange offset)%Z →
       getObject this offset w = Undefined
       ∧ (notContainer obj →
          setObject_gate this object w = Done SLANG_OK w →
          setObject fuel this offset object w = Undefined))
  ∧ (∀ bindingRange,
       bindingRangeAt obj offset = Some bindingRange →
       (0 ≤ BindingRangeInfo.subObjectIndex bindingRange)%Z →
       (BindingRangeInfo.subObjectIndex bindingRange
        + BindingRangeInfo.count bindingRange
        ≤ Z.of_nat (length (ShaderObject.m_objects obj)))%Z →
       (0 ≤ ShaderOffset.bindingArrayIndex offset
        < BindingRangeInfo.count bindingRange)%Z →
       (0 ≤ subObjectIndexOf bindingRange offset
        < Z.of_nat (length (ShaderObject.m_objects obj)))%Z
       ∧ (∀ p,
            ShaderObject.m_objects obj
              !! Z.to_nat (subObjectIndexOf bindingRange offset) = Some (Some p) →
            getObject this offset w = Done (SLANG_OK, Some p) w)
       ∧ (notContainer obj →
          setObject_gate this object w = Done SLANG_OK w →
          recordsOnly (BindingRangeInfo.bindingType bindingRange) = true →
          setObject fuel this offset object w
          = Done SLANG_OK
              (withObject this
                 (ShaderObject.set_objects
                    (<[Z.to_nat (subObjectIndexOf bindingRange offset)
                       := Some object]> (ShaderObject.m_objects obj)) obj) w))).
Proof.
  intros Hthis. split; [|split].
  - intros Hbad. split; [by apply (getObject_invalid_range _ _ _ obj)|].
    intros Hnc Hgate. rewrite (setObject_admitted _ _ _ _ _ obj Hgate Hthis).
    rewrite bool_decide_eq_true_2 by done. cbn [negb].
    by apply (setObject_field_invalid_range _ _ _ _ obj).
  - intros bindingRange Hrange Hout. split.
    + rewrite (getObject_valid_range _ _ _ _ _ Hthis Hrange).
      apply bind_Undefined. by apply vec_get_out_of_range.
    + intros Hnc Hgate. rewrite (setObject_admitted _ _ _ _ _ obj Hgate Hthis).
      rewrite bool_decide_eq_true_2 by done. cbn [negb].
      rewrite (setObject_field_valid_range _ _ _ _ _ _ Hthis Hrange).
      apply bind_Undefined. by apply vec_set_out_of_range.
  - intros bindingRange Hrange Hsub Hsized Hbai.
    assert (0 ≤ subObjectIndexOf bindingRange offset
            < Z.of_nat (length (ShaderObject.m_objects obj)))%Z as Hindex
      by (unfold subObjectIndexOf; lia).
    split; [done|]. split.
    + intros p Hp. rewrite (getObject_valid_range _ _ _ _ _ Hthis Hrange).
      by rewrite (bind_Done _ _ _ _ _ (vec_get_Some _ _ _ _ (proj1 Hindex) Hp)).
    + intros Hnc Hgate Hplain.
      rewrite (setObject_admitted _ _ _ _ _ obj Hgate Hthis).
      rewrite bool_decide_eq_true_2 by done. cbn [negb].
      by apply setObject_field_stored.
Qed.

(** C7.  When [setObject] stores a sub-object into a field whose binding
    type is [ExistentialValue], it records the sub-object and calls
    [setExistentialHeader] at the offset of the binding.  A failure of that
    call is the result.  After a header that was written, if the value fits
    in the payload the sub-object's ordinary data is handed to [setData] at
    the offset with [uniformOffset] advanced by 16 and the result is
    [SLANG_OK]; if it does not fit the result is
    [SLANG_E_NOT_IMPLEMENTED]. *)
Theorem setObject_existential_leaf (fuel : nat) (w w2 : World)
    (this object : nat) (offset : ShaderOffset.t)
    (obj subObject : ShaderObject.t) (bindingRange : BindingRangeInfo.t)
    (r : Result) :
  let w1 :=
    withObject this
      (ShaderObject.set_objects
         (<[Z.to_nat (subObjectIndexOf bindingRange offset) := Some object]>
            (ShaderObject.m_objects obj)) obj) w in
  let concreteTypeLayout :=
    ShaderObjectLayout.getElementTypeLayout (ShaderObject.m_layout subObject) in
  let existentialTypeLayout :=
    getBindingRangeLeafTypeLayout
      (ShaderObjectLayout.getElementTypeLayout (ShaderObject.m_layout obj))
      (ShaderOffset.bindingRangeIndex offset) in
  objects w !! this = Some obj →
  notContainer obj →
  setObject_gate this object w = Done SLANG_OK w →
  bindingRangeAt obj offset = Some bindingRange →
  BindingRangeInfo.bindingType bindingRange = BindingType.ExistentialValue →
  (0 ≤ subObjectIndexOf bindingRange offset
   < Z.of_nat (length (ShaderObject.m_objects obj)))%Z →
  objects w1 !! object = Some subObject →
  setExistentialHeader this (getType existentialTypeLayout)
    (getType concreteTypeLayout) offset w1 = Done r w2 →
  ShaderOffset.uniformOffset (payloadOffsetOf offset)
  = (ShaderOffset.uniformOffset offset + 16)%Z
  ∧ (SLANG_FAILED r = true →
     setObject fuel this offset object w = Done r w2)
  ∧ (r = SLANG_OK →
     _doesValueFitInExistentialPayload concreteTypeLayout existentialTypeLayout
     = true →
     ∀ subObject2,
       objects w2 !! object = Some subObject2 →
       setObject fuel this offset object w
       = (let* _ :=
            setData this (payloadOffsetOf offset)
              (SimpleShaderObjectData.getBuffer (ShaderObject.m_data subObject2)) in
          ret SLANG_OK) w2)
  ∧ (r = SLANG_OK →
     _doesValueFitInExistentialPayload concreteTypeLayout existentialTypeLayout
     = false →
     setObject fuel this offset object w = Done SLANG_E_NOT_IMPLEMENTED w2).
Proof.
  intros w1 concreteTypeLayout existentialTypeLayout
    Hthis Hnc Hgate Hrange Htype Hindex Hsub Hheader.
  split; [done|].
  assert (setObject fuel this offset object w
          = SLANG_RETURN_ON_FAIL r (
              if _doesValueFitInExistentialPayload concreteTypeLayout
                   existentialTypeLayout
              then
                let* subObject := get_object object in
                let* _ :=
                  setData this (payloadOffsetOf offset)
                    (SimpleShaderObjectData.getBuffer
                       (ShaderObject.m_data subObject)) in
                ret SLANG_OK
              else ret SLANG_E_NOT_IMPLEMENTED) w2) as Hrun.
  { rewrite (setObject_admitted _ _ _ _ _ obj Hgate Hthis).
    rewrite bool_decide_eq_true_2 by done. cbn [negb].
    rewrite (setObject_field_valid_range _ _ _ _ _ _ Hthis Hrange).
    rewrite (bind_Done _ _ _ _ _ (vec_set_in_range _ _ _ _ Hindex)).
    rewrite (bind_Done _ _ _ _ _ (put_object_eq _ _ _)). rewrite Htype.
    fold w1. rewrite (bind_Done _ _ _ _ _ (get_object_Some _ _ _ Hsub)).
    by rewrite (bind_Done _ _ _ _ _ Hheader). }
  rewrite Hrun. unfold SLANG_RETURN_ON_FAIL. split; [|split].
  - by intros ->.
  - intros -> Hfit subObject2 Hsub2. cbn [SLANG_FAILED]. rewrite Hfit.
    by rewrite (bind_Done _ _ _ _ _ (get_object_Some _ _ _ Hsub2)).
  - intros -> Hfit. cbn [SLANG_FAILED]. by rewrite Hfit.
Qed.
End setObject_cases.

(** Binding range 2 of 2 is refused; element 5 of binding range 0, a range
    of one element, is not. *)
Lemma bindingArrayIndex_is_not_checked_witness :
  @setObject Reference.stdHash Reference.collaborators 0 0 outOfRangeOffset 1
    paramsWorld = Done SLANG_E_INVALID_ARG paramsWorld
  ∧ getObject 0 farArrayIndexOffset paramsWorld = Undefined
  ∧ @setObject Reference.stdHash Reference.collaborators 0 0 farArrayIndexOffset 1
      paramsWorld = Undefined.
Proof.
  destruct (@bindingArrayIndex_is_not_checked Reference.stdHash
              Reference.collaborators 0 paramsWorld 0 1 outOfRangeOffset
              paramsObject eq_refl) as (Hrejected & _ & _).
  destruct (@bindingArrayIndex_is_not_checked Reference.stdHash
              Reference.collaborators 0 paramsWorld 0 1 farArrayIndexOffset
              paramsObject eq_refl) as (_ & Hunchecked & _).
  split.
  - apply Hrejected; [right; vm_compute; discriminate | reflexivity | reflexivity].
  - destruct (Hunchecked cbRange) as [Hget Hset];
      [reflexivity | right; vm_compute; discriminate |].
    split; [exact Hget | apply Hset; reflexivity].
Defined.

(** The small material fits: its sixteen bytes land behind the header.  The
    large one does not fit. *)
Lemma setObject_existential_leaf_witness :
  @setObject Reference.stdHash Reference.collaborators 0 0 materialOffset 1
    paramsWorld
  = Done SLANG_OK
      (withObject 0
         (withData (replicate 16 Byte.x00 ++ Reference.existentialHeader
                    ++ replicate 16 Byte.x2a)
            (ShaderObject.set_objects [None; Some 1%nat] paramsObject))
         paramsWorld)
  ∧ @setObject Reference.stdHash Reference.collaborators 0 0 materialOffset 2
      paramsWorld
    = Done SLANG_E_NOT_IMPLEMENTED
        (withObject 0
           (withData (replicate 16 Byte.x00 ++ Reference.existentialHeader
                      ++ replicate 16 Byte.x00)
              (ShaderObject.set_objects [None; Some 2%nat] paramsObject))
           paramsWorld).
Proof.
  split.
  - destruct (@setObject_existential_leaf Reference.stdHash
                Reference.collaborators 0 paramsWorld paramsWorld_with_header
                0 1 materialOffset paramsObject smallMaterial materialRange
                SLANG_OK) as (_ & _ & Hfits & _);
      [reflexivity | reflexivity | reflexivity | reflexivity | reflexivity
      | vm_compute; split; [discriminate | reflexivity]
      | reflexivity | vm_compute; reflexivity |].
    rewrite (Hfits eq_refl eq_refl smallMaterial eq_refl).
    vm_compute. reflexivity.
  - destruct (@setObject_existential_leaf Reference.stdHash
                Reference.collaborators 0 paramsWorld
                (withObject 0
                   (withData (replicate 16 Byte.x00 ++ Reference.existentialHeader
                              ++ replicate 16 Byte.x00)
                      (ShaderObject.set_objects [None; Some 2%nat] paramsObject))
                   paramsWorld)
                0 2 materialOffset paramsObject largeMaterial materialRange
                SLANG_OK) as (_ & _ & _ & Htoolarge);
      [reflexivity | reflexivity | reflexivity | reflexivity | reflexivity
      | vm_compute; split; [discriminate | reflexivity]
      | reflexivity | vm_compute; reflexivity |].
    exact (Htoolarge eq_refl eq_refl).
Defined.

(** ** Growth of a container *)

Section container_growth.
Context `{StdHash} `{Collaborators}.

(** A container that has to grow behaves as one that had grown before the
    call. *)
Lemma setObject_container_grows_first fuel w this offset object obj :
  objects w !! this = Some obj →
  (Z.of_nat (length (ShaderObject.m_objects obj))
   ≤ ShaderOffset.bindingArrayIndex offset)%Z →
  setObject_container fuel this offset object w
  = setObject_container fuel this offset object
      (withObject this
         (setObject_grow obj (ShaderOffset.bindingArrayIndex offset)) w).
Proof.
  intros Hthis Hgrow.
  set (index := ShaderOffset.bindingArrayIndex offset) in *.
  set (grown := setObject_grow obj index).
  assert (length (ShaderObject.m_objects grown) = Z.to_nat (index + 1)) as Hlen
    by (subst grown; unfold setObject_grow; simpl; by rewrite length_resize).
  unfold setObject_container.
  rewrite (bind_Done _ _ _ _ _ (get_object_Some _ _ _ Hthis)).
  rewrite (bind_Done _ _ _ _ _
             (get_object_Some _ _ _ (withObject_lookup w this grown))).
  fold index. destruct (Z.ltb_spec index 0); [lia|].
  destruct (Z.leb_spec (Z.of_nat (length (ShaderObject.m_objects obj))) index);
    [|lia].
  destruct (Z.leb_spec (Z.of_nat (length (ShaderObject.m_objects grown))) index);
    [lia|].
  fold grown.
  assert (0 ≤ index < Z.of_nat (length (ShaderObject.m_objects grown)))%Z
    as Hindex by lia.
  rewrite !(bind_Done _ _ _ _ _ (vec_set_in_range _ _ _ _ Hindex)).
  rewrite !(bind_Done _ _ _ _ _ (put_object_eq _ _ _)).
  replace (withObject this
             (ShaderObject.set_objects
                (<[Z.to_nat index := Some object]> (ShaderObject.m_objects grown))
                grown)
             (withObject this grown w))
    with (withObject this
            (ShaderObject.set_objects
               (<[Z.to_nat index := Some object]> (ShaderObject.m_objects grown))
               grown) w)
    by (unfold withObject; simpl; by rewrite insert_insert_eq).
  done.
Qed.

(** C8.  When [setObject] on a container, let through by the state check,
    names an element index at or beyond the number of sub-objects, the
    sub-object list grows to [index + 1] entries, the old ones kept and the
    new ones null, and the ordinary data is resized to the element stride
    times the new count: the bytes it had below the new size are kept and
    every added byte is zero.  The call then goes on with the object so
    grown. *)
Theorem setObject_container_growth (fuel : nat) (w : World)
    (this object : nat) (offset : ShaderOffset.t) (obj : ShaderObject.t) :
  let index := ShaderOffset.bindingArrayIndex offset in
  let stride :=
    getStride (ShaderObjectLayout.getElementTypeLayout (ShaderObject.m_layout obj)) in
  let grown := setObject_grow obj index in
  let data := SimpleShaderObjectData.m_ordinaryData (ShaderObject.m_data obj) in
  let data' := SimpleShaderObjectData.m_ordinaryData (ShaderObject.m_data grown) in
  objects w !! this = Some obj →
  ¬ notContainer obj →
  setObject_gate this object w = Done SLANG_OK w →
  (Z.of_nat (length (ShaderObject.m_objects obj)) ≤ index)%Z →
  (0 ≤ stride)%Z →
  Z.of_nat (length (ShaderObject.m_objects grown)) = (index + 1)%Z
  ∧ (∀ i, (i < length (ShaderObject.m_objects obj))%nat →
          ShaderObject.m_objects grown !! i = ShaderObject.m_objects obj !! i)
  ∧ (∀ i, (length (ShaderObject.m_objects obj) ≤ i)%nat →
          (Z.of_nat i ≤ index)%Z →
          ShaderObject.m_objects grown !! i = Some None)
  ∧ SimpleShaderObjectData.getCount (ShaderObject.m_data grown)
    = (stride * (index + 1))%Z
  ∧ (∀ i, (i < length data)%nat → (Z.of_nat i < stride * (index + 1))%Z →
          data' !! i = data !! i)
  ∧ (∀ i, (length data ≤ i)%nat → (Z.of_nat i < stride * (index + 1))%Z →
          data' !! i = Some Byte.x00)
  ∧ setObject fuel this offset object w
    = setObject_container fuel this offset object (withObject this grown w).
Proof.
  intros index stride grown data data' Hthis Hc Hgate Hgrow Hstride.
  assert (length (ShaderObject.m_objects grown) = Z.to_nat (index + 1)) as Hlen
    by (subst grown; unfold setObject_grow; simpl; by rewrite length_resize).
  assert (length data' = Z.to_nat (stride * (index + 1))) as Hlen'.
  { subst data' grown. unfold setObject_grow. simpl. rewrite !length_resize.
    fold stride. f_equal. rewrite Z2Nat.id by lia. lia. }
  split; [lia|]. split; [|split; [|split; [|split; [|split]]]].
  - intros i Hi. subst grown. unfold setObject_grow. simpl.
    apply lookup_resize; lia.
  - intros i Hi Hi'. subst grown. unfold setObject_grow. simpl.
    apply lookup_resize_new; lia.
  - unfold SimpleShaderObjectData.getCount. fold data'. rewrite Hlen'. lia.
  - intros i Hi Hi'. subst data' grown. unfold setObject_grow. simpl.
    apply lookup_resize; [|done]. rewrite length_resize. fold stride. lia.
  - intros i Hi Hi'. subst data' grown. unfold setObject_grow. simpl.
    apply lookup_resize_new; [done|]. rewrite length_resize. fold stride. lia.
  - rewrite (setObject_admitted _ _ _ _ _ obj Hgate Hthis).
    rewrite bool_decide_eq_false_2 by done. cbn [negb].
    by apply setObject_container_grows_first.
Qed.
End container_growth.

(** Element 2 of an empty [StructuredBuffer<IMaterial>]: three entries, and
    three strides of bytes that are zero but for the element written. *)
Lemma setObject_container_growth_witness :
  ∃ w' obj',
    @setObject Reference.stdHash Reference.collaborators 1 0 element2Offset 1
      containerWorld_with_material = Done SLANG_OK w'
    ∧ objects w' !! 0%nat = Some obj'
    ∧ ShaderObject.m_objects obj' = [None; None; Some 1%nat]
    ∧ SimpleShaderObjectData.m_ordinaryData (ShaderObject.m_data obj')
      = replicate 64 Byte.x00 ++ Reference.existentialHeader
        ++ replicate 16 Byte.x2a.
Proof.
  destruct (@setObject_container_growth Reference.stdHash
              Reference.collaborators 1 containerWorld_with_material 0 1
              element2Offset (newShaderObject structuredBufferLayout 0 0))
    as (_ & _ & _ & _ & _ & _ & Hrun);
    [reflexivity | discriminate | reflexivity
    | vm_compute; discriminate | vm_compute; discriminate |].
  rewrite Hrun. vm_compute. eexists _, _.
  split; [reflexivity|]. split; [reflexivity|]. split; reflexivity.
Defined.

(** ** finalize *)

Lemma bind_Done_inv {A B} (m : M A) (k : A → M B) w b w' :
  bind m k w = Done b w' → ∃ a w1, m w = Done a w1 ∧ k a w1 = Done b w'.
Proof. unfold bind. destruct (m w) as [a w1| |]; [eauto | done | done]. Qed.

Lemma get_object_Done_inv p w o w' :
  get_object p w = Done o w' → w' = w ∧ objects w !! p = Some o.
Proof.
  unfold get_object. destruct (objects w !! p); [|done]. by intros [= -> ->].
Qed.

Lemma finalizeStep_objects o o' :
  finalizeStep o o' → ShaderObject.m_objects o' = ShaderObject.m_objects o.
Proof. by intros [->| ->]. Qed.

Lemma finalizeStep_finalized o o' :
  finalizeStep o o' →
  ShaderObject.m_state o = State.Finalized →
  ShaderObject.m_state o' = State.Finalized.
Proof. by intros [->| ->]. Qed.

Lemma finalizeFrame_refl w : finalizeFrame w w.
Proof.
  split; [done|]. intros p. destruct (objects w !! p); constructor. by left.
Qed.

Lemma finalizeFrame_trans w1 w2 w3 :
  finalizeFrame w1 w2 → finalizeFrame w2 w3 → finalizeFrame w1 w3.
Proof.
  intros [Hd1 H1] [Hd2 H2]. split; [congruence|]. intros p.
  specialize (H1 p). specialize (H2 p).
  destruct H1 as [o1 o2 H1|]; inversion H2 as [? o3 H3|]; subst; constructor.
  destruct H1 as [->| ->]; [done|].
  destruct H3 as [->| ->]; [by right | by right].
Qed.

Lemma finalizeFrame_lookup w w' p o' :
  finalizeFrame w w' → objects w' !! p = Some o' →
  ∃ o, objects w !! p = Some o ∧ finalizeStep o o'.
Proof.
  intros [_ Hf] Hp. specialize (Hf p). rewrite Hp in Hf.
  inversion Hf as [o ? Hstep|]; subst. eauto.
Qed.

Lemma finalizeFrame_lookup_fwd w w' p o :
  finalizeFrame w w' → objects w !! p = Some o →
  ∃ o', objects w' !! p = Some o' ∧ finalizeStep o o'.
Proof.
  intros [_ Hf] Hp. specialize (Hf p). rewrite Hp in Hf.
  inversion Hf as [? o' Hstep|]; subst. eauto.
Qed.

Lemma isFinalizedIn_lookup w p :
  isFinalizedIn w p ↔
  ∃ o, objects w !! p = Some o ∧ ShaderObject.m_state o = State.Finalized.
Proof.
  unfold isFinalizedIn, stateOf. destruct (objects w !! p) as [o|]; simpl.
  - split; [intros [= ?]; eauto | intros (? & [= <-] & ->); done].
  - split; [done | by intros (? & ? & _)].
Qed.

Lemma finalizeFrame_finalized w w' p :
  finalizeFrame w w' → isFinalizedIn w p → isFinalizedIn w' p.
Proof.
  rewrite !isFinalizedIn_lookup. intros Hf (o & Hp & Hst).
  destruct (finalizeFrame_lookup_fwd _ _ _ _ Hf Hp) as (o' & Hp' & Hstep).
  exists o'. split; [done|]. by eapply finalizeStep_finalized.
Qed.

Lemma finalizePost_refl w : finalizePost w w.
Proof.
  split; [apply finalizeFrame_refl|]. intros p o Hp Hst. left.
  apply isFinalizedIn_lookup. eauto.
Qed.

Lemma finalizePost_trans w1 w2 w3 :
  finalizePost w1 w2 → finalizePost w2 w3 → finalizePost w1 w3.
Proof.
  intros [Hf1 H1] [Hf2 H2]. split; [by eapply finalizeFrame_trans|].
  intros p o3 Hp Hst. destruct (H2 p o3 Hp Hst) as [Hfin2|Hchildren]; [|by right].
  apply isFinalizedIn_lookup in Hfin2 as (o2 & Hp2 & Hst2).
  destruct (H1 p o2 Hp2 Hst2) as [Hfin1|Hchildren]; [by left|]. right.
  intros q Hq. eapply finalizeFrame_finalized; [exact Hf2|]. apply Hchildren.
  destruct (finalizeFrame_lookup _ _ _ _ Hf2 Hp) as (o2' & Hp2' & Hstep).
  assert (o2' = o2) as -> by congruence.
  unfold boundIn in *. by rewrite <- (finalizeStep_objects _ _ Hstep).
Qed.

Lemma finalizePost_closed w w' :
  finalizePost w w' → finalizedClosed w → finalizedClosed w'.
Proof.
  intros [Hf Hpost] Hclosed p o' Hp Hst q Hq.
  destruct (Hpost p o' Hp Hst) as [Hfin|Hchildren]; [|by apply Hchildren].
  apply isFinalizedIn_lookup in Hfin as (o & Hp0 & Hst0).
  eapply finalizeFrame_finalized; [exact Hf|].
  apply (Hclosed p o Hp0 Hst0).
  destruct (finalizeFrame_lookup _ _ _ _ Hf Hp) as (o0 & Hp0' & Hstep).
  assert (o0 = o) as -> by congruence.
  unfold boundIn in *. by rewrite <- (finalizeStep_objects _ _ Hstep).
Qed.

Lemma finalizedClosed_reachable w p r :
  finalizedClosed w → reachable w p r → isFinalizedIn w p → isFinalizedIn w r.
Proof.
  intros Hclosed Hreach. induction Hreach as [|p o q r Hp Hq _ IH]; [done|].
  intros Hfin. apply IH.
  apply isFinalizedIn_lookup in Hfin as (o' & Hp' & Hst).
  assert (o' = o) as -> by congruence. by apply (Hclosed p o).
Qed.

Lemma finalize_objects_spec (finalize_ : nat → M Result) :
  finalizeSpec finalize_ →
  ∀ m_objects w r w',
    finalize_objects finalize_ m_objects w = Done r w' →
    finalizePost w w'
    ∧ (r = SLANG_OK → ∀ q, Some q ∈ m_objects → isFinalizedIn w' q).
Proof.
  intros Hspec m_objects.
  induction m_objects as [|[object|] rest IH]; intros w r w' Hrun;
    cbn [finalize_objects] in Hrun.
  - injection Hrun as <- <-. split; [apply finalizePost_refl|].
    intros _ q Hq. by apply elem_of_nil in Hq.
  - apply bind_Done_inv in Hrun as (o & w0 & Hget & Hrun).
    apply get_object_Done_inv in Hget as [-> Hobject].
    destruct (ShaderObject.isFinalized o) eqn:Hfin; cbn [negb] in Hrun.
    + destruct (IH _ _ _ Hrun) as [Hpost Hrest]. split; [done|].
      intros Hr q [[= ->]|Hq]%elem_of_cons; [|by apply Hrest].
      destruct Hpost as [Hf _]. eapply finalizeFrame_finalized; [exact Hf|].
      apply isFinalizedIn_lookup. exists o. split; [done|].
      unfold ShaderObject.isFinalized in Hfin. by apply bool_decide_eq_true in Hfin.
    + apply bind_Done_inv in Hrun as (r1 & w1 & Hfinalize & Hrun).
      destruct (Hspec _ _ _ _ Hfinalize) as [Hpost1 Hok1].
      unfold SLANG_RETURN_ON_FAIL in Hrun.
      destruct (SLANG_FAILED r1) eqn:Hfailed.
      * injection Hrun as <- <-. split; [done|]. intros ->. done.
      * assert (r1 = SLANG_OK) as -> by (by destruct r1).
        destruct (IH _ _ _ Hrun) as [Hpost Hrest].
        split; [by eapply finalizePost_trans|].
        intros Hr q [[= ->]|Hq]%elem_of_cons; [|by apply Hrest].
        destruct Hpost as [Hf _]. eapply finalizeFrame_finalized; [exact Hf|].
        by apply Hok1.
  - destruct (IH _ _ _ Hrun) as [Hpost Hrest]. split; [done|].
    intros Hr q [[=]|Hq]%elem_of_cons. by apply Hrest.
Qed.

Section finalize_properties.
Context `{StdHash} `{Collaborators}.

Lemma finalize_spec fuel : finalizeSpec (finalize fuel).
Proof.
  induction fuel as [|fuel IH]; intros this w r w' Hrun; [done|].
  cbn [finalize] in Hrun.
  apply bind_Done_inv in Hrun as (obj & w0 & Hget & Hrun).
  apply get_object_Done_inv in Hget as [-> Hthis].
  destruct (bool_decide (ShaderObject.m_state obj = State.Finalized)) eqn:Hst.
  { injection Hrun as <- <-. split; [apply finalizePost_refl | done]. }
  apply bool_decide_eq_false in Hst.
  apply bind_Done_inv in Hrun as (r1 & w1 & Hloop & Hrun).
  destruct (finalize_objects_spec _ IH _ _ _ _ Hloop) as [Hpost1 Hchildren].
  unfold SLANG_RETURN_ON_FAIL in Hrun.
  destruct (SLANG_FAILED r1) eqn:Hfailed.
  { injection Hrun as <- <-. split; [done|]. by intros ->. }
  assert (r1 = SLANG_OK) as -> by (by destruct r1).
  apply bind_Done_inv in Hrun as ([] & w2 & Hmodify & Hrun).
  injection Hrun as <- <-.
  destruct Hpost1 as [Hf1 Hpost1].
  destruct (finalizeFrame_lookup_fwd _ _ _ _ Hf1 Hthis) as (o1 & Hthis1 & Hstep).
  rewrite (modify_object_Some _ _ _ _ Hthis1) in Hmodify.
  injection Hmodify as <-.
  set (o2 := ShaderObject.set_state State.Finalized o1).
  assert (finalizeFrame w1 (withObject this o2 w1)) as Hf2.
  { split; [done|]. intros p. destruct (decide (p = this)) as [->|Hne].
    - rewrite withObject_lookup, Hthis1. constructor. by right.
    - rewrite withObject_lookup_ne by done.
      destruct (objects w1 !! p); constructor. by left. }
  split; [split; [by eapply finalizeFrame_trans|] | intros _; split].
  - intros p o' Hp Hfin. destruct (decide (p = this)) as [->|Hne].
    + right. rewrite withObject_lookup in Hp. injection Hp as <-.
      intros q Hq. eapply finalizeFrame_finalized; [exact Hf2|].
      apply Hchildren; [done|]. unfold boundIn in Hq. simpl in Hq.
      by rewrite <- (finalizeStep_objects _ _ Hstep).
    + rewrite withObject_lookup_ne in Hp by done.
      destruct (Hpost1 p o' Hp Hfin) as [Hw|Hw]; [by left|]. right.
      intros q Hq. eapply finalizeFrame_finalized; [exact Hf2|]. by apply Hw.
  - apply isFinalizedIn_lookup. exists o2. by rewrite withObject_lookup.
  - rewrite isFinalizedIn_lookup. intros (o & Ho & Hfin).
    assert (o = obj) as -> by congruence. done.
Qed.

Lemma finalize_again fuel w this obj :
  objects w !! this = Some obj →
  ShaderObject.m_state obj = State.Finalized →
  finalize (S fuel) this w = Done SLANG_FAIL w.
Proof.
  intros Hthis Hst. cbn [finalize].
  rewrite (bind_Done _ _ _ _ _ (get_object_Some _ _ _ Hthis)).
  by rewrite bool_decide_eq_true_2.
Qed.

Lemma setSpecializationArgs_finalized w this offset args obj :
  objects w !! this = Some obj →
  ShaderObject.m_state obj = State.Finalized →
  setSpecializationArgs this offset args w = Done SLANG_FAIL w.
Proof.
  intros Hthis Hst. unfold setSpecializationArgs.
  rewrite (bind_Done _ _ _ _ _ (get_object_Some _ _ _ Hthis)).
  unfold ShaderObject.isFinalized. by rewrite bool_decide_eq_true_2.
Qed.
End finalize_properties.

(** C4.  When [finalize] has returned [SLANG_OK] the object is in state
    [Finalized]; from then on [setObject] and [setSpecializationArgs] on it
    return [SLANG_FAIL], the failure the code gives to an operation on a
    finalized object, and leave the world as it is, and so does another
    [finalize].  Every sub-object bound in the object is finalized, and, in
    a world that kept the invariant of finalized objects, so is every
    object reached through bound sub-objects. *)
Theorem finalize_then_immutable `{StdHash} `{Collaborators}
    (fuel : nat) (w w' : World) (this : nat) :
  finalize fuel this w = Done SLANG_OK w' →
  isFinalizedIn w' this
  ∧ (∀ fuel' offset object,
       setObject fuel' this offset object w' = Done SLANG_FAIL w')
  ∧ (∀ offset args,
       setSpecializationArgs this offset args w' = Done SLANG_FAIL w')
  ∧ (∀ fuel', finalize (S fuel') this w' = Done SLANG_FAIL w')
  ∧ (∀ o' q, objects w' !! this = Some o' → boundIn o' q → isFinalizedIn w' q)
  ∧ (finalizedClosed w → ∀ q, reachable w' this q → isFinalizedIn w' q).
Proof.
  intros Hrun.
  destruct (finalize_spec fuel this w SLANG_OK w' Hrun) as [Hpost Hok].
  destruct (Hok eq_refl) as [Hfin Hnot].
  pose proof Hfin as (o' & Hthis & Hst)%isFinalizedIn_lookup.
  split; [done|]. split; [|split; [|split; [|split]]].
  - intros fuel' offset object. apply setObject_rejected.
    by eapply setObject_gate_Finalized.
  - intros offset args. by eapply setSpecializationArgs_finalized.
  - intros fuel'. by eapply finalize_again.
  - intros o q Ho Hq. assert (o = o') as -> by congruence.
    destruct Hpost as [_ Hpost].
    destruct (Hpost this o' Hthis Hst) as [Hbefore|Hchildren]; [done|].
    by apply Hchildren.
  - intros Hclosed q Hreach.
    eapply finalizedClosed_reachable; [|exact Hreach|exact Hfin].
    by eapply finalizePost_closed.
Qed.

(** The parent with the small material bound: [finalize] finalizes both,
    and the parent then refuses [setObject], [setSpecializationArgs] and a
    second [finalize]. *)
Lemma finalize_then_immutable_witness :
  finalize 2 0 boundWorld = Done SLANG_OK finalizedWorld
  ∧ isFinalizedIn finalizedWorld 1
  ∧ @setObject Reference.stdHash Reference.collaborators 0 0 materialOffset 2
      finalizedWorld = Done SLANG_FAIL finalizedWorld
  ∧ @setSpecializationArgs Reference.stdHash 0 materialOffset
      [SpecializationArg.mk SpecializationArg.Type_ "B"] finalizedWorld
    = Done SLANG_FAIL finalizedWorld
  ∧ finalize 1 0 finalizedWorld = Done SLANG_FAIL finalizedWorld.
Proof.
  assert (finalize 2 0 boundWorld = Done SLANG_OK finalizedWorld) as Hrun
    by (vm_compute; reflexivity).
  destruct (@finalize_then_immutable Reference.stdHash Reference.collaborators
              2 boundWorld finalizedWorld 0 Hrun)
    as (_ & HsetObject & HsetArgs & Hfinalize & Hbound & _).
  split; [exact Hrun|]. split; [|split; [|split]].
  - apply (Hbound (ShaderObject.set_state State.Finalized
                     (ShaderObject.set_objects [Some 1%nat; None] paramsObject))).
    + reflexivity.
    + unfold boundIn. simpl. apply list_elem_of_here.
  - apply HsetObject.
  - apply HsetArgs.
  - apply Hfinalize.
Defined.

(** ** collectSpecializationArgs *)

Lemma addRange_from_spec n i (l list_ : list ExtendedShaderObjectType) :
  ExtendedShaderObjectTypeList.addRange_from n i l list_
  = l ++ take n (drop i list_).
Proof.
  revert i l. induction n as [|n IH]; intros i l;
    cbn [ExtendedShaderObjectTypeList.addRange_from].
  - by rewrite take_0, app_nil_r.
  - destruct (list_ !! i) as [c|] eqn:Hc.
    + rewrite IH. unfold ExtendedShaderObjectTypeList.add.
      rewrite (drop_S _ _ _ Hc). cbn [take]. by rewrite <- app_assoc.
    + rewrite drop_ge by (by apply lookup_ge_None). by rewrite take_nil, app_nil_r.
Qed.

Lemma addRange_app (l list_ : list ExtendedShaderObjectType) :
  ExtendedShaderObjectTypeList.addRange l list_ = l ++ list_.
Proof.
  unfold ExtendedShaderObjectTypeList.addRange.
  by rewrite addRange_from_spec, drop_0, firstn_all.
Qed.

Section user_args.
Context `{StdHash} `{Collaborators}.
Context (collect : nat → list ExtendedShaderObjectType →
                   M (Result * list ExtendedShaderObjectType)).
Context (w : World) (this : nat) (obj : ShaderObject.t).
Context (Hthis : objects w !! this = Some obj).

(** One pass of the loop over an index that holds null, or a sub-object
    with a user's list. *)
Lemma collectSpecializationArgs_subObject_userArgs
    (bindingRange : BindingRangeInfo.t) (oldArgsCount : Z)
    (subObjectIndexInRange : nat) (args : list ExtendedShaderObjectType) :
  userArgsOrNothingAt obj bindingRange subObjectIndexInRange = true →
  collectSpecializationArgs_subObject collect this bindingRange oldArgsCount
    (Z.of_nat subObjectIndexInRange) args w
  = Done (Again (args ++ userArgsOfSubObject obj bindingRange
                           subObjectIndexInRange)) w.
Proof.
  unfold userArgsOrNothingAt, userArgsOfSubObject, subObjectAt, userArgsAt,
    collectSpecializationArgs_subObject.
  set (objectIndex := (BindingRangeInfo.subObjectIndex bindingRange
                       + Z.of_nat subObjectIndexInRange)%Z).
  destruct (Z.ltb_spec objectIndex 0) as [|Hpos]; [done|].
  destruct (ShaderObject.m_objects obj !! Z.to_nat objectIndex)
    as [[subObject|]|] eqn:Hbound; [| |done].
  - destruct (userProvidedSpecializationArgs obj objectIndex)
      as [list_|] eqn:Huser; [intros _|done].
    rewrite (bind_Done _ _ _ _ _ (get_object_Some _ _ _ Hthis)).
    rewrite (bind_Done _ _ _ _ _ (vec_get_Some _ _ _ _ Hpos Hbound)).
    rewrite Huser. cbn [default]. by rewrite addRange_app.
  - intros _.
    rewrite (bind_Done _ _ _ _ _ (get_object_Some _ _ _ Hthis)).
    rewrite (bind_Done _ _ _ _ _ (vec_get_Some _ _ _ _ Hpos Hbound)).
    by rewrite app_nil_r.
Qed.

Lemma collectSpecializationArgs_range_userArgs
    (bindingRange : BindingRangeInfo.t) (oldArgsCount : Z) (n : nat) :
  ∀ (i : nat) (args : list ExtendedShaderObjectType),
    forallb (userArgsOrNothingAt obj bindingRange) (seq i n) = true →
    collectSpecializationArgs_range collect this bindingRange oldArgsCount n
      (Z.of_nat i) args w
    = Done (Again (args ++ (seq i n ≫= userArgsOfSubObject obj bindingRange)))
        w.
Proof.
  induction n as [|n IH]; intros i args Hall;
    cbn [collectSpecializationArgs_range seq].
  - by rewrite app_nil_r.
  - cbn [seq forallb] in Hall. apply andb_prop in Hall as [Hi Hall].
    rewrite (bind_Done _ _ _ _ _
               (collectSpecializationArgs_subObject_userArgs _ _ _ _ Hi)).
    replace (Z.of_nat i + 1)%Z with (Z.of_nat (S i)) by lia.
    rewrite (IH _ _ Hall). by rewrite bind_cons, app_assoc.
Qed.

Lemma collectSpecializationArgs_ranges_userArgs
    (subObjectRanges : list SubObjectRangeInfo.t) :
  ∀ args : list ExtendedShaderObjectType,
    forallb
      (λ subObjectRange,
         match bindingRangeOf obj subObjectRange with
         | Some bindingRange =>
             forallb (userArgsOrNothingAt obj bindingRange)
               (seq 0 (Z.to_nat (BindingRangeInfo.count bindingRange)))
         | None => false
         end) subObjectRanges = true →
    collectSpecializationArgs_ranges collect this (ShaderObject.m_layout obj)
      subObjectRanges args w
    = Done (SLANG_OK, args ++ (subObjectRanges ≫= userArgsOfRange obj)) w.
Proof.
  induction subObjectRanges as [|subObjectRange rest IH]; intros args Hall;
    cbn [collectSpecializationArgs_ranges].
  - by rewrite app_nil_r.
  - cbn [forallb] in Hall. apply andb_prop in Hall as [Hrange Hall].
    rewrite bind_cons. unfold userArgsOfRange at 1.
    unfold bindingRangeOf in *. unfold getBindingRange, vec_get.
    destruct (SubObjectRangeInfo.bindingRangeIndex subObjectRange <? 0)%Z;
      [done|].
    destruct (ShaderObjectLayout.m_bindingRanges (ShaderObject.m_layout obj)
                !! Z.to_nat (SubObjectRangeInfo.bindingRangeIndex
                               subObjectRange)) as [bindingRange|];
      [|done].
    unfold bind at 1. unfold ret at 1.
    rewrite (bind_Done _ _ _ _ _
               (collectSpecializationArgs_range_userArgs _ _ _ 0%nat _ Hrange)).
    rewrite (IH _ Hall). by rewrite app_assoc.
Qed.

End user_args.




(** The user's list does not stand when another element of the same
    binding range is derived.  In a range of two interface-typed elements
    the user has set [B] for element 0 and nothing for element 1: the
    type derived from the sub-object in element 1 is merged into the entry
    the user's list has added, and the output is the dynamic sentinel. *)
Lemma collectSpecializationArgs_merges_over_user_args :
  ∃ obj w',
    objects materialsWorld !! 0%nat = Some obj
    ∧ subObjectAt obj materialsRange 0 = Some (Some 1%nat)
    ∧ userArgsAt obj materialsRange 0 = Some [typeB]
    ∧ subObjectAt obj materialsRange 1 = Some (Some 2%nat)
    ∧ userArgsAt obj materialsRange 1 = None
    ∧ @collectSpecializationArgs Reference.stdHash Reference.collaborators 2 0
        [] materialsWorld
      = Done (SLANG_OK, [{| slangType := Some "__Dynamic"; componentID := 0 |}])
          w'.
Proof.
  vm_compute. eexists _, _. repeat split; reflexivity.
Qed.

(** ** Container resolution on the layouts where it returns *)

Lemma ptr_depth_element (p : option TypeLayoutReflection) :
  p ≠ None → (ptr_depth (getElementTypeLayout p) < ptr_depth p)%nat.
Proof.
  destruct p as [tl|]; [intros _|done]. simpl.
  destruct tl as [ty k sh st [e|] leaves]; simpl; lia.
Qed.

Lemma skipUntypedLayout_depth (p : option TypeLayoutReflection) :
  skipUntypedLayout p = p
  ∨ (ptr_depth (skipUntypedLayout p) < ptr_depth p)%nat.
Proof.
  unfold skipUntypedLayout. destruct (getType p); [by left|].
  destruct (getElementTypeLayout p) as [e|] eqn:He; [|by left]. right.
  rewrite <- He. apply ptr_depth_element. by destruct p.
Qed.

Lemma _unwrapParameterGroups_loop_S fuel st st' :
  _unwrapParameterGroups_body st = Again st' →
  _unwrapParameterGroups_loop (S fuel) st = _unwrapParameterGroups_loop fuel st'.
Proof. intros Hbody. simpl. by rewrite Hbody. Qed.

Lemma _unwrapParameterGroups_loop_Return fuel st r :
  _unwrapParameterGroups_body st = Return r →
  _unwrapParameterGroups_loop (S fuel) st = Some r.
Proof. intros Hbody. simpl. by rewrite Hbody. Qed.

Lemma _unwrapParameterGroups_loop_dichotomy n :
  ∀ p outContainerType,
    (ptr_depth p ≤ n)%nat →
    (∃ r, ∀ fuel, (ptr_depth p < fuel)%nat →
                  _unwrapParameterGroups_loop fuel (p, outContainerType) = Some r)
    ∨ (∀ fuel, _unwrapParameterGroups_loop fuel (p, outContainerType) = None).
Proof.
  induction n as [|n IH]; intros p ct Hn.
  - destruct p as [tl|]; [simpl in Hn; lia|]. left. eexists. intros fuel Hfuel.
    destruct fuel as [|fuel]; [simpl in Hfuel; lia|]. reflexivity.
  - destruct (_unwrapParameterGroups_body (p, ct)) as [r|[p' ct']] eqn:Hbody.
    { left. exists r. intros fuel Hfuel. destruct fuel as [|fuel]; [lia|].
      by apply _unwrapParameterGroups_loop_Return. }
    assert (ct' = ct ∧ ((p' = p) ∨ (ptr_depth p' < ptr_depth p)%nat))
      as [-> Hp'].
    { unfold _unwrapParameterGroups_body in Hbody.
      pose proof (skipUntypedLayout_depth p) as Hskip.
      assert (getKind (skipUntypedLayout p) ≠ Kind.None →
              ptr_depth (getElementTypeLayout (skipUntypedLayout p))
              < ptr_depth p)%nat as Hdescend.
      { intros Hkind.
        assert (skipUntypedLayout p ≠ None) as Hne
          by (intros Heq; by rewrite Heq in Hkind).
        pose proof (ptr_depth_element _ Hne). destruct Hskip as [Heq|?]; [|lia].
        by rewrite Heq in *. }
      destruct (getKind (skipUntypedLayout p)) eqn:Hkind; try done.
      - injection Hbody as <- <-. split; [done|]. right. by apply Hdescend.
      - destruct (negb _); [|done]. injection Hbody as <- <-.
        split; [done|]. destruct Hskip as [->|?]; [by left | by right].
      - injection Hbody as <- <-. split; [done|]. right. by apply Hdescend. }
    destruct Hp' as [->|Hlt].
    { right. intros fuel. by apply _unwrapParameterGroups_loop_fixed. }
    destruct (IH p' ct ltac:(lia)) as [[r Hr]|Hnever].
    + left. exists r. intros fuel Hfuel. destruct fuel as [|fuel]; [lia|].
      rewrite (_unwrapParameterGroups_loop_S _ _ _ Hbody). apply Hr. lia.
    + right. intros [|fuel]; [done|].
      by rewrite (_unwrapParameterGroups_loop_S _ _ _ Hbody).
Qed.

(** [_unwrapParameterGroups] has the same result for every number of
    iterations above the depth of the layout, or it has none for any; the
    assertions of the [Array] and [Resource] cases hold when they are
    reached, since the loop goes round with the container type it started
    with.  On a layout that has a type: an array gives [Array] and a
    structured buffer gives [StructuredBuffer], both with the element
    layout; a constant buffer or parameter block gives what its element
    layout gives; a kind other than these and [Resource] gives the layout
    itself with [None]. *)
Theorem _unwrapParameterGroups_returns_or_spins (p : option TypeLayoutReflection) :
  ((∃ r, ∀ fuel, (ptr_depth p < fuel)%nat → _unwrapParameterGroups fuel p = Some r)
   ∨ (∀ fuel, _unwrapParameterGroups fuel p = None))
  ∧ ∀ tl ty fuel,
      p = Some tl → tl_type tl = Some ty →
      match tl_kind tl with
      | Kind.Array =>
          _unwrapParameterGroups (S fuel) p
          = Some (tl_elementTypeLayout tl, ShaderObjectContainerType.Array)
      | Kind.Resource =>
          tl_resourceShape tl = SLANG_STRUCTURED_BUFFER →
          _unwrapParameterGroups (S fuel) p
          = Some (tl_elementTypeLayout tl,
                  ShaderObjectContainerType.StructuredBuffer)
      | Kind.ConstantBuffer | Kind.ParameterBlock =>
          _unwrapParameterGroups (S fuel) p
          = _unwrapParameterGroups fuel (tl_elementTypeLayout tl)
      | _ =>
          _unwrapParameterGroups (S fuel) p
          = Some (p, ShaderObjectContainerType.None)
      end.
Proof.
  split; [by apply (_unwrapParameterGroups_loop_dichotomy (ptr_depth p))|].
  intros tl ty fuel -> Hty.
  unfold _unwrapParameterGroups. cbn [_unwrapParameterGroups_loop].
  unfold _unwrapParameterGroups_body, skipUntypedLayout. simpl. rewrite Hty.
  simpl. destruct (tl_kind tl); try done.
  intros ->. done.
Qed.

(** ** Pipeline keys *)

(** [PipelineKey::operator==] holds exactly when the two keys name the same
    pipeline and carry the same sequence of component ids. *)
Theorem PipelineKey_equal_iff_same_pipeline_and_ordered_args (k other : PipelineKey.t) :
  PipelineKey.eqb k other = true ↔
    PipelineKey.pipeline k = PipelineKey.pipeline other ∧
    PipelineKey.specializationArgs k = PipelineKey.specializationArgs other.
Proof.
  unfold PipelineKey.eqb.
  destruct (Nat.eqb_spec (PipelineKey.pipeline k) (PipelineKey.pipeline other))
    as [Hp|Hp]; simpl; [|split; [done | intros [? _]; done]].
  destruct (Nat.eqb_spec (length (PipelineKey.specializationArgs k))
              (length (PipelineKey.specializationArgs other))) as [Hlen|Hlen];
    simpl.
  - rewrite specializationArgs_equal_from_spec by (done || lia).
    rewrite !drop_0. split; [by intros -> | by intros [_ ->]].
  - split; [done | intros [_ Heq]; by rewrite Heq in Hlen].
Qed.

(** ** finalize returns *)

Lemma rankedWorld_frame rank w w' :
  finalizeFrame w w' → rankedWorld rank w → rankedWorld rank w'.
Proof.
  intros Hf Hranked p o' q Hp Hq.
  destruct (finalizeFrame_lookup _ _ _ _ Hf Hp) as (o & Hp0 & Hstep).
  unfold boundIn in Hq. rewrite (finalizeStep_objects _ _ Hstep) in Hq.
  destruct (Hranked p o q Hp0 Hq) as [[oq Hoq] Hlt]. split; [|done].
  destruct (finalizeFrame_lookup_fwd _ _ _ _ Hf Hoq) as (oq' & Hoq' & _). eauto.
Qed.

Lemma finalize_objects_succeeds rank (finalize_ : nat → M Result) bound :
  finalizeSpec finalize_ →
  (∀ q w o, rankedWorld rank w → objects w !! q = Some o →
            ShaderObject.m_state o ≠ State.Finalized → (rank q < bound)%nat →
            ∃ w', finalize_ q w = Done SLANG_OK w') →
  ∀ m_objects w,
    rankedWorld rank w →
    (∀ q, Some q ∈ m_objects →
          is_Some (objects w !! q) ∧ (rank q < bound)%nat) →
    ∃ w', finalize_objects finalize_ m_objects w = Done SLANG_OK w'
          ∧ finalizeFrame w w'.
Proof.
  intros Hspec Hfinalize m_objects.
  induction m_objects as [|[object|] rest IH]; intros w Hranked Hbound;
    cbn [finalize_objects].
  - exists w. split; [done | apply finalizeFrame_refl].
  - destruct (Hbound object) as [[o Ho] Hlt]; [apply list_elem_of_here|].
    rewrite (bind_Done _ _ _ _ _ (get_object_Some _ _ _ Ho)).
    destruct (ShaderObject.isFinalized o) eqn:Hfin; cbn [negb].
    + apply IH; [done|]. intros q Hq. apply Hbound. by apply list_elem_of_further.
    + assert (ShaderObject.m_state o ≠ State.Finalized) as Hst
        by (unfold ShaderObject.isFinalized in Hfin;
            by apply bool_decide_eq_false in Hfin).
      destruct (Hfinalize object w o Hranked Ho Hst Hlt) as [w1 Hrun].
      rewrite (bind_Done _ _ _ _ _ Hrun). cbn [SLANG_RETURN_ON_FAIL SLANG_FAILED].
      destruct (Hspec _ _ _ _ Hrun) as [[Hf1 _] _].
      destruct (IH w1) as (w2 & Hrest & Hf2).
      { by eapply rankedWorld_frame. }
      { intros q Hq. destruct (Hbound q) as [[oq Hoq] ?];
          [by apply list_elem_of_further|]. split; [|done].
        destruct (finalizeFrame_lookup_fwd _ _ _ _ Hf1 Hoq) as (? & ? & _). eauto. }
      exists w2. split; [done | by eapply finalizeFrame_trans].
  - apply IH; [done|]. intros q Hq. apply Hbound. by apply list_elem_of_further.
Qed.

(** In a world where no object is bound in itself, [finalize] on an object
    that is not finalized returns [SLANG_OK], given a budget above the rank
    of the object: [finalize] fails only on an object that is finalized. *)
Theorem finalize_succeeds (rank : nat → nat) (fuel : nat) :
  ∀ (this : nat) (w : World) (obj : ShaderObject.t),
    rankedWorld rank w →
    objects w !! this = Some obj →
    ShaderObject.m_state obj ≠ State.Finalized →
    (rank this < fuel)%nat →
    ∃ w', finalize fuel this w = Done SLANG_OK w'.
Proof.
  induction fuel as [|fuel IH]; intros this w obj Hranked Hthis Hst Hfuel; [lia|].
  cbn [finalize].
  rewrite (bind_Done _ _ _ _ _ (get_object_Some _ _ _ Hthis)).
  rewrite bool_decide_eq_false_2 by done.
  destruct (finalize_objects_succeeds rank (finalize fuel) fuel
              (finalize_spec fuel) IH (ShaderObject.m_objects obj) w Hranked)
    as (w1 & Hloop & Hf1).
  { intros q Hq. destruct (Hranked this obj q Hthis Hq). split; [done | lia]. }
  rewrite (bind_Done _ _ _ _ _ Hloop). cbn [SLANG_RETURN_ON_FAIL SLANG_FAILED].
  destruct (finalizeFrame_lookup_fwd _ _ _ _ Hf1 Hthis) as (o1 & Hthis1 & _).
  rewrite (bind_Done _ _ _ _ _ (modify_object_Some _ _ _ _ Hthis1)). eauto.
Qed.

(** In [boundWorld] the parent binds the small material and nothing else
    is bound. *)
Lemma boundWorld_ranked :
  rankedWorld (λ p, match p with O => 1%nat | _ => 0%nat end) boundWorld.
Proof.
  intros p o q Hp Hq. unfold boundIn in Hq.
  unfold boundWorld, withObject, paramsWorld in Hp. cbn [objects] in Hp.
  apply lookup_insert_Some in Hp as [[<- <-]|[Hne0 Hp]].
  - simpl in Hq. apply elem_of_cons in Hq as [[= ->]|Hq].
    + split; [by eexists | lia].
    + apply elem_of_cons in Hq as [[=]|Hq]. by apply elem_of_nil in Hq.
  - apply lookup_insert_Some in Hp as [[<- <-]|[_ Hp]]; [done|].
    apply lookup_insert_Some in Hp as [[<- <-]|[_ Hp]].
    + by apply elem_of_nil in Hq.
    + apply lookup_singleton_Some in Hp as [<- <-]. by apply elem_of_nil in Hq.
Qed.

(** The parent of rank 1 over its material of rank 0. *)
Lemma finalize_succeeds_witness :
  ∃ w', finalize 2 0 boundWorld = Done SLANG_OK w'.
Proof.
  apply (finalize_succeeds (λ p, match p with O => 1%nat | _ => 0%nat end) 2 0
           boundWorld (ShaderObject.set_objects [Some 1%nat; None] paramsObject)).
  - exact boundWorld_ranked.
  - reflexivity.
  - discriminate.
  - simpl. lia.
Defined.

(** ** Breakable references *)

(** Every access to a [BreakableReference] goes through the weak pointer:
    breaking the strong reference and establishing it again leave the
    target that [get] returns as it was; a reference that was assigned is
    strong, breaking it releases the ownership, and establishing it again
    owns the same target. *)
Theorem BreakableReference_target_is_stable (r : BreakableReference.t)
    (p : option nat) :
  BreakableReference.get (BreakableReference.breakStrongReference r)
  = BreakableReference.get r
  ∧ BreakableReference.get (BreakableReference.establishStrongReference r)
    = BreakableReference.get r
  ∧ BreakableReference.get (BreakableReference.assign r p) = p
  ∧ BreakableReference.m_strongPtr (BreakableReference.assign r p) = p
  ∧ BreakableReference.m_strongPtr
      (BreakableReference.breakStrongReference (BreakableReference.assign r p))
    = None
  ∧ BreakableReference.establishStrongReference
      (BreakableReference.breakStrongReference (BreakableReference.assign r p))
    = BreakableReference.assign r p
  ∧ BreakableReference.get (BreakableReference.setWeakReference r p) = p
  ∧ BreakableReference.m_strongPtr (BreakableReference.setWeakReference r p)
    = None.
Proof. repeat split. Qed.

(** ** Lists of extended types *)

(** [addRange] appends the entries of the other list in their order, and
    [add] one entry; the count grows by what was appended. *)
Theorem ExtendedShaderObjectTypeList_addRange_appends
    (l list_ : list ExtendedShaderObjectType) (c : ExtendedShaderObjectType) :
  ExtendedShaderObjectTypeList.addRange l list_ = l ++ list_
  ∧ ExtendedShaderObjectTypeList.getCount
      (ExtendedShaderObjectTypeList.addRange l list_)
    = (ExtendedShaderObjectTypeList.getCount l
       + ExtendedShaderObjectTypeList.getCount list_)%Z
  ∧ ExtendedShaderObjectTypeList.at_ (ExtendedShaderObjectTypeList.add l c)
      (ExtendedShaderObjectTypeList.getCount l) = Some c.
Proof.
  rewrite addRange_app. split; [done|]. split.
  - unfold ExtendedShaderObjectTypeList.getCount. rewrite length_app. lia.
  - unfold ExtendedShaderObjectTypeList.at_, ExtendedShaderObjectTypeList.add,
      ExtendedShaderObjectTypeList.getCount.
    destruct (Z.ltb_spec (Z.of_nat (length l)) 0); [lia|].
    rewrite Nat2Z.id. by rewrite list_lookup_middle.
Qed.

(** ** getObject after setObject *)

(** A sub-object stored by [setObject] in a field that only records it is
    what [getObject] returns for the same offset. *)
Theorem getObject_after_setObject `{StdHash} `{Collaborators}
    (fuel : nat) (w : World) (this object : nat) (offset : ShaderOffset.t)
    (obj : ShaderObject.t) (bindingRange : BindingRangeInfo.t) :
  objects w !! this = Some obj →
  notContainer obj →
  setObject_gate this object w = Done SLANG_OK w →
  bindingRangeAt obj offset = Some bindingRange →
  (0 ≤ subObjectIndexOf bindingRange offset
   < Z.of_nat (length (ShaderObject.m_objects obj)))%Z →
  recordsOnly (BindingRangeInfo.bindingType bindingRange) = true →
  ∃ w',
    setObject fuel this offset object w = Done SLANG_OK w'
    ∧ getObject this offset w' = Done (SLANG_OK, Some object) w'.
Proof.
  intros Hthis Hnc Hgate Hrange Hindex Hplain. eexists. split.
  - rewrite (setObject_admitted _ _ _ _ _ obj Hgate Hthis).
    rewrite bool_decide_eq_true_2 by done. cbn [negb].
    by apply setObject_field_stored.
  - set (obj' := ShaderObject.set_objects _ obj).
    rewrite (getObject_valid_range (withObject this obj' w) this offset obj'
               bindingRange (withObject_lookup _ _ _) Hrange).
    assert (ShaderObject.m_objects obj'
              !! Z.to_nat (subObjectIndexOf bindingRange offset)
            = Some (Some object)) as Hstored.
    { subst obj'. simpl. apply list_lookup_insert_eq. lia. }
    by rewrite (bind_Done _ _ _ _ _ (vec_get_Some _ _ _ _ (proj1 Hindex) Hstored)).
Qed.

(** The constant buffer field of the parent, with the small material. *)
Lemma getObject_after_setObject_witness :
  ∃ w',
    @setObject Reference.stdHash Reference.collaborators 0 0 cbOffset 1 paramsWorld
    = Done SLANG_OK w'
    ∧ getObject 0 cbOffset w' = Done (SLANG_OK, Some 1%nat) w'.
Proof.
  apply (@getObject_after_setObject Reference.stdHash Reference.collaborators
           0 paramsWorld 0 1 cbOffset paramsObject cbRange);
    [reflexivity | reflexivity | reflexivity | reflexivity | | reflexivity].
  vm_compute. split; [discriminate | reflexivity].
Defined.

(** ** Conversion of specialization arguments *)

Lemma leadingTypes_all (args : list SpecializationArg.t) :
  forallb isTypeArg args = true →
  leadingTypes args = SpecializationArg.type <$> args.
Proof.
  induction args as [|arg args IH]; [done|]. cbn [forallb leadingTypes fmap list_fmap].
  destruct (isTypeArg arg); [|done]. simpl. intros Hall. by rewrite IH.
Qed.

Section specialization_args.
Context `{StdHash}.

Lemma device_getComponentId_frame (type : string) (w : World) :
  ∃ id w', device_getComponentId type w = Done id w'
           ∧ objects w' = objects w
           ∧ dynamicType (device w') = dynamicType (device w).
Proof.
  unfold device_getComponentId.
  destruct (ShaderCache.getComponentId _ _) as [id cache]. by eexists _, _.
Qed.

Lemma getExtendedShaderTypeListFromSpecializationArgs_run
    (args : list SpecializationArg.t) :
  ∀ (list_ : list ExtendedShaderObjectType) (w : World),
  ∃ out w',
    getExtendedShaderTypeListFromSpecializationArgs list_ args w
    = Done (if forallb isTypeArg args then SLANG_OK else SLANG_FAIL,
            list_ ++ out) w'
    ∧ slangType <$> out = Some <$> leadingTypes args
    ∧ objects w' = objects w
    ∧ dynamicType (device w') = dynamicType (device w).
Proof.
  induction args as [|arg args IH]; intros list_ w;
    cbn [getExtendedShaderTypeListFromSpecializationArgs forallb leadingTypes].
  - exists [], w. by rewrite app_nil_r.
  - unfold isTypeArg at 1 3. destruct (SpecializationArg.kind arg); simpl.
    + exists [], w. by rewrite app_nil_r.
    + destruct (device_getComponentId_frame (SpecializationArg.type arg) w)
        as (id & w1 & Hid & Hobjs1 & Hdyn1).
      rewrite (bind_Done _ _ _ _ _ Hid).
      destruct (IH (ExtendedShaderObjectTypeList.add list_
                      {| slangType := Some (SpecializationArg.type arg);
                         componentID := id |}) w1)
        as (out & w' & Hrun & Hout & Hobjs & Hdyn).
      eexists (_ :: out), w'. split; [|split; [|split]].
      * rewrite Hrun. unfold ExtendedShaderObjectTypeList.add.
        by rewrite <- app_assoc.
      * rewrite !fmap_cons, Hout. done.
      * congruence.
      * congruence.
Qed.

End specialization_args.

(** The function converts the arguments in their order and stops at the
    first one that is not a type: the result is [SLANG_OK] when every
    argument is a type and [SLANG_FAIL] otherwise, the entries the list
    held are kept, one entry is added for each argument before the first
    that is not a type, with the type of that argument, and the objects
    are left as they were. *)
Theorem getExtendedShaderTypeListFromSpecializationArgs_converts_in_order
    `{StdHash} (list_ : list ExtendedShaderObjectType)
    (args : list SpecializationArg.t) (w : World) :
  ∃ out w',
    getExtendedShaderTypeListFromSpecializationArgs list_ args w
    = Done (if forallb isTypeArg args then SLANG_OK else SLANG_FAIL,
            list_ ++ out) w'
    ∧ slangType <$> out = Some <$> leadingTypes args
    ∧ (forallb isTypeArg args = true →
       slangType <$> out = Some <$> (SpecializationArg.type <$> args))
    ∧ objects w' = objects w
    ∧ dynamicType (device w') = dynamicType (device w).
Proof.
  destruct (getExtendedShaderTypeListFromSpecializationArgs_run args list_ w)
    as (out & w' & Hrun & Hout & Hobjs & Hdyn).
  exists out, w'. split; [done|]. split; [done|]. split; [|done].
  intros Hall. by rewrite <- leadingTypes_all.
Qed.

(** ** setSpecializationArgs on a field *)

Lemma userProvidedSpecializationArgs_insert_ne (obj : ShaderObject.t)
    (l : list (option (list ExtendedShaderObjectType))) (i j : nat) x :
  i ≠ j →
  userProvidedSpecializationArgs
    (ShaderObject.set_userProvidedSpecializationArgs (<[i := x]> l) obj)
    (Z.of_nat j)
  = userProvidedSpecializationArgs
      (ShaderObject.set_userProvidedSpecializationArgs l obj) (Z.of_nat j).
Proof.
  intros Hne. unfold userProvidedSpecializationArgs. simpl.
  destruct (Z.ltb_spec (Z.of_nat j) 0); [done|]. rewrite Nat2Z.id.
  by rewrite list_lookup_insert_ne.
Qed.

Lemma userProvidedSpecializationArgs_resize (obj : ShaderObject.t) (n j : nat) :
  (length (ShaderObject.m_userProvidedSpecializationArgs obj) ≤ n)%nat →
  userProvidedSpecializationArgs
    (ShaderObject.set_userProvidedSpecializationArgs
       (resize n None (ShaderObject.m_userProvidedSpecializationArgs obj)) obj)
    (Z.of_nat j)
  = userProvidedSpecializationArgs obj (Z.of_nat j).
Proof.
  intros Hn. unfold userProvidedSpecializationArgs. simpl.
  destruct (Z.ltb_spec (Z.of_nat j) 0); [done|]. rewrite Nat2Z.id.
  set (l := ShaderObject.m_userProvidedSpecializationArgs obj) in *.
  rewrite resize_ge by done.
  destruct (decide (j < length l)%nat) as [Hlt|Hge].
  - by rewrite lookup_app_l.
  - rewrite lookup_app_r by lia. rewrite (lookup_ge_None_2 l) by lia.
    destruct (decide (j - length l < n - length l)%nat).
    + by rewrite lookup_replicate_2.
    + by rewrite lookup_ge_None_2 by (rewrite length_replicate; lia).
Qed.

(** On an object that is not finalized and not a container,
    [setSpecializationArgs] at an offset whose binding range exists
    converts the arguments and stores the list under the sub-object index
    of the offset, in place of any list stored there before.  The result
    is [SLANG_OK] when every argument is a type; otherwise it is
    [SLANG_FAIL], and the entries converted before the offending argument
    have been stored all the same.  The lists of the other sub-object
    indices, the rest of the object and the other objects are as before.
    When a sub-object is bound at the index, the pass of
    [collectSpecializationArgs] over it appends the stored list. *)
Theorem setSpecializationArgs_stores_the_list_collect_returns
    `{StdHash} `{Collaborators}
    (w : World) (this : nat) (obj : ShaderObject.t) (offset : ShaderOffset.t)
    (args : list SpecializationArg.t) (bindingRange : BindingRangeInfo.t) :
  objects w !! this = Some obj →
  ShaderObject.m_state obj ≠ State.Finalized →
  notContainer obj →
  bindingRangeAt obj offset = Some bindingRange →
  (0 ≤ subObjectIndexOf bindingRange offset)%Z →
  ∃ w' list_ userArgs,
    setSpecializationArgs this offset args w
    = Done (if forallb isTypeArg args then SLANG_OK else SLANG_FAIL) w'
    ∧ slangType <$> list_ = Some <$> leadingTypes args
    ∧ objects w' !! this
      = Some (ShaderObject.set_userProvidedSpecializationArgs userArgs obj)
    ∧ userArgs !! Z.to_nat (subObjectIndexOf bindingRange offset)
      = Some (Some list_)
    ∧ (∀ j, j ≠ Z.to_nat (subObjectIndexOf bindingRange offset) →
            userProvidedSpecializationArgs
              (ShaderObject.set_userProvidedSpecializationArgs userArgs obj)
              (Z.of_nat j)
            = userProvidedSpecializationArgs obj (Z.of_nat j))
    ∧ (∀ q, q ≠ this → objects w' !! q = objects w !! q)
    ∧ ∀ (collect : nat → list ExtendedShaderObjectType →
                   M (Result * list ExtendedShaderObjectType))
        (subObject : nat) (oldArgsCount : Z)
        (acc : list ExtendedShaderObjectType),
        ShaderObject.m_objects obj
          !! Z.to_nat (subObjectIndexOf bindingRange offset)
        = Some (Some subObject) →
        collectSpecializationArgs_subObject collect this bindingRange
          oldArgsCount (ShaderOffset.bindingArrayIndex offset) acc w'
        = Done (Again (acc ++ list_)) w'.
Proof.
  intros Hthis Hst Hnc Hrange Hpos.
  apply bindingRangeAt_Some in Hrange as [Hbri Hrange].
  unfold subObjectIndexOf in *.
  set (objectIndex := (BindingRangeInfo.subObjectIndex bindingRange
                       + ShaderOffset.bindingArrayIndex offset)%Z) in *.
  set (old := ShaderObject.m_userProvidedSpecializationArgs obj).
  set (grown := if (Z.of_nat (length old) <=? objectIndex)%Z
                then resize (Z.to_nat (objectIndex + 1)) None old else old).
  destruct (getExtendedShaderTypeListFromSpecializationArgs_run args
              (ExtendedShaderObjectTypeList.clear []) w)
    as (list_ & w1 & Hrun & Hlist & Hobjs & Hdyn).
  assert (objects w1 !! this = Some obj) as Hthis1 by (by rewrite Hobjs).
  assert (Z.to_nat objectIndex < length grown)%nat as Hlen.
  { subst grown. destruct (Z.leb_spec (Z.of_nat (length old)) objectIndex).
    - rewrite length_resize. lia.
    - lia. }
  exists (withObject this
            (ShaderObject.set_userProvidedSpecializationArgs
               (<[Z.to_nat objectIndex := Some list_]> grown) obj) w1),
    list_, (<[Z.to_nat objectIndex := Some list_]> grown).
  split; [|split; [done|split; [apply withObject_lookup|split; [|split; [|split]]]]].
  - unfold setSpecializationArgs.
    rewrite (bind_Done _ _ _ _ _ (get_object_Some _ _ _ Hthis)).
    unfold ShaderObject.isFinalized. rewrite bool_decide_eq_false_2 by done.
    unfold notContainer in Hnc. rewrite bool_decide_eq_true_2 by done.
    cbn [negb].
    destruct (Z.ltb_spec (ShaderOffset.bindingRangeIndex offset) 0); [lia|].
    destruct (Z.leb_spec
                (ShaderObjectLayout.getBindingRangeCount (ShaderObject.m_layout obj))
                (ShaderOffset.bindingRangeIndex offset)); [lia|].
    unfold getBindingRange.
    rewrite (bind_Done _ _ _ _ _ (vec_get_Some _ _ _ _ (proj1 Hbri) Hrange)).
    fold objectIndex. destruct (Z.ltb_spec objectIndex 0); [lia|].
    rewrite (bind_Done _ _ _ _ _ Hrun). cbn [app].
    fold old. fold grown.
    rewrite (bind_Done _ _ _ _ _ (modify_object_Some _ _ _ _ Hthis1)).
    by destruct (forallb isTypeArg args).
  - by apply list_lookup_insert_eq.
  - intros j Hj. rewrite userProvidedSpecializationArgs_insert_ne by done.
    subst grown. destruct (Z.leb_spec (Z.of_nat (length old)) objectIndex).
    + apply userProvidedSpecializationArgs_resize. fold old. lia.
    + by destruct obj.
  - intros q Hq. rewrite withObject_lookup_ne by done. by rewrite Hobjs.
  - intros collect subObject oldArgsCount acc Hbound.
    unfold collectSpecializationArgs_subObject. fold objectIndex.
    rewrite (bind_Done _ _ _ _ _
               (get_object_Some _ _ _ (withObject_lookup _ _ _))).
    cbn [ShaderObject.m_objects ShaderObject.set_userProvidedSpecializationArgs].
    rewrite (bind_Done _ _ _ _ _ (vec_get_Some _ _ _ _ Hpos Hbound)).
    unfold userProvidedSpecializationArgs.
    destruct (Z.ltb_spec objectIndex 0); [lia|].
    unfold ShaderObject.set_userProvidedSpecializationArgs.
    cbn [ShaderObject.m_userProvidedSpecializationArgs].
    rewrite list_lookup_insert_eq by done. by rewrite addRange_app.
Qed.

(** The material field of the parent, with the small material bound in
    it: the argument [B] is stored and is what the pass returns. *)
Lemma setSpecializationArgs_stores_the_list_collect_returns_witness :
  ∃ (w' : World) (list_ : list ExtendedShaderObjectType),
    @setSpecializationArgs Reference.stdHash 0 materialOffset
      [SpecializationArg.mk SpecializationArg.Type_ "B"] materialBoundWorld
    = Done SLANG_OK w'
    ∧ slangType <$> list_ = [Some "B"]
    ∧ @collectSpecializationArgs_subObject Reference.stdHash
        Reference.collaborators
        (@collectSpecializationArgs Reference.stdHash Reference.collaborators 1)
        0 materialRange 0 0 [typeA] w'
      = Done (Again ([typeA] ++ list_)) w'.
Proof.
  destruct (@setSpecializationArgs_stores_the_list_collect_returns
              Reference.stdHash Reference.collaborators materialBoundWorld 0
              (ShaderObject.set_objects [None; Some 1%nat] paramsObject)
              materialOffset
              [SpecializationArg.mk SpecializationArg.Type_ "B"] materialRange)
    as (w' & list_ & userArgs & Hrun & Hlist & _ & _ & _ & _ & Hcollect).
  - reflexivity.
  - discriminate.
  - reflexivity.
  - reflexivity.
  - vm_compute. discriminate.
  - exists w', list_. split; [exact Hrun|]. split; [exact Hlist|].
    apply (Hcollect _ 1%nat). reflexivity.
Defined.

(** ** Hashes of equal keys *)

Lemma PipelineKey_eqb_true (k other : PipelineKey.t) :
  PipelineKey.eqb k other = true ↔
    PipelineKey.pipeline k = PipelineKey.pipeline other ∧
    PipelineKey.specializationArgs k = PipelineKey.specializationArgs other.
Proof.
  unfold PipelineKey.eqb.
  destruct (Nat.eqb_spec (PipelineKey.pipeline k) (PipelineKey.pipeline other))
    as [Hp|Hp]; simpl; [|split; [done | intros [? _]; done]].
  destruct (Nat.eqb_spec (length (PipelineKey.specializationArgs k))
              (length (PipelineKey.specializationArgs other))) as [Hlen|Hlen];
    simpl.
  - rewrite specializationArgs_equal_from_spec by (done || lia).
    rewrite !drop_0. split; [by intros -> | by intros [_ ->]].
  - split; [done | intros [_ Heq]; by rewrite Heq in Hlen].
Qed.

(** Two keys that [operator==] takes for equal are the same key once
    [updateHash] has run on both, whatever their cached hashes were: the
    hasher of the cache then gives them the same hash code, as a hash
    table asks of equal keys.  [updateHash] changes nothing of what is
    compared, and a second [updateHash] changes nothing at all.  A
    pipeline put in the cache under one key is found under every equal
    key with an updated hash. *)
Theorem equal_keys_are_identical_once_hashed `{StdHash} :
  (∀ k other : ComponentKey.t,
     ComponentKey.eqb k other = true →
     ComponentKey.updateHash k = ComponentKey.updateHash other
     ∧ ShaderCache.ComponentKeyHasher (ComponentKey.updateHash k)
       = ShaderCache.ComponentKeyHasher (ComponentKey.updateHash other))
  ∧ (∀ k other : PipelineKey.t,
       PipelineKey.eqb k other = true →
       PipelineKey.updateHash k = PipelineKey.updateHash other
       ∧ ShaderCache.PipelineKeyHasher (PipelineKey.updateHash k)
         = ShaderCache.PipelineKeyHasher (PipelineKey.updateHash other))
  ∧ (∀ k other : ComponentKey.t,
       ComponentKey.eqb (ComponentKey.updateHash k) other
       = ComponentKey.eqb k other
       ∧ ComponentKey.updateHash (ComponentKey.updateHash k)
         = ComponentKey.updateHash k)
  ∧ (∀ k other : PipelineKey.t,
       PipelineKey.eqb (PipelineKey.updateHash k) other
       = PipelineKey.eqb k other
       ∧ PipelineKey.updateHash (PipelineKey.updateHash k)
         = PipelineKey.updateHash k)
  ∧ ∀ (c : ShaderCache.t) (k other : PipelineKey.t) (p : option nat),
      PipelineKey.eqb k other = true →
      ShaderCache.getSpecializedPipeline
        (ShaderCache.addSpecializedPipeline c (PipelineKey.updateHash k) p)
        (PipelineKey.updateHash other)
      = p.
Proof.
  assert (∀ k other : ComponentKey.t,
            ComponentKey.eqb k other = true →
            ComponentKey.updateHash k = ComponentKey.updateHash other) as Hc.
  { intros k other [Hname Hargs]%ComponentKey_eqb_true.
    unfold ComponentKey.updateHash. by rewrite Hname, Hargs. }
  assert (∀ k other : PipelineKey.t,
            PipelineKey.eqb k other = true →
            PipelineKey.updateHash k = PipelineKey.updateHash other) as Hp.
  { intros k other [Hpipeline Hargs]%PipelineKey_eqb_true.
    unfold PipelineKey.updateHash. by rewrite Hpipeline, Hargs. }
  split; [|split; [|split; [|split]]].
  - intros k other Heq. by rewrite (Hc k other Heq).
  - intros k other Heq. by rewrite (Hp k other Heq).
  - intros k other. split; [|done]. by destruct k.
  - intros k other. split; [|done]. by destruct k.
  - intros c k other p Heq. rewrite (Hp k other Heq).
    apply getSpecializedPipeline_added.
Qed.

(** ** finalize: what it changes, and when it fails *)

Lemma finalize_objects_never_fails (finalize_ : nat → M Result) :
  (∀ p w r w', finalize_ p w = Done r w' → ¬ isFinalizedIn w p → r = SLANG_OK) →
  ∀ m_objects w r w',
    finalize_objects finalize_ m_objects w = Done r w' → r = SLANG_OK.
Proof.
  intros Hfinalize m_objects.
  induction m_objects as [|[object|] rest IH]; intros w r w' Hrun;
    cbn [finalize_objects] in Hrun.
  - by injection Hrun as <- <-.
  - apply bind_Done_inv in Hrun as (o & w0 & Hget & Hrun).
    apply get_object_Done_inv in Hget as [-> Hobject].
    destruct (ShaderObject.isFinalized o) eqn:Hfin; cbn [negb] in Hrun.
    + by eapply IH.
    + apply bind_Done_inv in Hrun as (r1 & w1 & Hcall & Hrun).
      assert (r1 = SLANG_OK) as ->.
      { eapply Hfinalize; [exact Hcall|].
        rewrite isFinalizedIn_lookup. intros (o' & Ho' & Hst).
        assert (o' = o) as -> by congruence.
        unfold ShaderObject.isFinalized in Hfin.
        by apply bool_decide_eq_false in Hfin. }
      by eapply IH.
  - by eapply IH.
Qed.

Lemma finalize_fails_only_when_finalized (fuel : nat) :
  ∀ this w r w',
    finalize fuel this w = Done r w' → ¬ isFinalizedIn w this → r = SLANG_OK.
Proof.
  induction fuel as [|fuel IH]; intros this w r w' Hrun Hnot; [done|].
  cbn [finalize] in Hrun.
  apply bind_Done_inv in Hrun as (obj & w0 & Hget & Hrun).
  apply get_object_Done_inv in Hget as [-> Hthis].
  destruct (bool_decide (ShaderObject.m_state obj = State.Finalized)) eqn:Hst.
  { apply bool_decide_eq_true in Hst. destruct Hnot.
    apply isFinalizedIn_lookup. eauto. }
  apply bind_Done_inv in Hrun as (r1 & w1 & Hloop & Hrun).
  assert (r1 = SLANG_OK) as ->
    by (by eapply (finalize_objects_never_fails (finalize fuel) IH)).
  cbn [SLANG_RETURN_ON_FAIL SLANG_FAILED] in Hrun.
  apply bind_Done_inv in Hrun as ([] & w2 & _ & Hrun). by injection Hrun as <- _.
Qed.

(** Whenever [finalize] returns, it has changed nothing but states: the
    device and its cache are as before, no object has come or gone, and
    every object is as it was or differs only in that its state is now
    [Finalized]; data, bound sub-objects and specialization arguments are
    untouched.  It returns [SLANG_OK] on an object that was not finalized,
    which now is; the only failure is [SLANG_FAIL] on an object that was
    finalized already, and then nothing has changed at all. *)
Theorem finalize_changes_only_states (fuel : nat) (w w' : World) (this : nat)
    (r : Result) :
  finalize fuel this w = Done r w' →
  finalizeFrame w w'
  ∧ ((r = SLANG_OK ∧ ¬ isFinalizedIn w this ∧ isFinalizedIn w' this)
     ∨ (r = SLANG_FAIL ∧ isFinalizedIn w this ∧ w' = w)).
Proof.
  intros Hrun.
  destruct (finalize_spec fuel this w r w' Hrun) as [[Hframe _] Hok].
  split; [done|].
  destruct fuel as [|fuel]; [done|]. pose proof Hrun as Hrun'.
  cbn [finalize] in Hrun'.
  apply bind_Done_inv in Hrun' as (obj & w0 & Hget & Hrun').
  apply get_object_Done_inv in Hget as [-> Hthis].
  destruct (bool_decide (ShaderObject.m_state obj = State.Finalized)) eqn:Hst.
  - apply bool_decide_eq_true in Hst. injection Hrun' as <- <-. right.
    split; [done|]. split; [|done]. apply isFinalizedIn_lookup. eauto.
  - apply bool_decide_eq_false in Hst.
    assert (¬ isFinalizedIn w this) as Hnot.
    { rewrite isFinalizedIn_lookup. intros (o & Ho & Hfin).
      assert (o = obj) as -> by congruence. done. }
    assert (r = SLANG_OK) as ->
      by (by eapply finalize_fails_only_when_finalized).
    left. split; [done|]. split; [done|]. by apply Hok.
Qed.

(** The parent with the small material bound. *)
Lemma finalize_changes_only_states_witness :
  finalizeFrame boundWorld finalizedWorld
  ∧ ((SLANG_OK = SLANG_OK ∧ ¬ isFinalizedIn boundWorld 0
      ∧ isFinalizedIn finalizedWorld 0)
     ∨ (SLANG_OK = SLANG_FAIL ∧ isFinalizedIn boundWorld 0
        ∧ finalizedWorld = boundWorld)).
Proof.
  apply (finalize_changes_only_states 2 boundWorld finalizedWorld 0 SLANG_OK).
  vm_compute. reflexivity.
Defined.

(** ** finalize on an object bound in itself *)

Lemma bind_OutOfFuel {A B} (m : M A) (k : A → M B) w :
  m w = OutOfFuel → bind m k w = OutOfFuel.
Proof. unfold bind. by intros ->. Qed.

Lemma finalize_objects_skips (finalize_ : nat → M Result)
    (before rest : list (option nat)) (w : World) :
  Forall (λ e, ∀ q, e = Some q → isFinalizedIn w q) before →
  finalize_objects finalize_ (before ++ rest) w
  = finalize_objects finalize_ rest w.
Proof.
  induction before as [|[q|] before IH]; intros Hbefore; [done| |];
    apply Forall_cons in Hbefore as [Hq Hbefore];
    cbn [app finalize_objects]; [|by apply IH].
  destruct (proj1 (isFinalizedIn_lookup w q) (Hq q eq_refl)) as (o & Ho & Hst).
  rewrite (bind_Done _ _ _ _ _ (get_object_Some _ _ _ Ho)).
  unfold ShaderObject.isFinalized. rewrite bool_decide_eq_true_2 by done.
  by apply IH.
Qed.

Lemma finalize_self_bound (fuel : nat) (w : World)
    (this : nat) (obj : ShaderObject.t) (before after : list (option nat)) :
  objects w !! this = Some obj →
  ShaderObject.m_state obj ≠ State.Finalized →
  ShaderObject.m_objects obj = before ++ Some this :: after →
  Forall (λ e, ∀ q, e = Some q → isFinalizedIn w q) before →
  finalize fuel this w = OutOfFuel.
Proof.
  intros Hthis Hst Hobjects Hbefore.
  induction fuel as [|fuel IH]; [done|]. cbn [finalize].
  rewrite (bind_Done _ _ _ _ _ (get_object_Some _ _ _ Hthis)).
  rewrite bool_decide_eq_false_2 by done.
  apply bind_OutOfFuel.
  rewrite Hobjects, finalize_objects_skips by done.
  cbn [finalize_objects].
  rewrite (bind_Done _ _ _ _ _ (get_object_Some _ _ _ Hthis)).
  unfold ShaderObject.isFinalized. rewrite bool_decide_eq_false_2 by done.
  cbn [negb]. by apply bind_OutOfFuel.
Qed.

(** Nothing in [setObject] keeps an object from being bound into itself:
    on an object in state [Initial] that is not a container, the call
    with the object itself as the sub-object, into a field that only
    records it, returns [SLANG_OK].  When the sub-objects bound before
    that field are finalized, [finalize] on the object then never
    returns: the call calls itself on the same object in the same world,
    whatever the budget of calls. *)
Theorem setObject_into_itself_then_finalize_never_returns
    `{StdHash} `{Collaborators}
    (fuel : nat) (w : World) (this : nat) (offset : ShaderOffset.t)
    (obj : ShaderObject.t) (bindingRange : BindingRangeInfo.t) :
  objects w !! this = Some obj →
  ShaderObject.m_state obj = State.Initial →
  notContainer obj →
  bindingRangeAt obj offset = Some bindingRange →
  (0 ≤ subObjectIndexOf bindingRange offset
   < Z.of_nat (length (ShaderObject.m_objects obj)))%Z →
  recordsOnly (BindingRangeInfo.bindingType bindingRange) = true →
  Forall (λ e, ∀ q, e = Some q → isFinalizedIn w q)
    (take (Z.to_nat (subObjectIndexOf bindingRange offset))
       (ShaderObject.m_objects obj)) →
  ∃ w',
    setObject fuel this offset this w = Done SLANG_OK w'
    ∧ ∀ fuel', finalize fuel' this w' = OutOfFuel.
Proof.
  intros Hthis Hst Hnc Hrange Hindex Hplain Hbefore.
  set (index := Z.to_nat (subObjectIndexOf bindingRange offset)) in *.
  set (obj' := ShaderObject.set_objects
                 (<[index := Some this]> (ShaderObject.m_objects obj)) obj).
  exists (withObject this obj' w). split.
  - rewrite (setObject_admitted _ _ _ _ _ obj
               (setObject_gate_Initial _ _ _ _ Hthis Hst) Hthis).
    rewrite bool_decide_eq_true_2 by done. cbn [negb].
    by apply setObject_field_stored.
  - intros fuel'.
    apply (finalize_self_bound fuel' _ this obj'
             (take index (ShaderObject.m_objects obj))
             (drop (S index) (ShaderObject.m_objects obj))).
    + apply withObject_lookup.
    + subst obj'. simpl. by rewrite Hst.
    + subst obj'. simpl. apply insert_take_drop. subst index. lia.
    + eapply Forall_impl; [exact Hbefore|]. intros e He q ->.
      specialize (He q eq_refl). unfold isFinalizedIn, stateOf in *.
      rewrite withObject_lookup_ne; [done|]. intros <-.
      rewrite Hthis in He. simpl in He. by rewrite Hst in He.
Qed.

(** The parent, bound into its own first field. *)
Lemma setObject_into_itself_then_finalize_never_returns_witness :
  ∃ w',
    @setObject Reference.stdHash Reference.collaborators 0 0 cbOffset 0 paramsWorld
    = Done SLANG_OK w'
    ∧ ∀ fuel', finalize fuel' 0 w' = OutOfFuel.
Proof.
  apply (@setObject_into_itself_then_finalize_never_returns
           Reference.stdHash Reference.collaborators 0 paramsWorld 0 cbOffset
           paramsObject cbRange);
    [reflexivity | reflexivity | reflexivity | reflexivity | | reflexivity |].
  - vm_compute. split; [discriminate | reflexivity].
  - constructor.
Defined.

(** ** setObject and the other slots *)

(** A sub-object stored by [setObject] in a field that only records it
    leaves what [getObject] answers for every other slot as it was: the
    sub-object found there before is found there again, and a slot that
    was empty or outside [m_objects], for which [getObject] is undefined,
    stays so. *)
Theorem setObject_leaves_the_other_slots `{StdHash} `{Collaborators}
    (fuel : nat) (w : World) (this object : nat)
    (offset other : ShaderOffset.t) (obj : ShaderObject.t)
    (bindingRange otherRange : BindingRangeInfo.t) :
  objects w !! this = Some obj →
  notContainer obj →
  setObject_gate this object w = Done SLANG_OK w →
  bindingRangeAt obj offset = Some bindingRange →
  (0 ≤ subObjectIndexOf bindingRange offset
   < Z.of_nat (length (ShaderObject.m_objects obj)))%Z →
  recordsOnly (BindingRangeInfo.bindingType bindingRange) = true →
  bindingRangeAt obj other = Some otherRange →
  subObjectIndexOf otherRange other ≠ subObjectIndexOf bindingRange offset →
  ∃ w',
    setObject fuel this offset object w = Done SLANG_OK w'
    ∧ getObject this other w'
      = match getObject this other w with
        | Done r _ => Done r w'
        | Undefined => Undefined
        | OutOfFuel => OutOfFuel
        end.
Proof.
  intros Hthis Hnc Hgate Hrange Hindex Hplain Hother Hne.
  set (obj' := ShaderObject.set_objects
                 (<[Z.to_nat (subObjectIndexOf bindingRange offset)
                    := Some object]> (ShaderObject.m_objects obj)) obj).
  exists (withObject this obj' w). split.
  - rewrite (setObject_admitted _ _ _ _ _ obj Hgate Hthis).
    rewrite bool_decide_eq_true_2 by done. cbn [negb].
    by apply setObject_field_stored.
  - rewrite (getObject_valid_range (withObject this obj' w) this other obj'
               otherRange (withObject_lookup _ _ _) Hother).
    rewrite (getObject_valid_range w this other obj otherRange Hthis Hother).
    unfold bind, vec_get.
    destruct (Z.ltb_spec (subObjectIndexOf otherRange other) 0); [done|].
    subst obj'. cbn [ShaderObject.m_objects ShaderObject.set_objects].
    rewrite list_lookup_insert_ne by lia.
    by destruct (ShaderObject.m_objects obj
                   !! Z.to_nat (subObjectIndexOf otherRange other))
      as [[p|]|].
Qed.

(** The small material goes into the first field of the parent; the
    material field, in which nothing is bound, stays undefined. *)
Lemma setObject_leaves_the_other_slots_witness :
  ∃ w',
    @setObject Reference.stdHash Reference.collaborators 0 0 cbOffset 1 paramsWorld
    = Done SLANG_OK w'
    ∧ getObject 0 materialOffset w'
      = match getObject 0 materialOffset paramsWorld with
        | Done r _ => Done r w'
        | Undefined => Undefined
        | OutOfFuel => OutOfFuel
        end.
Proof.
  apply (@setObject_leaves_the_other_slots Reference.stdHash
           Reference.collaborators 0 paramsWorld 0 1 cbOffset materialOffset
           paramsObject cbRange materialRange);
    [reflexivity | reflexivity | reflexivity | reflexivity | | reflexivity
    | reflexivity | ].
  - vm_compute. split; [discriminate | reflexivity].
  - vm_compute. discriminate.
Defined.

(** ** collectSpecializationArgs extends its argument *)

Section collect_extends.
Context `{StdHash} `{Collaborators}.

Lemma collectSpecializationArgs_merge_keeps (n : nat) :
  ∀ i oldArgsCount (args typeArgs out : list ExtendedShaderObjectType) w w',
    collectSpecializationArgs_merge n i oldArgsCount args typeArgs w
    = Done out w' →
    length out = length args
    ∧ take oldArgsCount out = take oldArgsCount args.
Proof.
  induction n as [|n IH]; intros i oldArgsCount args typeArgs out w w' Hrun;
    cbn [collectSpecializationArgs_merge] in Hrun.
  - by injection Hrun as <- <-.
  - destruct (args !! (i + oldArgsCount)%nat) as [mine|]; [|done].
    destruct (typeArgs !! i) as [theirs|]; [|done].
    destruct (negb (componentID mine =? componentID theirs)%Z).
    + apply bind_Done_inv in Hrun as (dev & w1 & _ & Hrun).
      apply bind_Done_inv in Hrun as (id & w2 & _ & Hrun).
      destruct (IH _ _ _ _ _ _ _ Hrun) as [Hlen Htake].
      rewrite length_insert in Hlen. split; [done|].
      rewrite Htake. apply take_insert_ge. lia.
    + by eapply IH.
Qed.

Lemma collectSpecializationArgs_subObject_keeps
    (collect : nat → list ExtendedShaderObjectType →
               M (Result * list ExtendedShaderObjectType))
    (this : nat) (bindingRange : BindingRangeInfo.t)
    (oldArgsCount subObjectIndexInRange : Z)
    (args : list ExtendedShaderObjectType) w step w' :
  (Z.to_nat oldArgsCount ≤ length args)%nat →
  collectSpecializationArgs_subObject collect this bindingRange oldArgsCount
    subObjectIndexInRange args w = Done step w' →
  match step with
  | Again args' | Return (_, args') =>
      (length args ≤ length args')%nat
      ∧ take (Z.to_nat oldArgsCount) args' = take (Z.to_nat oldArgsCount) args
  end.
Proof.
  intros Hold Hrun. unfold collectSpecializationArgs_subObject in Hrun.
  apply bind_Done_inv in Hrun as (obj & w1 & _ & Hrun).
  apply bind_Done_inv in Hrun as (subObject & w2 & _ & Hrun).
  destruct subObject as [subObject|]; [|by injection Hrun as <- _].
  destruct (userProvidedSpecializationArgs obj _) as [list_|].
  { injection Hrun as <- _. rewrite addRange_app, length_app.
    split; [lia|]. by rewrite take_app_le. }
  apply bind_Done_inv in Hrun as ([r typeArgs] & w3 & _ & Hrun).
  destruct (SLANG_FAILED r); [by injection Hrun as <- _|].
  destruct (_ =? 0)%Z.
  { injection Hrun as <- _. rewrite addRange_app, length_app.
    split; [lia|]. by rewrite take_app_le. }
  apply bind_Done_inv in Hrun as (args' & w4 & Hmerge & Hrun).
  injection Hrun as <- _.
  destruct (collectSpecializationArgs_merge_keeps _ _ _ _ _ _ _ _ Hmerge)
    as [Hlen Htake].
  split; [lia | done].
Qed.

Lemma collectSpecializationArgs_range_keeps
    (collect : nat → list ExtendedShaderObjectType →
               M (Result * list ExtendedShaderObjectType))
    (this : nat) (bindingRange : BindingRangeInfo.t) (oldArgsCount : Z)
    (n : nat) :
  ∀ subObjectIndexInRange (args : list ExtendedShaderObjectType) w step w',
    (Z.to_nat oldArgsCount ≤ length args)%nat →
    collectSpecializationArgs_range collect this bindingRange oldArgsCount n
      subObjectIndexInRange args w = Done step w' →
    match step with
    | Again args' | Return (_, args') =>
        (length args ≤ length args')%nat
        ∧ take (Z.to_nat oldArgsCount) args' = take (Z.to_nat oldArgsCount) args
    end.
Proof.
  induction n as [|n IH]; intros index args w step w' Hold Hrun;
    cbn [collectSpecializationArgs_range] in Hrun.
  - by injection Hrun as <- _.
  - apply bind_Done_inv in Hrun as (step1 & w1 & Hbody & Hrun).
    pose proof (collectSpecializationArgs_subObject_keeps _ _ _ _ _ _ _ _ _
                  Hold Hbody) as Hstep1.
    destruct step1 as [[r1 args1]|args1].
    + by injection Hrun as <- _.
    + destruct Hstep1 as [Hlen1 Htake1].
      apply IH in Hrun as Hstep; [|lia].
      destruct step as [[r2 args2]|args2]; destruct Hstep as [Hlen2 Htake2];
        (split; [lia | congruence]).
Qed.

Lemma collectSpecializationArgs_ranges_keeps
    (collect : nat → list ExtendedShaderObjectType →
               M (Result * list ExtendedShaderObjectType))
    (this : nat) (layout : ShaderObjectLayout.t)
    (subObjectRanges : list SubObjectRangeInfo.t) :
  ∀ (args : list ExtendedShaderObjectType) w r out w',
    collectSpecializationArgs_ranges collect this layout subObjectRanges args w
    = Done (r, out) w' →
    args `prefix_of` out.
Proof.
  induction subObjectRanges as [|subObjectRange rest IH];
    intros args w r out w' Hrun;
    cbn [collectSpecializationArgs_ranges] in Hrun.
  - by injection Hrun as _ <- _.
  - apply bind_Done_inv in Hrun as (bindingRange & w1 & _ & Hrun).
    apply bind_Done_inv in Hrun as (step & w2 & Hrange & Hrun).
    apply collectSpecializationArgs_range_keeps in Hrange;
      [|unfold ExtendedShaderObjectTypeList.getCount; lia].
    unfold ExtendedShaderObjectTypeList.getCount in Hrange.
    rewrite Nat2Z.id, firstn_all in Hrange.
    assert (∀ args', take (length args) args' = args → args `prefix_of` args')
      as Hprefix.
    { intros args' Htake. exists (drop (length args) args').
      by rewrite <- Htake at 1; rewrite take_drop. }
    destruct step as [[r1 args1]|args1]; destruct Hrange as [_ Htake].
    + injection Hrun as _ <- _. by apply Hprefix.
    + etrans; [by apply Hprefix | by eapply IH].
Qed.

End collect_extends.

(** [collectSpecializationArgs] appends to the list it is given, on every
    path on which it returns, a failure included: the entries the list
    held at the call are the first entries of the list afterwards, in
    their order.  The merge with the dynamic type only rewrites entries the
    call itself has added. *)
Theorem collectSpecializationArgs_keeps_what_it_was_given
    `{StdHash} `{Collaborators}
    (fuel : nat) (this : nat) (args out : list ExtendedShaderObjectType)
    (w w' : World) (r : Result) :
  collectSpecializationArgs fuel this args w = Done (r, out) w' →
  args `prefix_of` out.
Proof.
  destruct fuel as [|fuel]; [done|]. cbn [collectSpecializationArgs].
  intros Hrun. apply bind_Done_inv in Hrun as (obj & w1 & _ & Hrun).
  destruct (negb _).
  - injection Hrun as _ <- _. rewrite addRange_app. by apply prefix_app_r.
  - by eapply collectSpecializationArgs_ranges_keeps.
Qed.

(** With the argument [B] set for the material field, a list that holds
    [A] comes back as [A; B]. *)
Lemma collectSpecializationArgs_keeps_what_it_was_given_witness :
  [typeA] `prefix_of` [typeA; typeB].
Proof.
  apply (@collectSpecializationArgs_keeps_what_it_was_given
           Reference.stdHash Reference.collaborators 2 0 [typeA] [typeA; typeB]
           userArgsWorld userArgsWorld SLANG_OK).
  vm_compute. reflexivity.
Defined.

(** ** Where the user's list stands *)

Section user_args_stand.
Context `{StdHash} `{Collaborators}.
Context (this : nat) (obj : ShaderObject.t).
Context (Hframe : ∀ p w r w',
           getSpecializedShaderObjectType p w = Done r w' →
           hasBindingsOf w this obj → hasBindingsOf w' this obj).

Lemma hasBindingsOf_objects (w w' : World) :
  objects w' = objects w → hasBindingsOf w this obj → hasBindingsOf w' this obj.
Proof. unfold hasBindingsOf. by intros ->. Qed.

Lemma vec_get_Done_inv {A} (v : list A) (index : Z) x w w' :
  vec_get v index w = Done x w' → w' = w.
Proof.
  unfold vec_get. destruct (index <? 0)%Z; [done|].
  destruct (v !! Z.to_nat index); [|done]. by intros [= _ <-].
Qed.

Lemma collectSpecializationArgs_merge_bindings (n : nat) :
  ∀ i oldArgsCount (args typeArgs out : list ExtendedShaderObjectType) w w',
    collectSpecializationArgs_merge n i oldArgsCount args typeArgs w
    = Done out w' →
    hasBindingsOf w this obj → hasBindingsOf w' this obj.
Proof.
  induction n as [|n IH]; intros i oldArgsCount args typeArgs out w w' Hrun;
    cbn [collectSpecializationArgs_merge] in Hrun.
  - by injection Hrun as _ <-.
  - destruct (args !! (i + oldArgsCount)%nat) as [mine|]; [|done].
    destruct (typeArgs !! i) as [theirs|]; [|done].
    destruct (negb (componentID mine =? componentID theirs)%Z);
      [|by eapply IH].
    apply bind_Done_inv in Hrun as (dev & w1 & Hdev & Hrun).
    injection Hdev as <- <-.
    apply bind_Done_inv in Hrun as (id & w2 & Hid & Hrun).
    destruct (device_getComponentId_frame (dynamicType (device w)) w)
      as (id' & w2' & Hid' & Hobjects & _).
    rewrite Hid' in Hid. injection Hid as <- <-.
    intros Hw. apply (hasBindingsOf_objects _ _ Hobjects) in Hw.
    by eapply IH.
Qed.

Section with_collect.
Context (collect : nat → list ExtendedShaderObjectType →
                   M (Result * list ExtendedShaderObjectType)).
Context (Hcollect : ∀ p a w r w',
           collect p a w = Done r w' →
           hasBindingsOf w this obj → hasBindingsOf w' this obj).

Lemma collectSpecializationArgs_derive_bindings
    (bindingRange : BindingRangeInfo.t) (subObject : nat) w r w' :
  collectSpecializationArgs_derive collect bindingRange subObject w
  = Done r w' →
  hasBindingsOf w this obj → hasBindingsOf w' this obj.
Proof.
  unfold collectSpecializationArgs_derive. intros Hrun Hw.
  assert (∀ typeArgs : list ExtendedShaderObjectType,
            (if BindingRangeInfo.isSpecializable bindingRange
             then
               bind (getSpecializedShaderObjectType subObject)
                 (λ '(r, specializedSubObjType),
                    if SLANG_FAILED r then ret (r, typeArgs)
                    else collect subObject
                           (ExtendedShaderObjectTypeList.add typeArgs
                              specializedSubObjType))
             else collect subObject typeArgs) w = Done r w' →
            hasBindingsOf w' this obj) as Hblock.
  { intros typeArgs Hblock.
    destruct (BindingRangeInfo.isSpecializable bindingRange);
      [|by eapply Hcollect].
    apply bind_Done_inv in Hblock as ([r0 type0] & w1 & Htype & Hblock).
    apply (Hframe _ _ _ _ Htype) in Hw.
    destruct (SLANG_FAILED r0); [by injection Hblock as _ <-|].
    by eapply Hcollect. }
  destruct (BindingRangeInfo.bindingType bindingRange);
    try (by injection Hrun as _ <-); try (by eapply Hblock).
  apply bind_Done_inv in Hrun as ([r0 type0] & w1 & Htype & Hrun).
  apply (Hframe _ _ _ _ Htype) in Hw.
  by destruct (SLANG_FAILED r0); injection Hrun as _ <-.
Qed.

Lemma collectSpecializationArgs_subObject_bindings
    (receiver : nat) (bindingRange : BindingRangeInfo.t)
    (oldArgsCount subObjectIndexInRange : Z)
    (args : list ExtendedShaderObjectType) w step w' :
  collectSpecializationArgs_subObject collect receiver bindingRange
    oldArgsCount subObjectIndexInRange args w = Done step w' →
  (hasBindingsOf w this obj → hasBindingsOf w' this obj)
  ∧ ∀ r out, step = Return (r, out) → SLANG_FAILED r = true.
Proof.
  intros Hrun. unfold collectSpecializationArgs_subObject in Hrun.
  apply bind_Done_inv in Hrun as (obj0 & w1 & Hobj & Hrun).
  apply get_object_Done_inv in Hobj as [-> _].
  apply bind_Done_inv in Hrun as (subObject & w2 & Hsub & Hrun).
  apply vec_get_Done_inv in Hsub as ->.
  destruct subObject as [subObject|]; [|by injection Hrun as <- <-].
  destruct (userProvidedSpecializationArgs obj0 _) as [list_|];
    [by injection Hrun as <- <-|].
  apply bind_Done_inv in Hrun as ([r typeArgs] & w3 & Hderive & Hrun).
  pose proof (collectSpecializationArgs_derive_bindings _ _ _ _ _ Hderive)
    as Hderive'.
  destruct (SLANG_FAILED r) eqn:Hr.
  { injection Hrun as <- <-. split; [done|]. by intros ? ? [= <- _]. }
  destruct (_ =? 0)%Z; [by injection Hrun as <- <-|].
  apply bind_Done_inv in Hrun as (args' & w4 & Hmerge & Hrun).
  pose proof (collectSpecializationArgs_merge_bindings _ _ _ _ _ _ _ _ Hmerge)
    as Hmerge'.
  injection Hrun as <- <-. split; [|done].
  intros Hw. by apply Hmerge', Hderive'.
Qed.

Lemma collectSpecializationArgs_range_bindings
    (receiver : nat) (bindingRange : BindingRangeInfo.t) (oldArgsCount : Z)
    (n : nat) :
  ∀ subObjectIndexInRange (args : list ExtendedShaderObjectType) w step w',
    collectSpecializationArgs_range collect receiver bindingRange
      oldArgsCount n subObjectIndexInRange args w = Done step w' →
    (hasBindingsOf w this obj → hasBindingsOf w' this obj)
    ∧ ∀ r out, step = Return (r, out) → SLANG_FAILED r = true.
Proof.
  induction n as [|n IH]; intros index args w step w' Hrun;
    cbn [collectSpecializationArgs_range] in Hrun.
  - by injection Hrun as <- <-.
  - apply bind_Done_inv in Hrun as (step1 & w1 & Hbody & Hrun).
    apply collectSpecializationArgs_subObject_bindings in Hbody
      as [Hbindings Hfailed].
    destruct step1 as [[r1 args1]|args1].
    + injection Hrun as <- <-. split; [done|].
      intros ? ? [= <- <-]. by eapply Hfailed.
    + apply IH in Hrun as [Hbindings' Hfailed']. split; [|done].
      intros Hw. by apply Hbindings', Hbindings.
Qed.

Lemma collectSpecializationArgs_ranges_bindings
    (receiver : nat) (layout : ShaderObjectLayout.t)
    (subObjectRanges : list SubObjectRangeInfo.t) :
  ∀ (args : list ExtendedShaderObjectType) w r w',
    collectSpecializationArgs_ranges collect receiver layout subObjectRanges
      args w = Done r w' →
    hasBindingsOf w this obj → hasBindingsOf w' this obj.
Proof.
  induction subObjectRanges as [|subObjectRange rest IH];
    intros args w r w' Hrun;
    cbn [collectSpecializationArgs_ranges] in Hrun.
  - by injection Hrun as _ <-.
  - apply bind_Done_inv in Hrun as (bindingRange & w1 & Hrange & Hrun).
    apply vec_get_Done_inv in Hrange as ->.
    apply bind_Done_inv in Hrun as (step & w2 & Hloop & Hrun).
    apply collectSpecializationArgs_range_bindings in Hloop as [Hbindings _].
    destruct step as [r1|args1].
    + injection Hrun as _ <-. done.
    + intros Hw. by apply (IH _ _ _ _ Hrun), Hbindings.
Qed.

(** What the loop reads of the receiver is the same for two objects with
    the same bindings. *)
Lemma sameBindings_userArgs (obj' : ShaderObject.t)
    (bindingRange : BindingRangeInfo.t) :
  sameBindings obj obj' →
  userArgsOrNothingAt obj' bindingRange = userArgsOrNothingAt obj bindingRange
  ∧ userArgsOfSubObject obj' bindingRange
    = userArgsOfSubObject obj bindingRange.
Proof.
  intros (Hlayout & Hobjects & Huser).
  unfold userArgsOrNothingAt, userArgsOfSubObject, subObjectAt, userArgsAt,
    userProvidedSpecializationArgs.
  by rewrite Hobjects, Huser.
Qed.

(** The loop over a binding range, when it comes to an index [i + j]
    that holds a sub-object with the user's list [list_] and no later
    index of the range holds a sub-object without one. *)
Lemma collectSpecializationArgs_range_stand
    (subObject : nat) (bindingRange : BindingRangeInfo.t) (oldArgsCount : Z)
    (list_ : list ExtendedShaderObjectType) (j : nat) :
  ∀ (n i : nat) (args out : list ExtendedShaderObjectType) w w',
    hasBindingsOf w this obj →
    (Z.to_nat oldArgsCount ≤ length args)%nat →
    (j < n)%nat →
    subObjectAt obj bindingRange (i + j) = Some (Some subObject) →
    userArgsAt obj bindingRange (i + j) = Some list_ →
    forallb (userArgsOrNothingAt obj bindingRange)
      (seq (S (i + j)) (n - S j)) = true →
    collectSpecializationArgs_range collect this bindingRange oldArgsCount n
      (Z.of_nat i) args w = Done (Again out) w' →
    ∃ before,
      out = before ++ list_
            ++ (seq (S (i + j)) (n - S j)
                  ≫= userArgsOfSubObject obj bindingRange)
      ∧ take (Z.to_nat oldArgsCount) before = take (Z.to_nat oldArgsCount) args
      ∧ hasBindingsOf w' this obj.
Proof.
  induction j as [|j IH];
    intros n i args out w w' Hw Hold Hn Hbound Huser Hlater Hrun;
    (destruct n as [|n]; [lia|]);
    cbn [collectSpecializationArgs_range] in Hrun.
  - rewrite Nat.add_0_r in *. cbn [Nat.sub] in *. rewrite Nat.sub_0_r in *.
    destruct Hw as (obj' & Hthis & Hsame).
    destruct (sameBindings_userArgs _ bindingRange Hsame) as [Htest Hlists].
    assert (userArgsOrNothingAt obj' bindingRange i = true) as Hi.
    { rewrite Htest. unfold userArgsOrNothingAt. by rewrite Hbound, Huser. }
    rewrite <- Htest in Hlater.
    rewrite (bind_Done _ _ _ _ _
               (collectSpecializationArgs_subObject_userArgs collect _ _ _
                  Hthis _ oldArgsCount _ args Hi)) in Hrun.
    replace (Z.of_nat i + 1)%Z with (Z.of_nat (S i)) in Hrun by lia.
    rewrite (collectSpecializationArgs_range_userArgs collect _ _ _ Hthis
               _ _ _ _ _ Hlater) in Hrun.
    injection Hrun as <- <-. exists args. rewrite Hlists.
    split; [|split; [done | by exists obj']].
    unfold userArgsOfSubObject. rewrite Hbound, Huser. cbn [default].
    by rewrite app_assoc.
  - apply bind_Done_inv in Hrun as (step1 & w1 & Hbody & Hrun).
    pose proof (collectSpecializationArgs_subObject_keeps _ _ _ _ _ _ _ _ _
                  Hold Hbody) as Hkeeps.
    apply collectSpecializationArgs_subObject_bindings in Hbody
      as [Hbindings _].
    destruct step1 as [r1|args1]; [done|]. destruct Hkeeps as [Hlen Htake].
    replace (Z.of_nat i + 1)%Z with (Z.of_nat (S i)) in Hrun by lia.
    replace (i + S j)%nat with (S i + j)%nat in * by lia.
    cbn [Nat.sub] in Hlater.
    destruct (IH n (S i) args1 out w1 w') as (before & Hout & Htake' & Hw');
      [by apply Hbindings | lia | lia | done | done | done | done |].
    exists before. split; [done|]. split; [congruence | done].
Qed.

Lemma collectSpecializationArgs_ranges_stand
    (subObject : nat) (subObjectRange : SubObjectRangeInfo.t)
    (bindingRange : BindingRangeInfo.t) (j : nat)
    (list_ : list ExtendedShaderObjectType)
    (post : list SubObjectRangeInfo.t) :
  bindingRangeOf obj subObjectRange = Some bindingRange →
  (j < Z.to_nat (BindingRangeInfo.count bindingRange))%nat →
  subObjectAt obj bindingRange j = Some (Some subObject) →
  userArgsAt obj bindingRange j = Some list_ →
  forallb (userArgsOrNothingAt obj bindingRange)
    (seq (S j) (Z.to_nat (BindingRangeInfo.count bindingRange) - S j)) = true →
  ∀ (pre : list SubObjectRangeInfo.t)
    (args out : list ExtendedShaderObjectType) w w',
    hasBindingsOf w this obj →
    collectSpecializationArgs_ranges collect this (ShaderObject.m_layout obj)
      (pre ++ subObjectRange :: post) args w = Done (SLANG_OK, out) w' →
    ∃ before after,
      out = before ++ list_ ++ after ∧ args `prefix_of` before.
Proof.
  intros Hrange Hj Hbound Huser Hlater.
  assert (∀ args args' : list ExtendedShaderObjectType,
            take (length args) args' = args → args `prefix_of` args')
    as Hprefix.
  { intros args args' Htake. exists (drop (length args) args').
    by rewrite <- Htake at 1; rewrite take_drop. }
  induction pre as [|subObjectRange0 pre IH]; intros args out w w' Hw Hrun;
    cbn [app collectSpecializationArgs_ranges] in Hrun.
  - unfold bindingRangeOf in Hrange. unfold getBindingRange, vec_get in Hrun.
    destruct (_ <? 0)%Z; [done|]. rewrite Hrange in Hrun.
    unfold bind at 1 in Hrun. unfold ret at 1 in Hrun.
    apply bind_Done_inv in Hrun as (step & w2 & Hloop & Hrun).
    destruct step as [r1|args1].
    { unfold ret in Hrun. injection Hrun as -> _.
      apply collectSpecializationArgs_range_bindings in Hloop as [_ Hfailed].
      by specialize (Hfailed _ _ eq_refl). }
    apply (collectSpecializationArgs_range_stand subObject _ _
             list_ j _ 0%nat) in Hloop
      as (before & -> & Htake & Hw');
      [|done|unfold ExtendedShaderObjectTypeList.getCount; lia|done..].
    unfold ExtendedShaderObjectTypeList.getCount in Htake.
    rewrite Nat2Z.id, firstn_all in Htake.
    apply collectSpecializationArgs_ranges_keeps in Hrun as [after ->].
    exists before, ((seq (S j) (Z.to_nat (BindingRangeInfo.count bindingRange)
                                - S j)
                       ≫= userArgsOfSubObject obj bindingRange) ++ after).
    split; [by rewrite <- !app_assoc | by apply Hprefix].
  - apply bind_Done_inv in Hrun as (bindingRange0 & w1 & Hrange0 & Hrun).
    apply vec_get_Done_inv in Hrange0 as ->.
    apply bind_Done_inv in Hrun as (step & w2 & Hloop & Hrun).
    pose proof Hloop as Hkeeps.
    apply collectSpecializationArgs_range_keeps in Hkeeps;
      [|unfold ExtendedShaderObjectTypeList.getCount; lia].
    apply collectSpecializationArgs_range_bindings in Hloop
      as [Hbindings Hfailed].
    destruct step as [r1|args1].
    { unfold ret in Hrun. injection Hrun as -> _.
      by specialize (Hfailed _ _ eq_refl). }
    destruct Hkeeps as [_ Htake].
    unfold ExtendedShaderObjectTypeList.getCount in Htake.
    rewrite Nat2Z.id, firstn_all in Htake.
    destruct (IH args1 out w2 w') as (before & after & -> & Hbefore);
      [by apply Hbindings | done |].
    exists before, after. split; [done|].
    etrans; [by apply Hprefix | done].
Qed.

End with_collect.

Lemma collectSpecializationArgs_bindings (fuel : nat) :
  ∀ (receiver : nat) (args : list ExtendedShaderObjectType) w r w',
    collectSpecializationArgs fuel receiver args w = Done r w' →
    hasBindingsOf w this obj → hasBindingsOf w' this obj.
Proof.
  induction fuel as [|fuel IH]; intros receiver args w r w' Hrun; [done|].
  cbn [collectSpecializationArgs] in Hrun.
  apply bind_Done_inv in Hrun as (obj0 & w1 & Hobj & Hrun).
  apply get_object_Done_inv in Hobj as [-> _].
  destruct (negb _); [by injection Hrun as _ <-|].
  by eapply (collectSpecializationArgs_ranges_bindings _ IH).
Qed.

End user_args_stand.



(** ** The WebGPU device: calls and resources *)

Lemma protocol_app (t1 t2 : list Event) (held : Held) :
  protocol (t1 ++ t2) held = protocol t1 held ≫= protocol t2.
Proof.
  revert held. induction t1 as [|e t1 IH]; intros held; [done|].
  cbn [app protocol]. destruct (step held e) as [held'|]; [|done].
  simpl. apply IH.
Qed.

Lemma follows_ret {A} (held : Held) (a : A) (Q : A → Held → Prop) :
  Q a held → follows held (mret a) Q.
Proof.
  intros HQ api history a' history' [= <- <-]. exists [], held.
  by rewrite app_nil_r.
Qed.

Lemma follows_waiting {A} (held : Held) (Q : A → Held → Prop) :
  follows held waiting Q.
Proof. by intros api history a history'. Qed.

Lemma follows_bind {A B} (held : Held) (m : IO A) (k : A → IO B)
    (Q : A → Held → Prop) (R : B → Held → Prop) :
  follows held m Q →
  (∀ a held', Q a held' → follows held' (k a) R) →
  follows held (m ≫= k) R.
Proof.
  intros Hm Hk api history b history' Hrun.
  unfold mbind, IO_bind in Hrun.
  destruct (m api history) as [a history1|] eqn:Hm1; [|done].
  destruct (Hm _ _ _ _ Hm1) as (t1 & held1 & -> & Hp1 & HQ).
  destruct (Hk _ _ HQ _ _ _ _ Hrun) as (t2 & held2 & -> & Hp2 & HR).
  exists (t1 ++ t2), held2. split; [by rewrite app_assoc|]. split; [|done].
  by rewrite protocol_app, Hp1.
Qed.

Lemma follows_conseq {A} (held : Held) (m : IO A) (Q R : A → Held → Prop) :
  follows held m Q → (∀ a held', Q a held' → R a held') → follows held m R.
Proof.
  intros Hm HQR api history a history' Hrun.
  destruct (Hm _ _ _ _ Hrun) as (t & held' & ? & ? & ?). eauto 10.
Qed.

Lemma follows_call (held : Held) (c : Call) (Q : Reply → Held → Prop) :
  (∀ reply, ∃ held', step held (c, reply) = Some held' ∧ Q reply held') →
  follows held (call c) Q.
Proof.
  intros Hstep api history reply history' [= <- <-].
  destruct (Hstep (api history c)) as (held' & Hheld' & HQ).
  exists [(c, api history c)], held'. split; [done|]. split; [|done].
  cbn [protocol]. by rewrite Hheld'.
Qed.

Lemma follows_call_bind {A} (held : Held) (c : Call) (k : Reply → IO A)
    (R : A → Held → Prop) :
  (∀ reply, ∃ held', step held (c, reply) = Some held'
                     ∧ follows held' (k reply) R) →
  follows held (call c ≫= k) R.
Proof.
  intros Hstep.
  apply (follows_bind _ _ _
           (λ reply held', step held (c, reply) = Some held'
                           ∧ follows held' (k reply) R)).
  - apply follows_call. intros reply.
    destruct (Hstep reply) as (held' & ? & ?). eauto.
  - by intros reply held' [_ ?].
Qed.

Lemma follows_deferred {A} (held held0 : Held) (c : Call) (k : IO A)
    (P : A → Prop) :
  follows held k (λ a held', held' = held ∧ P a) →
  (∀ reply, step held (c, reply) = Some held0) →
  follows held (SLANG_RHI_DEFERRED c k) (λ a held', held' = held0 ∧ P a).
Proof.
  intros Hk Hc. unfold SLANG_RHI_DEFERRED.
  eapply follows_bind; [exact Hk|]. intros a held' [-> HP].
  apply follows_call_bind. intros reply. exists held0. split; [done|].
  by apply follows_ret.
Qed.

(** A call that needs, takes and gives nothing, made while no map request
    is open, leaves what is held as it is. *)
Lemma step_neutral (held : list Resource) (c : Call) (reply : Reply) :
  uses c = [] → releases c = [] → acquires (c, reply) = [] →
  step {| alive := held; pending := None |} (c, reply)
  = Some {| alive := held; pending := None |}.
Proof.
  intros Huses Hreleases Hacquires. unfold step.
  cbn [fst snd alive pending]. rewrite Huses, Hreleases, Hacquires.
  cbn [forallb release_all mbind option_bind app].
  destruct c as [| | | | | | | | | | |[buffer|] mode offset size| | | | |];
    done.
Qed.

Lemma uses_held (held rs : list Resource) :
  rs ⊆ held → forallb (λ r, bool_decide (r ∈ held)) rs = true.
Proof.
  induction rs as [|r rs IH]; intros Hrs; cbn [forallb]; [done|].
  rewrite bool_decide_eq_true_2 by set_solver. apply IH. set_solver.
Qed.

(** The two calls on the queue need the reference to it, and the command
    buffers submitted, and leave what is held as it is. *)
Lemma step_wgpuQueueSubmit (held : list Resource) (queue : option nat)
    (commands : list (option nat)) (reply : Reply) :
  resource Queue queue ⊆ held →
  commands ≫= resource CommandBuffer ⊆ held →
  step {| alive := held; pending := None |}
    (wgpuQueueSubmit queue commands, reply)
  = Some {| alive := held; pending := None |}.
Proof.
  intros Hqueue Hcommands. unfold step. cbn [fst snd uses alive].
  rewrite uses_held; [done|]. intros r [Hr|Hr]%elem_of_app; eauto.
Qed.

Lemma step_wgpuQueueOnSubmittedWorkDone (held : list Resource)
    (queue : option nat) (reply : Reply) :
  resource Queue queue ⊆ held →
  step {| alive := held; pending := None |}
    (wgpuQueueOnSubmittedWorkDone queue, reply)
  = Some {| alive := held; pending := None |}.
Proof.
  intros Hqueue. unfold step. cbn [fst snd uses alive].
  by rewrite uses_held.
Qed.

Lemma follows_tickWhileUnknown_workDone (fuel : nat) (device : option nat)
    (held : list Resource) :
  ∀ status,
    follows {| alive := held; pending := None |}
      (tickWhileUnknown workDoneUnknown workDoneStatus fuel device status)
      (λ _ held', held' = {| alive := held; pending := None |}).
Proof.
  induction fuel as [|fuel IH]; intros status; cbn [tickWhileUnknown];
    destruct (workDoneUnknown status);
    try (by apply follows_ret); [apply follows_waiting|].
  apply follows_call_bind. intros reply. eexists. split; [|apply IH].
  by apply step_neutral.
Qed.

Lemma follows_awaitSubmittedWorkDone (fuel : nat) (device queue : option nat)
    (held : list Resource) :
  resource Queue queue ⊆ held →
  follows {| alive := held; pending := None |}
    (awaitSubmittedWorkDone fuel device queue)
    (λ _ held', held' = {| alive := held; pending := None |}).
Proof.
  intros Hqueue. unfold awaitSubmittedWorkDone. apply follows_call_bind.
  intros reply. eexists. split; [|apply follows_tickWhileUnknown_workDone].
  by apply step_wgpuQueueOnSubmittedWorkDone.
Qed.

Lemma follows_tickWhileUnknown_mapAsync (fuel : nat) (device : option nat)
    (buffer : nat) (held : list Resource) :
  ∀ status,
    follows
      (if mapAsyncUnknown status
       then {| alive := held; pending := Some buffer |}
       else afterMapAsync buffer held status)
      (tickWhileUnknown mapAsyncUnknown mapAsyncStatus fuel device status)
      (λ status' held', held' = afterMapAsync buffer held status'
                        ∧ mapAsyncUnknown status' = false).
Proof.
  induction fuel as [|fuel IH]; intros status; cbn [tickWhileUnknown];
    destruct (mapAsyncUnknown status) eqn:Hstatus;
    try (by apply follows_ret); [apply follows_waiting|].
  apply follows_call_bind. intros reply. eexists. split; [|apply IH].
  unfold step. cbn [fst snd uses releases acquires forallb release_all
                    mbind option_bind app alive pending].
  destruct status; try done.
  by destruct (mapAsyncStatus reply) as [[]|].
Qed.

Lemma follows_awaitBufferMapAsync (fuel : nat) (device : option nat)
    (buffer : nat) (mode offset size : Z) (held : list Resource) :
  Buffer buffer ∈ held →
  follows {| alive := held; pending := None |}
    (awaitBufferMapAsync fuel device (Some buffer) mode offset size)
    (λ status held', held' = afterMapAsync buffer held status
                     ∧ mapAsyncUnknown status = false).
Proof.
  intros Hbuffer. unfold awaitBufferMapAsync. apply follows_call_bind.
  intros reply. eexists. split;
    [|apply (follows_tickWhileUnknown_mapAsync fuel device buffer held)].
  unfold step. cbn [fst snd uses releases acquires resource forallb andb
                    release_all mbind option_bind app alive pending].
  rewrite bool_decide_eq_true_2 by done. cbn [andb].
  by destruct (mapAsyncStatus reply) as [[]|].
Qed.

Ltac held_step :=
  unfold step;
  cbn [fst snd uses releases acquires resource forallb release_all release
       mbind option_bind list_bind app alive pending pointer mapAsyncStatus
       answer];
  repeat (rewrite bool_decide_eq_true_2 by set_solver);
  repeat (rewrite decide_True by done);
  cbn [andb mbind option_bind answer pending alive app];
  try reflexivity.

Tactic Notation "call_step" "as" simple_intropattern(p) :=
  apply follows_call_bind; intros [p ? ? ?];
  (eexists; split; [by held_step|]);
  cbn [pointer bytes workDoneStatus mapAsyncStatus isNull resource app].

(** A resource that is held below a reference to the queue is given
    back. *)
Lemma release_below_queue (queue : option nat) (x : Resource)
    (rest : list Resource) :
  queuesOf [x] = [] →
  release x (resource Queue queue ++ x :: rest)
  = Some (resource Queue queue ++ rest).
Proof.
  intros Hx. destruct queue as [q|]; cbn [resource app release].
  - rewrite decide_False by (intros <-; done).
    by rewrite decide_True by done.
  - by rewrite decide_True by done.
Qed.

(** A block that ends with [x] held below what its calls on the queue
    have left, and whose deferred call gives [x] back. *)
Lemma follows_deferred_release {A} (held : Held) (c : Call) (k : IO A)
    (x : Resource) (rest : list Resource) (P : A → Prop) :
  uses c = [] → releases c = [x] → queuesOf [x] = [] →
  (∀ reply, acquires (c, reply) = []) →
  follows held k
    (λ a held', ∃ queue, held' = withQueue queue (x :: rest) ∧ P a) →
  follows held (SLANG_RHI_DEFERRED c k)
    (λ a held', ∃ queue, held' = withQueue queue rest ∧ P a).
Proof.
  intros Huses Hreleases Hx Hacquires Hk. unfold SLANG_RHI_DEFERRED.
  eapply follows_bind; [exact Hk|]. intros a held' (queue & -> & HP).
  apply follows_call_bind. intros reply. exists (withQueue queue rest).
  split; [|apply follows_ret; by exists queue].
  unfold step, withQueue. cbn [fst snd alive pending].
  rewrite Huses, Hreleases, Hacquires. cbn [forallb release_all].
  rewrite release_below_queue by done. cbn [mbind option_bind app].
  by destruct c.
Qed.

Ltac deferred_release :=
  eapply follows_deferred_release;
  [reflexivity | reflexivity | reflexivity | reflexivity |].

Ltac fails_early :=
  apply follows_ret; exists None; split; [done | by right].

Tactic Notation "fails_late" constr(queue) :=
  apply follows_ret; exists queue; split; [done | by right].

(** The references to the queue are not touched by a release: what is
    held of them after a trace is what was held before and what the trace
    has handed out. *)
Lemma queuesOf_cons (x : Resource) (held : list Resource) :
  queuesOf (x :: held) = queuesOf [x] ++ queuesOf held.
Proof. unfold queuesOf. by rewrite bind_cons, bind_singleton. Qed.

Lemma queuesOf_app (held1 held2 : list Resource) :
  queuesOf (held1 ++ held2) = queuesOf held1 ++ queuesOf held2.
Proof. apply bind_app. Qed.

Lemma queuesOf_resource (queue : option nat) :
  queuesOf (resource Queue queue) = resource Queue queue.
Proof. by destruct queue. Qed.

Lemma release_queues (r : Resource) (held : list Resource) :
  ∀ held', release r held = Some held' → queuesOf [r] = [] →
           queuesOf held' = queuesOf held.
Proof.
  induction held as [|x held IH]; intros held'; cbn [release]; [done|].
  destruct (decide (x = r)) as [->|_].
  - intros [= <-] Hr. by rewrite queuesOf_cons, Hr.
  - destruct (release r held) as [held1|]; [|done]. intros [= <-] Hr.
    by rewrite (queuesOf_cons x held1), (queuesOf_cons x held), (IH held1).
Qed.

Lemma release_all_queues (rs : list Resource) :
  ∀ held held', release_all rs held = Some held' → queuesOf rs = [] →
                queuesOf held' = queuesOf held.
Proof.
  induction rs as [|r rs IH]; intros held held'; cbn [release_all].
  - by intros [= <-].
  - destruct (release r held) as [held1|] eqn:Hrelease; [|done].
    cbn [mbind option_bind]. intros Hrest Hrs.
    rewrite queuesOf_cons in Hrs. apply app_nil in Hrs as [Hr Hrs].
    rewrite (IH _ _ Hrest Hrs). by apply (release_queues r).
Qed.

Lemma releases_no_queue (c : Call) : queuesOf (releases c) = [].
Proof. by destruct c as [| [?|] | | [?|] | | | [?|] | | | | | | | | [?|] | |]. Qed.

Lemma step_queues (held held' : Held) (e : Event) :
  step held e = Some held' →
  queuesOf (alive held') = queuesOf (acquires e) ++ queuesOf (alive held).
Proof.
  unfold step. destruct (forallb _ _); [|done].
  destruct (release_all (releases e.1) (alive held)) as [alive'|] eqn:Hrelease;
    [|done].
  cbn [mbind option_bind]. intros [= <-].
  rewrite <- (release_all_queues _ _ _ Hrelease (releases_no_queue _)).
  rewrite <- queuesOf_app. unfold answer. cbn [pending alive].
  by destruct (match e.1 with
               | wgpuBufferMapAsync (Some buffer) _ _ _ => Some buffer
               | _ => pending held
               end) as [buffer|], (mapAsyncStatus e.2) as [[]|].
Qed.

Lemma protocol_queues (trace : list Event) :
  ∀ held held', protocol trace held = Some held' →
    queuesOf (alive held') = queuesHandedOut trace ++ queuesOf (alive held).
Proof.
  induction trace as [|e trace IH]; intros held held'; cbn [protocol].
  - by intros [= <-].
  - destruct (step held e) as [held1|] eqn:Hstep; [|done].
    cbn [mbind option_bind]. intros Hrest.
    rewrite (IH _ _ Hrest), (step_queues _ _ _ Hstep), app_assoc.
    f_equal. unfold queuesHandedOut.
    by rewrite reverse_cons, bind_app, queuesOf_app, bind_singleton.
Qed.

Lemma queuesHandedOut_held (trace : list Event) (queue : option nat)
    (held rest : list Resource) :
  protocol trace {| alive := held; pending := None |}
  = Some (withQueue queue rest) →
  queuesOf rest = queuesOf held →
  resource Queue queue = queuesHandedOut trace.
Proof.
  intros Hprotocol Hrest. apply protocol_queues in Hprotocol.
  unfold withQueue in Hprotocol. cbn [alive] in Hprotocol.
  rewrite queuesOf_app, queuesOf_resource, Hrest in Hprotocol.
  by apply app_inv_tail in Hprotocol.
Qed.

(** The part of [readBuffer] and of the upload of [createBuffer] from
    [wgpuDeviceGetQueue] to the end of the wait for the work submitted:
    the reference to the queue is taken, and stays. *)
Lemma follows_submit {A} (fuel : nat) (device : option nat)
    (commandBuffer : nat) (held : list Resource)
    (k : WGPUQueueWorkDoneStatus → IO A) (R : A → Held → Prop) :
  CommandBuffer commandBuffer ∈ held →
  (∀ queue status,
     follows (withQueue queue held) (k status) R) →
  follows {| alive := held; pending := None |}
    (reply ← call (wgpuDeviceGetQueue device);
     let queue := pointer reply in
     _ ← call (wgpuQueueSubmit queue [Some commandBuffer]);
     status ← awaitSubmittedWorkDone fuel device queue;
     k status) R.
Proof.
  intros Hheld Hk. apply follows_call_bind. intros [queue ? ? ?].
  exists (withQueue queue held). split; [by held_step|]. cbn [pointer].
  apply follows_call_bind. intros submitted.
  exists (withQueue queue held). split.
  { apply step_wgpuQueueSubmit; intros r Hr; apply elem_of_app;
      [by left | right].
    by apply list_elem_of_singleton in Hr as ->. }
  eapply follows_bind.
  { apply follows_awaitSubmittedWorkDone. intros r Hr. apply elem_of_app.
    by left. }
  intros status held' ->. apply Hk.
Qed.

(** [readBuffer] releases what it has created and keeps the reference to
    the queue.  On every path on which it returns, whatever the API
    answers: the staging buffer, the command encoder and the command
    buffer it was given have been released, each once and none before its
    last use; the staging buffer is unmapped when, and only when, its
    mapping had succeeded, and its mapped range is asked for only while
    it is mapped; no map request is left open.  The reference to the
    queue that [wgpuDeviceGetQueue] has handed out is not given back: it
    is what the function still holds when it returns, on every path that
    has come to that call.  The result is [SLANG_OK] with [*outBlob] set,
    or [SLANG_FAIL] with [*outBlob] untouched. *)
Theorem readBuffer_releases_all_but_the_queue
    (fuel : nat) (this : DeviceImpl.t) (bufferImpl : BufferImpl.t)
    (offset size : Z) (held : list Resource)
    (api : API) (history history' : list Event)
    (r : Result) (outBlob : option (list Byte.byte)) :
  (∀ buffer, BufferImpl.m_buffer bufferImpl = Some buffer →
             Buffer buffer ∈ held) →
  DeviceImpl.readBuffer fuel this bufferImpl offset size api history
  = Returned (r, outBlob) history' →
  ∃ trace,
    history' = history ++ trace
    ∧ protocol trace {| alive := held; pending := None |}
      = Some {| alive := queuesHandedOut trace ++ held; pending := None |}
    ∧ (length (queuesHandedOut trace) ≤ 1)%nat
    ∧ ((r = SLANG_OK ∧ is_Some outBlob) ∨ (r = SLANG_FAIL ∧ outBlob = None)).
Proof.
  intros Hsource Hrun.
  set (P := λ a : Result * option (list Byte.byte),
              (a.1 = SLANG_OK ∧ is_Some a.2) ∨ (a.1 = SLANG_FAIL ∧ a.2 = None)).
  assert (follows {| alive := held; pending := None |}
            (DeviceImpl.readBuffer fuel this bufferImpl offset size)
            (λ a held', ∃ queue, held' = withQueue queue held ∧ P a))
    as Hfollows.
  { clear Hrun. unfold DeviceImpl.readBuffer.
    call_step as [stagingBuffer|]; [|fails_early].
    deferred_release.
    call_step as [encoder|]; [|fails_early].
    deferred_release.
    apply follows_call_bind. intros copied. eexists. split.
    { destruct (BufferImpl.m_buffer bufferImpl) as [source|] eqn:Hsource';
        [pose proof (Hsource source eq_refl)|]; by held_step. }
    call_step as [commandBuffer|]; [|fails_early].
    deferred_release.
    apply follows_submit; [set_solver|]. intros queue status.
    destruct (workDoneSuccess status); cbn [negb]; [|by fails_late queue].
    eapply follows_bind;
      [apply follows_awaitBufferMapAsync; unfold withQueue; set_solver|].
    intros mapStatus held' [-> _]. unfold afterMapAsync.
    destruct (mapAsyncSuccess mapStatus); cbn [negb]; [|by fails_late queue].
    eapply follows_conseq.
    { eapply follows_deferred with (P := P);
        [|intros reply; by held_step].
      call_step as [data|];
        [|apply follows_ret; split; [done | by right]].
      call_step as ?. apply follows_ret. split; [done|]. left. by split. }
    intros a held' [-> HP]. by exists queue. }
  destruct (Hfollows _ _ _ _ Hrun)
    as (trace & held' & -> & Hprotocol & queue & -> & HP).
  exists trace. split; [done|].
  rewrite <- (queuesHandedOut_held _ _ _ _ Hprotocol eq_refl).
  split; [exact Hprotocol|].
  split; [destruct queue; simpl; lia | exact HP].
Qed.

(** Four bytes of buffer [100], with an API that answers in the first
    tick: the reference to the queue, which the API has handed out in its
    fifth answer, is held at the end. *)
Lemma readBuffer_releases_all_but_the_queue_witness :
  ∃ history',
    DeviceImpl.readBuffer 1 wgpuDevice uploadBuffer 0 4 tickingAPI []
    = Returned (SLANG_OK, Some (replicate 4 Byte.x2a)) history'
    ∧ queuesHandedOut history' = [Queue 4]
    ∧ ∃ trace,
        history' = [] ++ trace
        ∧ protocol trace {| alive := [Buffer 100]; pending := None |}
          = Some {| alive := queuesHandedOut trace ++ [Buffer 100];
                    pending := None |}
        ∧ (length (queuesHandedOut trace) ≤ 1)%nat
        ∧ ((SLANG_OK = SLANG_OK ∧ is_Some (Some (replicate 4 Byte.x2a)))
           ∨ (SLANG_OK = SLANG_FAIL ∧ Some (replicate 4 Byte.x2a) = None)).
Proof.
  eexists. split; [vm_compute; reflexivity|].
  split; [vm_compute; reflexivity|].
  apply (readBuffer_releases_all_but_the_queue 1 wgpuDevice uploadBuffer
           0 4 [Buffer 100] tickingAPI []).
  - intros buffer [= <-]. apply list_elem_of_here.
  - vm_compute. reflexivity.
Defined.

Lemma follows_createBuffer_upload (fuel : nat) (device : option nat)
    (desc : BufferDesc.t) (initData : list Byte.byte) (buffer : BufferImpl.t)
    (destination : nat) (held : list Resource) :
  BufferImpl.m_buffer buffer = Some destination →
  Buffer destination ∈ held →
  follows {| alive := held; pending := None |}
    (DeviceImpl.createBuffer_upload fuel device desc initData buffer)
    (λ returned held',
       ∃ queue, held' = withQueue queue held
                ∧ (returned = None ∨ returned = Some SLANG_FAIL)).
Proof.
  intros Hbuffer Hdestination. unfold DeviceImpl.createBuffer_upload.
  rewrite Hbuffer.
  call_step as [stagingBuffer|]; [|fails_early].
  deferred_release.
  eapply follows_bind; [apply follows_awaitBufferMapAsync; set_solver|].
  intros mapStatus held' [-> _]. unfold afterMapAsync.
  destruct (mapAsyncSuccess mapStatus); cbn [negb]; [|fails_early].
  call_step as [data|].
  - call_step as ?. call_step as ?.
    call_step as [encoder|]; [|fails_early].
    deferred_release.
    call_step as ?.
    call_step as [commandBuffer|]; [|fails_early].
    deferred_release.
    apply follows_submit; [set_solver|]. intros queue status.
    destruct (workDoneSuccess status); cbn [negb]; apply follows_ret;
      exists queue; (split; [done|]); [by left | by right].
  - call_step as ?. fails_early.
Qed.

Lemma follows_destroy (buffer : BufferImpl.t) (created : nat)
    (queue : option nat) (held : list Resource) :
  BufferImpl.m_buffer buffer = Some created →
  follows (withQueue queue (Buffer created :: held))
    (BufferImpl.destroy buffer)
    (λ _ held', held' = withQueue queue held).
Proof.
  intros Hbuffer. unfold BufferImpl.destroy. rewrite Hbuffer.
  apply follows_call_bind. intros reply. exists (withQueue queue held).
  split; [|by apply follows_ret].
  unfold step, withQueue.
  cbn [fst snd uses releases acquires resource forallb release_all alive
       pending].
  by rewrite release_below_queue by done.
Qed.

(** [createBuffer] keeps the buffer it hands out, and the reference to
    the queue.  On every path on which it returns, whatever the API
    answers and with or without initial data: when the result is
    [SLANG_OK], [*outBuffer] is a buffer object with the description asked
    for and a buffer of the API, which is still held; otherwise the result
    is [SLANG_FAIL], [*outBuffer] is untouched, and the buffer of the API,
    if one was created, has been released with the object.  In both cases
    the staging buffer, the command encoder and the command buffer of the
    upload have been released, each once and none before its last use,
    and the staging buffer was unmapped when, and only when, its mapping
    had succeeded.  The reference to the queue that [wgpuDeviceGetQueue]
    has handed out to the upload is not given back: it is still held when
    the function returns, on every path that has come to that call. *)
Theorem createBuffer_keeps_the_buffer_and_the_queue `{BufferHeaders}
    (fuel : nat) (this : DeviceImpl.t) (desc : BufferDesc.t)
    (initData : option (list Byte.byte)) (held : list Resource)
    (api : API) (history history' : list Event)
    (r : Result) (outBuffer : option BufferImpl.t) :
  DeviceImpl.createBuffer fuel this desc initData api history
  = Returned (r, outBuffer) history' →
  ∃ trace,
    history' = history ++ trace
    ∧ (length (queuesHandedOut trace) ≤ 1)%nat
    ∧ match outBuffer with
      | Some buffer =>
          r = SLANG_OK
          ∧ BufferImpl.m_desc buffer = desc
          ∧ ∃ created,
              BufferImpl.m_buffer buffer = Some created
              ∧ protocol trace {| alive := held; pending := None |}
                = Some {| alive := queuesHandedOut trace
                                   ++ Buffer created :: held;
                          pending := None |}
      | None =>
          r = SLANG_FAIL
          ∧ protocol trace {| alive := held; pending := None |}
            = Some {| alive := queuesHandedOut trace ++ held;
                      pending := None |}
      end.
Proof.
  intros Hrun.
  set (Q := λ (a : Result * option BufferImpl.t) (held' : Held),
              ∃ queue,
                match a.2 with
                | Some buffer =>
                    a.1 = SLANG_OK
                    ∧ BufferImpl.m_desc buffer = desc
                    ∧ ∃ created,
                        BufferImpl.m_buffer buffer = Some created
                        ∧ held' = withQueue queue (Buffer created :: held)
                | None =>
                    a.1 = SLANG_FAIL ∧ held' = withQueue queue held
                end).
  assert (follows {| alive := held; pending := None |}
            (DeviceImpl.createBuffer fuel this desc initData) Q) as Hfollows.
  { clear Hrun. unfold DeviceImpl.createBuffer.
    call_step as [created|]; cbn [BufferImpl.set_buffer BufferImpl.m_buffer].
    - eapply follows_bind.
      { instantiate (1 := λ returned held',
                            ∃ queue,
                              held' = withQueue queue (Buffer created :: held)
                              ∧ (returned = None
                                 ∨ returned = Some SLANG_FAIL)).
        destruct initData as [initData|].
        - apply (follows_createBuffer_upload _ _ _ _ _ created);
            [done | set_solver].
        - apply follows_ret. exists None. split; [done | by left]. }
      intros returned held' (queue & -> & [-> | ->]).
      + apply follows_ret. exists queue. cbn [fst snd].
        split; [done|]. split; [|by eexists].
        by destruct (BufferDesc.memoryType desc).
      + eapply follows_bind; [by apply (follows_destroy _ created)|].
        intros _ held' ->. apply follows_ret. by exists queue.
    - unfold BufferImpl.destroy.
      cbn [BufferImpl.m_buffer BufferImpl.set_buffer].
      apply follows_ret. by exists None. }
  destruct (Hfollows _ _ _ _ Hrun)
    as (trace & held' & -> & Hprotocol & queue & HQ).
  exists trace. split; [done|]. cbn [fst snd] in HQ.
  destruct outBuffer as [buffer|].
  - destruct HQ as (-> & Hdesc & created & Hcreated & ->).
    rewrite <- (queuesHandedOut_held _ _ _ _ Hprotocol eq_refl).
    split; [destruct queue; simpl; lia|]. split; [done|]. split; [done|].
    by exists created.
  - destruct HQ as (-> & ->).
    rewrite <- (queuesHandedOut_held _ _ _ _ Hprotocol eq_refl).
    split; [destruct queue; simpl; lia|]. by split.
Qed.

(** The upload buffer with four bytes of initial data: the buffer created
    and the reference to the queue, which the API has handed out in its
    eleventh answer, are held at the end. *)
Lemma createBuffer_keeps_the_buffer_and_the_queue_witness :
  ∃ buffer history',
    @DeviceImpl.createBuffer bufferHeaders 1 wgpuDevice uploadDesc
      (Some (replicate 4 Byte.x2a)) tickingAPI []
    = Returned (SLANG_OK, Some buffer) history'
    ∧ queuesHandedOut history' = [Queue 10]
    ∧ ∃ trace,
        history' = [] ++ trace
        ∧ (length (queuesHandedOut trace) ≤ 1)%nat
        ∧ SLANG_OK = SLANG_OK
        ∧ BufferImpl.m_desc buffer = uploadDesc
        ∧ ∃ created,
            BufferImpl.m_buffer buffer = Some created
            ∧ protocol trace {| alive := []; pending := None |}
              = Some {| alive := queuesHandedOut trace ++ [Buffer created];
                        pending := None |}.
Proof.
  eexists _, _. split; [vm_compute; reflexivity|].
  split; [vm_compute; reflexivity|].
  apply (@createBuffer_keeps_the_buffer_and_the_queue bufferHeaders 1
           wgpuDevice uploadDesc (Some (replicate 4 Byte.x2a)) [] tickingAPI []
           _ SLANG_OK (Some _)).
  vm_compute. reflexivity.
Defined.

(** ** Mapping a buffer *)

(** [map] and [unmap] on a buffer object that holds a buffer of the API.
    A buffer that is mapped refuses [map], and one that is not refuses
    [unmap], with [SLANG_FAIL] and without a call to the API.  On a
    buffer that is not mapped, [map] asks the API for the mapping and
    does not wait: it returns [SLANG_OK], with the buffer marked mapped
    and the address of the range, only when the callback has reported
    success before [wgpuBufferMapAsync] returns; [unmap] then gives the
    mapping back and leaves the buffer object as it was before [map].  In
    every other case [map] returns [SLANG_FAIL] with the buffer not marked
    mapped; when the callback has not run, or has reported [Unknown], the
    request it has made stays open. *)
Theorem map_succeeds_only_when_the_callback_has_run
    (this : BufferImpl.t) (buffer : nat)
    (rangeToRead writtenRange : option MemoryRange.t)
    (held : list Resource) (api : API) (history : list Event) :
  let offset :=
    match rangeToRead with
    | Some range => MemoryRange.offset range
    | None => 0%Z
    end in
  let size :=
    match rangeToRead with
    | Some range => MemoryRange.size range
    | None => BufferDesc.size (BufferImpl.m_desc this)
    end in
  let request :=
    (wgpuBufferMapAsync (Some buffer) (BufferImpl.m_mapMode this) offset size,
     api history
       (wgpuBufferMapAsync (Some buffer) (BufferImpl.m_mapMode this)
          offset size)) in
  let range :=
    (wgpuBufferGetMappedRange (Some buffer) offset size,
     api (history ++ [request])
       (wgpuBufferGetMappedRange (Some buffer) offset size)) in
  let unmapped :=
    (wgpuBufferUnmap (Some buffer),
     api (history ++ [request; range]) (wgpuBufferUnmap (Some buffer))) in
  BufferImpl.m_buffer this = Some buffer →
  Buffer buffer ∈ held →
  (BufferImpl.m_isMapped this = true →
   BufferImpl.map this rangeToRead api history
   = Returned (SLANG_FAIL, None, this) history)
  ∧ (BufferImpl.m_isMapped this = false →
     BufferImpl.unmap this writtenRange api history
     = Returned (SLANG_FAIL, this) history)
  ∧ (BufferImpl.m_isMapped this = false →
     match mapAsyncStatus request.2 with
     | Some WGPUBufferMapAsyncStatus_Success =>
         BufferImpl.map this rangeToRead api history
         = Returned (SLANG_OK, Some (pointer range.2),
                     BufferImpl.set_isMapped true this)
             (history ++ [request; range])
         ∧ BufferImpl.unmap (BufferImpl.set_isMapped true this) writtenRange
             api (history ++ [request; range])
           = Returned (SLANG_OK, this) (history ++ [request; range; unmapped])
         ∧ protocol [request; range; unmapped]
             {| alive := held; pending := None |}
           = Some {| alive := held; pending := None |}
     | status =>
         BufferImpl.map this rangeToRead api history
         = Returned (SLANG_FAIL, None, this) (history ++ [request])
         ∧ protocol [request] {| alive := held; pending := None |}
           = Some {| alive := held;
                     pending :=
                       match status with
                       | Some WGPUBufferMapAsyncStatus_other => None
                       | _ => Some buffer
                       end |}
     end).
Proof.
  intros offset size request range unmapped Hbuffer Hheld.
  destruct this as [desc m_buffer m_isMapped m_mapMode].
  cbn [BufferImpl.m_buffer BufferImpl.m_isMapped BufferImpl.m_mapMode
       BufferImpl.m_desc] in *.
  subst m_buffer. split; [|split].
  - by intros ->.
  - by intros ->.
  - intros ->. subst unmapped range request. cbn [snd].
    unfold BufferImpl.map, BufferImpl.unmap, BufferImpl.callback,
      mapAsyncSuccess, BufferImpl.set_isMapped.
    cbn [BufferImpl.m_buffer BufferImpl.m_isMapped BufferImpl.m_mapMode
         BufferImpl.m_desc].
    fold offset. fold size. unfold mbind, IO_bind, call, mret, IO_ret.
    destruct (mapAsyncStatus
                (api history
                   (wgpuBufferMapAsync (Some buffer) m_mapMode offset size)))
      as [[]|] eqn:Hstatus;
      cbn [BufferImpl.m_buffer BufferImpl.m_isMapped BufferImpl.m_mapMode
           BufferImpl.m_desc negb];
      rewrite <- ?app_assoc; cbn [app protocol].
    + split; [reflexivity|]. split; [reflexivity|].
      held_step. rewrite Hstatus. held_step. held_step.
    + split; [reflexivity|]. held_step. by rewrite Hstatus.
    + split; [reflexivity|]. held_step. by rewrite Hstatus.
    + split; [reflexivity|]. held_step. by rewrite Hstatus.
Qed.

(** The upload buffer is mapped and unmapped with an API that answers
    at once; with an API that answers in a later tick, [map] fails and
    leaves its request open. *)
Lemma map_succeeds_only_when_the_callback_has_run_witness :
  (∃ outPointer history',
     BufferImpl.map uploadBuffer None promptAPI []
     = Returned (SLANG_OK, Some outPointer,
                 BufferImpl.set_isMapped true uploadBuffer) history'
     ∧ ∃ history'',
         BufferImpl.unmap (BufferImpl.set_isMapped true uploadBuffer) None
           promptAPI history'
         = Returned (SLANG_OK, uploadBuffer) history''
         ∧ protocol history'' {| alive := [Buffer 100]; pending := None |}
           = Some {| alive := [Buffer 100]; pending := None |})
  ∧ ∃ history',
      BufferImpl.map uploadBuffer None tickingAPI []
      = Returned (SLANG_FAIL, None, uploadBuffer) history'
      ∧ protocol history' {| alive := [Buffer 100]; pending := None |}
        = Some {| alive := [Buffer 100]; pending := Some 100%nat |}.
Proof.
  split.
  - destruct (map_succeeds_only_when_the_callback_has_run uploadBuffer 100
                None None [Buffer 100] promptAPI [])
      as (_ & _ & Hmap); [reflexivity | apply list_elem_of_here |].
    specialize (Hmap eq_refl). cbn [snd promptAPI mapAsyncStatus] in Hmap.
    destruct Hmap as (Hmap & Hunmap & Hprotocol).
    eexists _, _. split; [exact Hmap|]. eexists. split; [exact Hunmap|].
    exact Hprotocol.
  - destruct (map_succeeds_only_when_the_callback_has_run uploadBuffer 100
                None None [Buffer 100] tickingAPI [])
      as (_ & _ & Hmap); [reflexivity | apply list_elem_of_here |].
    specialize (Hmap eq_refl). cbn [snd tickingAPI mapAsyncStatus] in Hmap.
    destruct Hmap as (Hmap & Hprotocol).
    eexists. split; [exact Hmap | exact Hprotocol].
Defined.

(** ** The buffers of a shader table *)

(** After [getOrCreateBuffer] the table has an entry for the pipeline,
    and a later call for it returns that entry and leaves the table as it
    is: [createDeviceBuffer] is not called again, even when what it
    returned, and what was stored, is null.  A table that has an entry is
    not changed at all.  When [createDeviceBuffer] leaves the entries of
    the table alone, the later call returns the buffer the first one
    returned, and the entries of the other pipelines are as they were. *)
Theorem getOrCreateBuffer_creates_once `{ShaderTableImpl}
    (pipeline : nat) (table : ShaderTable.t) :
  let buffer := (getOrCreateBuffer pipeline table).1 in
  let table' := (getOrCreateBuffer pipeline table).2 in
  (∃ stored,
     ShaderTable.m_deviceBuffers table' !! pipeline = Some stored
     ∧ getOrCreateBuffer pipeline table' = (stored, table'))
  ∧ (∀ stored,
       ShaderTable.m_deviceBuffers table !! pipeline = Some stored →
       buffer = stored ∧ table' = table)
  ∧ ((∀ p t, ShaderTable.m_deviceBuffers (createDeviceBuffer p t).2
             = ShaderTable.m_deviceBuffers t) →
     getOrCreateBuffer pipeline table' = (buffer, table')
     ∧ ∀ other, other ≠ pipeline →
                ShaderTable.m_deviceBuffers table' !! other
                = ShaderTable.m_deviceBuffers table !! other).
Proof.
  intros buffer table'. subst buffer table'.
  destruct (getOrCreateBuffer pipeline table) as [buffer table'] eqn:Hrun.
  cbn [fst snd]. unfold getOrCreateBuffer in Hrun.
  destruct (ShaderTable.m_deviceBuffers table !! pipeline) as [stored|] eqn:Htable.
  { injection Hrun as <- <-. split; [|split].
    - exists stored. split; [done|]. unfold getOrCreateBuffer. by rewrite Htable.
    - intros ? [= <-]. done.
    - intros _. split; [|done]. unfold getOrCreateBuffer. by rewrite Htable. }
  destruct (createDeviceBuffer pipeline table) as [result table1] eqn:Hcreate.
  destruct (ShaderTable.m_deviceBuffers table1 !! pipeline) as [stored|] eqn:Htable1;
    injection Hrun as <- <-.
  - split; [|split].
    + exists stored. split; [done|]. unfold getOrCreateBuffer. by rewrite Htable1.
    + done.
    + intros Hframe. specialize (Hframe pipeline table).
      rewrite Hcreate in Hframe. cbn [snd] in Hframe. congruence.
  - split; [|split].
    + exists result. cbn [ShaderTable.set_deviceBuffers ShaderTable.m_deviceBuffers].
      split; [apply lookup_insert_eq|]. unfold getOrCreateBuffer.
      cbn [ShaderTable.set_deviceBuffers ShaderTable.m_deviceBuffers].
      by rewrite lookup_insert_eq.
    + done.
    + intros Hframe. specialize (Hframe pipeline table).
      rewrite Hcreate in Hframe. cbn [snd] in Hframe. split.
      * unfold getOrCreateBuffer.
        cbn [ShaderTable.set_deviceBuffers ShaderTable.m_deviceBuffers].
        by rewrite lookup_insert_eq.
      * intros other Hother.
        cbn [ShaderTable.set_deviceBuffers ShaderTable.m_deviceBuffers].
        rewrite lookup_insert_ne by done. by rewrite Hframe.
Qed.
